(** * ccxt async base exchange: order-book synchronisation and subscription core

    A shallow embedding of [python/ccxt/async_support/base/exchange.py]
    (class [Exchange]): [watch], [load_order_book], [handle_deltas],
    [ws_close], [close], the exception mapping of [fetch], and the option
    lookup [handle_option].

    Python objects that are shared by reference (clients, futures) live in
    heaps indexed by object identity; dictionaries are [gmap]s; awaited
    collaborators (REST snapshot fetch, transport send, transport close) are
    oracles whose outcome is an input of the model. *)

From Stdlib Require Import ZArith Lia Ascii.
From stdpp Require Import gmap strings list fin_maps pretty.

Local Open Scope Z_scope.
Local Open Scope string_scope.

(** ** Python values and truthiness *)

Module Py.

(** The values that flow through [message] and [subscription] in [watch]:
    [None], [True], a string, or a dict (kept as its item list). *)
Inductive Val :=
| PNone
| PTrue
| PStr (s : string)
| PDict (items : list (string * string)).

#[global] Instance Val_eq_dec : EqDecision Val.
Proof. solve_decision. Defined.

(** [bool(v)] *)
Definition truthy (v : Val) : bool :=
  match v with
  | PNone => false
  | PTrue => true
  | PStr s => negb (String.eqb s "")
  | PDict items => match items with [] => false | _ :: _ => true end
  end.

(** [a or b] *)
Definition or_ (a b : Val) : Val := if truthy a then a else b.

(** Exception classes that the source names, raises or catches, with the
    library classes they derive from. *)
Inductive Class :=
| Exception | OSError | KeyError | ConnectionError | AttributeError
| TypeError
| gaierror
| FuturesTimeoutError | AsyncioTimeoutError
| ClientError | ClientConnectionError | ClientOSError
| ServerTimeoutError | ClientResponseError
| BaseError | ExchangeError | NotSupported | NetworkError
| ExchangeNotAvailable | RequestTimeout.

#[global] Instance Class_eq_dec : EqDecision Class.
Proof. solve_decision. Defined.

(** An exception object: the classes it is an instance of (its type's
    method resolution order) and its message. *)
Record Exc := mkExc { exc_classes : list Class; exc_msg : string }.

#[global] Instance Exc_eq_dec : EqDecision Exc.
Proof. solve_decision. Defined.

(** [isinstance(e, c)], the test an [except c] clause performs. *)
Definition isinstance (e : Exc) (c : Class) : bool :=
  bool_decide (c ∈ exc_classes e).

(** Modelled from the spec: the error taxonomy of [ccxt.base.errors]
    (imported by the source, not part of it). Every class of the taxonomy
    derives from [BaseError]; [NotSupported] is an [ExchangeError], and the
    two transient network conditions are [NetworkError]s. *)
Definition mro (c : Class) : list Class :=
  match c with
  | ExchangeError => [ExchangeError; BaseError; Exception]
  | NotSupported => [NotSupported; ExchangeError; BaseError; Exception]
  | NetworkError => [NetworkError; BaseError; Exception]
  | ExchangeNotAvailable =>
      [ExchangeNotAvailable; NetworkError; BaseError; Exception]
  | RequestTimeout => [RequestTimeout; NetworkError; BaseError; Exception]
  | BaseError => [BaseError; Exception]
  | KeyError => [KeyError; Exception]
  | c => [c; Exception]
  end.

(** [c(msg)]: constructing an exception of class [c]. *)
Definition new (c : Class) (msg : string) : Exc := mkExc (mro c) msg.

(** [' '.join(parts)] *)
Fixpoint join_sp (parts : list string) : string :=
  match parts with
  | [] => ""
  | [p] => p
  | p :: rest => p +:+ " " +:+ join_sp rest
  end.

(** [str(n)] for an int. *)
Definition str (n : Z) : string := pretty n.

End Py.

Import Py.

(** ** Exchange configuration: [self.id], [self.options], [self.enableRateLimit] *)

(** An entry of [self.options]: a number or a nested dict of numbers. *)
Inductive OptVal :=
| OInt (z : Z)
| ODict (d : gmap string Z).

Record Exchange := mkExchange {
  id : string;
  options : gmap string OptVal;
  enableRateLimit : bool;
  own_session : bool
}.

(** [capitalize]: first letter in upper case. *)
Definition capitalize (s : string) : string :=
  match s with
  | EmptyString => EmptyString
  | String a rest =>
      let n := Ascii.nat_of_ascii a in
      if andb (Nat.leb 97 n) (Nat.leb n 122)
      then String (Ascii.ascii_of_nat (n - 32)) rest
      else s
  end.

(** [safe_value_2(d, k1, k2)] on a dict of numbers. *)
Definition safe_value_2_int (d : gmap string Z) (k1 k2 : string) : option Z :=
  match d !! k1 with
  | Some v => Some v
  | None => d !! k2
  end.

(** [safe_value_2(self.options, k1, k2)] restricted to numeric results. *)
Definition safe_value_2_top (d : gmap string OptVal) (k1 k2 : string)
  : option OptVal :=
  match d !! k1 with
  | Some v => Some v
  | None => d !! k2
  end.

(** [handle_option(methodName, optionName, defaultValue)]: the method's own
    option dict first, then the exchange-wide options, then the default.
    [handle_option_and_params] is called with empty [params], so its first
    branch never applies. *)
Definition handle_option (self : Exchange) (methodName optionName : string)
    (defaultValue : Z) : Z :=
  let defaultOptionName := "default" +:+ capitalize optionName in
  let value :=
    match options self !! methodName with
    | Some (ODict exchangeWideMethodOptions) =>
        safe_value_2_int exchangeWideMethodOptions optionName defaultOptionName
    | _ => None
    end in
  let value :=
    match value with
    | Some v => Some v
    | None =>
        match safe_value_2_top (options self) optionName defaultOptionName with
        | Some (OInt z) => Some z
        | _ => None
        end
    end in
  match value with
  | Some v => v
  | None => defaultValue
  end.

(** ** Shared objects: futures, clients, order books *)

(** What a future is resolved with: the stored order book of a symbol (the
    object itself, so the reference, not a copy). *)
Inductive Value :=
| VBook (symbol : string).

#[global] Instance Value_eq_dec : EqDecision Value.
Proof. solve_decision. Defined.

(** A [Future] object: single resolution. *)
Inductive FutState :=
| Pending
| Resolved (v : Value)
| Rejected (e : Exc).

#[global] Instance FutState_eq_dec : EqDecision FutState.
Proof. solve_decision. Defined.

(** A [FastClient] object as far as the exchange touches it. *)
Record Client := mkClient {
  url : string;
  futures : gmap string nat;               (* message hash -> Future object *)
  subscriptions : gmap (option string) Val; (* subscribe hash -> descriptor *)
  connected_done : bool;                   (* client.connected.done() *)
  error : bool                             (* client.error *)
}.

Definition set_futures (f : gmap string nat -> gmap string nat) (c : Client) :=
  mkClient (url c) (f (futures c)) (subscriptions c) (connected_done c) (error c).
Definition set_subscriptions
    (f : gmap (option string) Val -> gmap (option string) Val) (c : Client) :=
  mkClient (url c) (futures c) (f (subscriptions c)) (connected_done c) (error c).

(** The closure [after] built by one [watch] call, with the variables it
    captures. *)
Record After := mkAfter {
  a_client : nat;
  a_future : nat;
  a_message : Val;
  a_subscribe_hash : option string
}.

Section Core.

Context {Snapshot Delta : Type}.

(** An [OrderBook] object: its contents (what a snapshot carries) and the
    cache of raw deltas. *)
Record OrderBook := mkOrderBook {
  ob_data : Snapshot;
  cache : list Delta
}.

(** Observable actions, in program order. *)
Inductive Event :=
| EvFetchOrderBook (symbol : string) (n : nat)
| EvReset (symbol : string) (snapshot : Snapshot)
| EvHandleDelta (symbol : string) (delta : Delta)
| EvCacheClear (symbol : string)
| EvResolve (client : nat) (messageHash : string) (v : Value)
| EvReject (client : nat) (messageHash : string) (e : Exc)
| EvFutureReject (future : nat) (e : Exc)
| EvDelClient (url : string)
| EvNewClient (url : string) (client : nat)
| EvNewFuture (client : nat) (messageHash : string) (future : nat)
| EvConnect (client : nat)
| EvAddDoneCallback (a : After)
| EvThrottle (client : nat) (cost : Z)
| EvSend (client : nat) (message : Val)
| EvCreateCloseTask (client : nat)
| EvCloseDone (client : nat) (failure : option Exc)
| EvSessionClose.

(** The mutable state reachable from [self]. *)
Record World := mkWorld {
  clients : gmap string nat;           (* self.clients: url -> client object *)
  objects : gmap nat Client;           (* client objects by identity *)
  fstate : gmap nat FutState;          (* Future objects by identity *)
  orderbooks : gmap string OrderBook;  (* self.orderbooks *)
  callbacks : list After;              (* done-callbacks registered, not yet run *)
  session : bool;                      (* self.session is not None *)
  fetches : nat;                       (* fetch_order_book calls so far *)
  log : list Event
}.

Definition set_clients (f : gmap string nat -> gmap string nat) (w : World) :=
  mkWorld (f (clients w)) (objects w) (fstate w) (orderbooks w) (callbacks w)
          (session w) (fetches w) (log w).
Definition set_objects (f : gmap nat Client -> gmap nat Client) (w : World) :=
  mkWorld (clients w) (f (objects w)) (fstate w) (orderbooks w) (callbacks w)
          (session w) (fetches w) (log w).
Definition set_fstate (f : gmap nat FutState -> gmap nat FutState) (w : World) :=
  mkWorld (clients w) (objects w) (f (fstate w)) (orderbooks w) (callbacks w)
          (session w) (fetches w) (log w).
Definition set_orderbooks
    (f : gmap string OrderBook -> gmap string OrderBook) (w : World) :=
  mkWorld (clients w) (objects w) (fstate w) (f (orderbooks w)) (callbacks w)
          (session w) (fetches w) (log w).
Definition set_callbacks (f : list After -> list After) (w : World) :=
  mkWorld (clients w) (objects w) (fstate w) (orderbooks w) (f (callbacks w))
          (session w) (fetches w) (log w).
Definition set_session (b : bool) (w : World) :=
  mkWorld (clients w) (objects w) (fstate w) (orderbooks w) (callbacks w)
          b (fetches w) (log w).
Definition tick_fetches (w : World) :=
  mkWorld (clients w) (objects w) (fstate w) (orderbooks w) (callbacks w)
          (session w) (S (fetches w)) (log w).
Definition emit (ev : Event) (w : World) :=
  mkWorld (clients w) (objects w) (fstate w) (orderbooks w) (callbacks w)
          (session w) (fetches w) (log w ++ [ev])%list.

(** *** The client object

    Modelled from the spec: [FastClient.future], [FastClient.resolve] and
    [FastClient.reject] (the class is imported from
    [ccxt.async_support.base.ws.fast_client]) and [Future.resolve] /
    [Future.reject] (from [ccxt.async_support.base.ws.future]). The
    [futures] map holds the pending placeholder of each message hash;
    completing the Future of a hash takes it out of the map; an unknown hash
    is a no-op; a Future completes at most once. *)

(** [Future.resolve] / [Future.reject] on the object [f]. *)
Definition settle (f : nat) (s : FutState) (h : gmap nat FutState)
  : gmap nat FutState :=
  match h !! f with
  | Some Pending => <[f := s]> h
  | _ => h
  end.

Definition complete (client : nat) (messageHash : string) (s : FutState)
    (w : World) : World :=
  match objects w !! client with
  | Some c =>
      match futures c !! messageHash with
      | Some f =>
          set_objects <[client := set_futures (delete messageHash) c]>
                      (set_fstate (settle f s) w)
      | None => w
      end
  | None => w
  end.

(** [client.resolve(result, messageHash)] *)
Definition client_resolve (client : nat) (result : Value)
    (messageHash : string) (w : World) : World :=
  complete client messageHash (Resolved result)
           (emit (EvResolve client messageHash result) w).

(** [client.reject(error, messageHash)] *)
Definition client_reject (client : nat) (error : Exc)
    (messageHash : string) (w : World) : World :=
  complete client messageHash (Rejected error)
           (emit (EvReject client messageHash error) w).

(** [future.reject(error)] on a Future object held directly. *)
Definition future_reject (f : nat) (error : Exc) (w : World) : World :=
  set_fstate (settle f (Rejected error)) (emit (EvFutureReject f error) w).

(** [client.future(messageHash)]: the pending Future of the hash, or a new
    one. *)
Definition client_future (client : nat) (messageHash : string) (w : World)
  : nat * World :=
  let create c :=
    let f := fresh (dom (fstate w)) in
    (f, emit (EvNewFuture client messageHash f)
          (set_objects <[client := set_futures <[messageHash := f]> c]>
                       (set_fstate <[f := Pending]> w))) in
  match objects w !! client with
  | Some c =>
      match futures c !! messageHash with
      | Some f =>
          match fstate w !! f with
          | Some Pending => (f, w)
          | _ => create c
          end
      | None => create c
      end
  | None => (0%nat, w)
  end.

(** [client.url] *)
Definition client_url (client : nat) (w : World) : string :=
  match objects w !! client with
  | Some c => url c
  | None => ""
  end.


(** *** Order-book synchroniser *)

(** Modelled from the spec: [OrderBook.reset] (class [OrderBook] is imported
    from [ccxt.async_support.base.ws.order_book]): the book takes the
    contents of the snapshot; the delta cache is not part of a snapshot and
    stays as it is. *)
Definition reset (orderbook : OrderBook) (snapshot : Snapshot) : OrderBook :=
  mkOrderBook snapshot (cache orderbook).

(** The methods a venue overrides. [fetch_order_book] is awaited: its
    outcome for the [n]-th call is given by the environment, together with
    the deltas that the stream appended to the stored cache while the call
    was suspended. [handle_delta] mutates the book it is given and may
    raise. *)
Record Adapter := mkAdapter {
  fetch_order_book : string -> nat -> list Delta * (Exc + Snapshot);
  get_cache_index : Snapshot -> list Delta -> Z;
  handle_delta : OrderBook -> Delta -> OrderBook * option Exc
}.

(** The three methods as the base class defines them. *)
Definition base_adapter (self : Exchange) : Adapter :=
  mkAdapter
    (fun _ _ =>
       ([], inl (new NotSupported
                   (id self +:+ " fetchOrderBook() is not supported yet"))))
    (fun _ _ => -1)
    (fun bookside _ =>
       (bookside,
        Some (new NotSupported (id self +:+ " handleDelta not supported yet")))).

(** [handle_deltas(orderbook, deltas)]: returns the book as mutated, the
    deltas [handle_delta] was called on, and the exception that stopped the
    loop, if any. *)
Fixpoint handle_deltas (ad : Adapter) (orderbook : OrderBook)
    (deltas : list Delta) : OrderBook * list Delta * option Exc :=
  match deltas with
  | [] => (orderbook, [], None)
  | delta :: rest =>
      match handle_delta ad orderbook delta with
      | (ob, Some e) => (ob, [delta], Some e)
      | (ob, None) =>
          let '(ob', called, r) := handle_deltas ad ob rest in
          (ob', delta :: called, r)
      end
  end.

(** [cache[index:]] for [index >= 0]. *)
Definition slice_from {A} (index : Z) (l : list A) : list A :=
  drop (Z.to_nat index) l.

(** [self.orderbooks[symbol]] written back after a mutation of the stored
    object. *)
Definition store (symbol : string) (ob : OrderBook) (w : World) : World :=
  set_orderbooks <[symbol := ob]> w.

(** How the [while] loop of [load_order_book] ends. *)
Inductive LoopEnd :=
| LReturn (w : World)             (* the [return] after [client.resolve] *)
| LExhausted (w : World)          (* [tries < maxRetries] became false *)
| LRaise (e : Exc) (w : World)    (* an exception left the loop body *)
| LGas (w : World).               (* the model ran out of fuel *)

(** [while tries < maxRetries: ...] with [stored] the object bound before
    the loop. *)
Fixpoint attempts (ad : Adapter) (client : nat) (messageHash symbol : string)
    (maxRetries : Z) (gas : nat) (tries : Z) (stored : OrderBook) (w : World)
  : LoopEnd :=
  if (tries <? maxRetries)%Z then
    match gas with
    | O => LGas w
    | S gas' =>
        (* order_book = await self.fetch_order_book(symbol, limit, params) *)
        let '(arrived, fetched) := fetch_order_book ad symbol (fetches w) in
        let stored := mkOrderBook (ob_data stored) (cache stored ++ arrived)%list in
        let w := store symbol stored
                   (tick_fetches (emit (EvFetchOrderBook symbol (fetches w)) w)) in
        match fetched with
        | inl e => LRaise e w
        | inr order_book =>
            let index := get_cache_index ad order_book (cache stored) in
            if (0 <=? index)%Z then
              (* stored.reset(order_book) *)
              let stored := reset stored order_book in
              let w := store symbol stored (emit (EvReset symbol order_book) w) in
              (* self.handle_deltas(stored, cache[index:]) *)
              let '(stored, called, raised) :=
                handle_deltas ad stored (slice_from index (cache stored)) in
              let w := store symbol stored
                         (foldl (fun w d => emit (EvHandleDelta symbol d) w) w called) in
              match raised with
              | Some e => LRaise e w
              | None =>
                  (* cache.clear() *)
                  let stored := mkOrderBook (ob_data stored) [] in
                  let w := store symbol stored (emit (EvCacheClear symbol) w) in
                  (* client.resolve(stored, messageHash) *)
                  LReturn (client_resolve client (VBook symbol) messageHash w)
              end
            else attempts ad client messageHash symbol maxRetries gas'
                          (tries + 1) stored w
        end
    end
  else LExhausted w.

(** How a call ends. *)
Inductive Outcome :=
| Returned (w : World)
| Raised (e : Exc) (w : World)
| OutOfGas (w : World).

(** [del self.clients[client.url]] *)
Definition del_client (client : nat) (w : World) : Outcome :=
  let u := client_url client w in
  match clients w !! u with
  | Some _ => Returned (set_clients (delete u) (emit (EvDelClient u) w))
  | None => Raised (new KeyError u) w
  end.

(** [load_order_book(client, messageHash, symbol, limit, params)]. One unit
    of [gas] pays for one call; the loop of a call draws on the same
    amount. *)
Fixpoint load_order_book (self : Exchange) (ad : Adapter) (gas : nat)
    (client : nat) (messageHash symbol : string) (w : World) : Outcome :=
  match orderbooks w !! symbol with
  | None =>
      Returned
        (client_reject client
           (new ExchangeError
                (id self +:+ " loadOrderBook() orderbook is not initiated"))
           messageHash w)
  | Some stored =>
      let maxRetries := handle_option self "watchOrderBook" "maxRetries" 3 in
      match attempts ad client messageHash symbol maxRetries gas 0 stored w with
      | LReturn w' => Returned w'
      | LExhausted w' =>
          del_client client
            (client_reject client
               (new ExchangeError
                    (id self +:+ " nonce is behind cache after "
                       +:+ str maxRetries +:+ " tries."))
               messageHash w')
      | LRaise e w' =>
          if isinstance e BaseError then
            let w'' := client_reject client e messageHash w' in
            match gas with
            | O => OutOfGas w''
            | S gas' =>
                load_order_book self ad gas' client messageHash symbol w''
            end
          else Raised e w'
      | LGas w' => OutOfGas w'
      end
  end.

(** *** Subscription router *)

(** [self.client(url)]: the registered client of the url, or a new one. *)
Definition client_of (u : string) (w : World) : nat * World :=
  match clients w !! u with
  | Some client => (client, w)
  | None =>
      let client := fresh (dom (objects w)) in
      (client,
       emit (EvNewClient u client)
         (set_clients <[u := client]>
            (set_objects <[client := mkClient u ∅ ∅ false false]> w)))
  end.

(** [self.open()]: starts the session when the exchange owns it and none
    exists. *)
Definition open (self : Exchange) (w : World) : World :=
  if own_session self && negb (session w) then set_session true w else w.

(** [client.futures], [client.subscriptions.get(k)], [client.connected.done()] *)
Definition futures_of (client : nat) (w : World) : gmap string nat :=
  match objects w !! client with
  | Some c => futures c
  | None => ∅
  end.

Definition subscriptions_of (client : nat) (w : World)
  : gmap (option string) Val :=
  match objects w !! client with
  | Some c => subscriptions c
  | None => ∅
  end.

Definition subscription_get (client : nat) (k : option string) (w : World)
  : Val :=
  match objects w !! client with
  | Some c => default PNone (subscriptions c !! k)
  | None => PNone
  end.

Definition is_connected (client : nat) (w : World) : bool :=
  match objects w !! client with
  | Some c => connected_done c
  | None => false
  end.

(** The second half of [watch], from [subscribed = ...] to the end, on the
    client and the Future obtained in the first half. [registering] is the
    outcome of [connected.add_done_callback(after)]: [None] when the
    callback is registered, [Some e] when the call raises. The [except]
    clause catches an [Exception] only: any other exception leaves [watch]
    with the state as it is (see [watch_raises]). *)
Definition subscribe (self : Exchange) (registering : option Exc)
    (client future : nat) (message : Val) (subscribe_hash : option string)
    (subscription : Val) (w : World) : World :=
  let subscribed := subscription_get client subscribe_hash w in
  let w :=
    if truthy subscribed then w
    else set_objects
           (alter (set_subscriptions
                     <[subscribe_hash := or_ subscription PTrue]>) client) w in
  let w := open self w in
  (* connected = client.connected if done else ensure_future(client.connect(..)) *)
  let w := if is_connected client w then w else emit (EvConnect client) w in
  if truthy subscribed then w
  else
    let a := mkAfter client future message subscribe_hash in
    match registering with
    | None =>
        set_callbacks (fun cbs => (cbs ++ [a])%list)
                      (emit (EvAddDoneCallback a) w)
    | Some e =>
        if isinstance e Exception then
          future_reject future e
            (set_objects
               (alter (set_subscriptions (delete subscribe_hash)) client) w)
        else w
    end.

(** [watch(url, message_hash, message, subscribe_hash, subscription)] *)
Definition watch (self : Exchange) (registering : option Exc)
    (u message_hash : string) (message : Val) (subscribe_hash : option string)
    (subscription : Val) (w : World) : nat * World :=
  let '(client, w) := client_of u w in
  (* subscribe_hash is None and message_hash in client.futures *)
  let existing :=
    match subscribe_hash with
    | None => futures_of client w !! message_hash
    | Some _ => None
    end in
  match existing with
  | Some future => (future, w)
  | None =>
      let '(future, w) := client_future client message_hash w in
      (future,
       subscribe self registering client future message subscribe_hash
                 subscription w)
  end.


(** Further [watch] calls on the same url with the same subscribe key, one
    after the other; each call comes with the outcome of its
    [add_done_callback], its message hash, message and descriptor. *)
Fixpoint watch_all (self : Exchange)
    (calls : list (option Exc * string * Val * Val)) (u k : string) (w : World)
  : World :=
  match calls with
  | [] => w
  | (registering, message_hash, message, subscription) :: rest =>
      watch_all self rest u k
        (watch self registering u message_hash message (Some k) subscription w).2
  end.

(** The callback [after(fut)] and the task [send_message()] it starts.
    [sending] is the outcome of [await client.send(message)]. The result
    carries the exception the task ends with, if any (nobody awaits it). *)
Definition after (self : Exchange) (a : After) (sending : option Exc)
    (w : World) : World * option Exc :=
  let cost :=
    match options self !! "ws" with
    | Some (ODict ws) => default 1 (ws !! "cost")
    | _ => 1
    end in
  if truthy (a_message a) then
    let w := if enableRateLimit self
             then emit (EvThrottle (a_client a) cost) w else w in
    let w := emit (EvSend (a_client a) (a_message a)) w in
    match sending with
    | None => (w, None)
    | Some e =>
        if isinstance e ConnectionError then
          match objects w !! a_client a with
          | Some c =>
              match subscriptions c !! a_subscribe_hash a with
              | Some _ =>
                  (future_reject (a_future a) e
                     (set_objects
                        <[a_client a :=
                            set_subscriptions (delete (a_subscribe_hash a)) c]> w),
                   None)
              | None =>
                  (w, Some (new KeyError (default "None" (a_subscribe_hash a))))
              end
          | None => (w, None)
          end
        else (w, Some e)
    end
  else (w, None).

(** The connection future completes (with or without an exception: a done
    callback runs either way) and the loop runs every registered callback. *)
Definition fire (self : Exchange) (sending : After -> option Exc) (w : World)
  : World :=
  foldl (fun w a => (after self a (sending a) w).1)
        (set_callbacks (fun _ => []) w) (callbacks w).


(** [on_error(client, error)] and [on_close(client, error)]. *)
Definition on_error (client : nat) (w : World) : World :=
  let u := client_url client w in
  match clients w !! u with
  | Some registered =>
      match objects w !! registered with
      | Some c => if error c then set_clients (delete u) w else w
      | None => w
      end
  | None => w
  end.

Definition on_close (client : nat) (w : World) : World :=
  match objects w !! client with
  | Some c =>
      if error c then w
      else match clients w !! url c with
           | Some _ => set_clients (delete (url c)) w
           | None => w
           end
  | None => w
  end.

(** *** Shutdown *)

(** [ws_close()]. [closing] is the outcome of each [client.close()];
    [asyncio.wait(.., return_when=ALL_COMPLETED)] returns once every task is
    done and leaves a task's exception in the task. [interleaved] is what
    the callbacks that ran during the wait ([on_close], [on_error], other
    coroutines) did to the registry. *)
Definition ws_close (closing : nat -> option Exc)
    (interleaved : gmap string nat -> gmap string nat) (w : World) : World :=
  if decide (clients w = ∅) then w
  else
    let tasks := (map_to_list (clients w)).*2 in
    let w := foldl (fun w c => emit (EvCreateCloseTask c) w) w tasks in
    let w := foldl (fun w c => emit (EvCloseDone c (closing c)) w) w tasks in
    let w := set_clients interleaved w in
    foldl (fun w u => set_clients (delete u) (emit (EvDelClient u) w)) w
          (map_to_list (clients w)).*1.

(** [close()]. [session_closing] is the outcome of [self.session.close()]. *)
Definition close (self : Exchange) (closing : nat -> option Exc)
    (interleaved : gmap string nat -> gmap string nat)
    (session_closing : option Exc) (w : World) : Outcome :=
  let w := ws_close closing interleaved w in
  if session w then
    if own_session self then
      let w := emit EvSessionClose w in
      match session_closing with
      | None => Returned (set_session false w)
      | Some e => Raised e w
      end
    else Returned (set_session false w)
  else Returned w.

End Core.

Arguments OrderBook : clear implicits.
Arguments Event : clear implicits.
Arguments World : clear implicits.
Arguments Adapter : clear implicits.
Arguments LoopEnd : clear implicits.
Arguments Outcome : clear implicits.

(** ** REST fetch: the [except] clauses *)

(** What [fetch] raises when [e] leaves its [async with] block: the first
    clause whose class [e] is an instance of applies; an exception no clause
    matches propagates as it is. *)
Definition fetch_except (self : Exchange) (method url : string) (e : Exc)
  : Exc :=
  let details := join_sp [id self; method; url] in
  if isinstance e gaierror then new ExchangeNotAvailable details
  else if isinstance e FuturesTimeoutError || isinstance e AsyncioTimeoutError
  then new RequestTimeout details
  else if isinstance e ClientConnectionError
  then new ExchangeNotAvailable details
  else if isinstance e ClientError then new ExchangeError details
  else e.

(** The [try] statement of [fetch]: [request] is the outcome of the
    [async with] block, an exception or the decoded response. *)
Definition fetch_try {Response : Type} (self : Exchange) (method url : string)
    (request : Exc + Response) : Exc + Response :=
  match request with
  | inl e => inl (fetch_except self method url e)
  | inr response => inr response
  end.

(** ** A venue for the scenarios: nonces on deltas and snapshots *)

Module Venue.

(** A snapshot: its nonce and the two sides as (price, size) levels. *)
Record Snap := mkSnap {
  nonce : Z;
  bids : list (Z * Z);
  asks : list (Z * Z)
}.

(** A raw delta: nonce, side ([true] for bids), price, size. *)
Record Dlt := mkDlt {
  d_nonce : Z;
  d_bid : bool;
  d_price : Z;
  d_size : Z
}.

(** A level update: size zero removes the price level. *)
Definition set_level (price size : Z) (side : list (Z * Z)) : list (Z * Z) :=
  let others := filter (fun l => l.1 ≠ price) side in
  if (size =? 0)%Z then others else (price, size) :: others.

(** First delta whose nonce is above the snapshot's, or -1. *)
Fixpoint first_above (n : Z) (i : Z) (deltas : list Dlt) : Z :=
  match deltas with
  | [] => -1
  | d :: rest => if (n <? d_nonce d)%Z then i else first_above n (i + 1) rest
  end.

Definition apply_delta (ob : OrderBook Snap Dlt) (d : Dlt)
  : OrderBook Snap Dlt * option Exc :=
  let s := ob_data ob in
  (mkOrderBook
     (if d_bid d
      then mkSnap (d_nonce d) (set_level (d_price d) (d_size d) (bids s)) (asks s)
      else mkSnap (d_nonce d) (bids s) (set_level (d_price d) (d_size d) (asks s)))
     (cache ob),
   None).

(** A venue whose [n]-th snapshot fetch is scripted. *)
Definition adapter (script : nat -> list Dlt * (Exc + Snap))
  : Adapter Snap Dlt :=
  mkAdapter (fun _ n => script n)
            (fun snapshot deltas => first_above (nonce snapshot) 0 deltas)
            apply_delta.

End Venue.


(** ** Vocabulary of the statements *)

Section Vocabulary.

Context {Snapshot Delta : Type}.

(** The state a call leaves behind. *)
Definition world_of (o : Outcome Snapshot Delta) : World Snapshot Delta :=
  match o with
  | Returned w => w
  | Raised _ w => w
  | OutOfGas w => w
  end.

(** The call came to an end (it returned or raised) within its fuel. *)
Definition finished (o : Outcome Snapshot Delta) : bool :=
  match o with
  | OutOfGas _ => false
  | _ => true
  end.

(** The loop ended within its fuel. *)
Definition loop_done (r : LoopEnd Snapshot Delta) : bool :=
  match r with
  | LGas _ => false
  | _ => true
  end.

Definition loop_world (r : LoopEnd Snapshot Delta) : World Snapshot Delta :=
  match r with
  | LReturn w => w
  | LExhausted w => w
  | LRaise _ w => w
  | LGas w => w
  end.

Definition is_fetch (ev : Event Snapshot Delta) : bool :=
  match ev with EvFetchOrderBook _ _ => true | _ => false end.

Definition is_reject (ev : Event Snapshot Delta) : bool :=
  match ev with EvReject _ _ _ => true | _ => false end.

Definition is_send (ev : Event Snapshot Delta) : bool :=
  match ev with EvSend _ _ => true | _ => false end.

Definition count (p : Event Snapshot Delta -> bool)
    (l : list (Event Snapshot Delta)) : nat :=
  length (filter (fun ev => p ev = true) l).

(** What [load_order_book] does with the way its loop ended. *)
Definition conclude (self : Exchange) (ad : Adapter Snapshot Delta)
    (gas : nat) (client : nat) (messageHash symbol : string)
    (r : LoopEnd Snapshot Delta) : Outcome Snapshot Delta :=
  let maxRetries := handle_option self "watchOrderBook" "maxRetries" 3 in
  match r with
  | LReturn w' => Returned w'
  | LExhausted w' =>
      del_client client
        (client_reject client
           (new ExchangeError
                (id self +:+ " nonce is behind cache after "
                   +:+ str maxRetries +:+ " tries."))
           messageHash w')
  | LRaise e w' =>
      if isinstance e BaseError then
        let w'' := client_reject client e messageHash w' in
        match gas with
        | O => OutOfGas w''
        | S gas' => load_order_book self ad gas' client messageHash symbol w''
        end
      else Raised e w'
  | LGas w' => OutOfGas w'
  end.

(** [reaches .. w0 tries stored w]: a call of [load_order_book] started
    in [w0] is about to test [tries < maxRetries], with [stored] the stored
    book and [w] the state. It gets there at its start, after an attempt
    that found no join point, or through the fresh call made after an
    attempt raised a base error. *)
Inductive reaches (self : Exchange) (ad : Adapter Snapshot Delta)
    (client : nat) (messageHash symbol : string) (w0 : World Snapshot Delta)
  : Z -> OrderBook Snapshot Delta -> World Snapshot Delta -> Prop :=
| reach_start stored :
    orderbooks w0 !! symbol = Some stored ->
    reaches self ad client messageHash symbol w0 0 stored w0
| reach_behind tries stored w arrived order_book :
    reaches self ad client messageHash symbol w0 tries stored w ->
    (tries < handle_option self "watchOrderBook" "maxRetries" 3)%Z ->
    fetch_order_book ad symbol (fetches w) = (arrived, inr order_book) ->
    (get_cache_index ad order_book (cache stored ++ arrived) < 0)%Z ->
    reaches self ad client messageHash symbol w0 (tries + 1)
      (mkOrderBook (ob_data stored) (cache stored ++ arrived))
      (store symbol (mkOrderBook (ob_data stored) (cache stored ++ arrived))
         (tick_fetches (emit (EvFetchOrderBook symbol (fetches w)) w)))
| reach_raise tries stored w e w1 stored1 :
    reaches self ad client messageHash symbol w0 tries stored w ->
    attempts ad client messageHash symbol
      (handle_option self "watchOrderBook" "maxRetries" 3) 1 tries stored w
      = LRaise e w1 ->
    isinstance e BaseError = true ->
    orderbooks w1 !! symbol = Some stored1 ->
    reaches self ad client messageHash symbol w0 0 stored1
      (client_reject client e messageHash w1).

(** The registry points at live client objects that know their url. *)
Definition registry_ok (w : World Snapshot Delta) : Prop :=
  forall u c, clients w !! u = Some c ->
    exists cl, objects w !! c = Some cl /\ url cl = u.

End Vocabulary.

(** ** Scenarios *)

Module Scenario.

Import Venue.

Definition exchange : Exchange := mkExchange "venue" ∅ true true.

Definition delta (n : Z) : Dlt := mkDlt n true 100 n.

Definition buffered : list Dlt :=
  [delta 101; delta 102; delta 103; delta 104; delta 105].

Definition snapshot (n : Z) : Snap := mkSnap n [(99, 1)] [(101, 1)].

(** One connection with one waiter for the book of BTC/USDT, whose cache
    holds five buffered deltas. *)
Definition world : World Snap Dlt :=
  mkWorld {[ "wss://venue/ws" := 0%nat ]}
          {[ 0%nat := mkClient "wss://venue/ws" {[ "orderbook:BTC/USDT" := 7%nat ]}
                               ∅ true false ]}
          {[ 7%nat := Pending ]}
          {[ "BTC/USDT" := mkOrderBook (mkSnap 0 [] []) buffered ]}
          [] false 0 [].

(** The venue answers every snapshot request with nonce 103. *)
Definition resync : Adapter Snap Dlt :=
  adapter (fun _ => ([], inr (snapshot 103))).

(** The venue answers every snapshot request with nonce 200, above every
    buffered delta. *)
Definition gapped : Adapter Snap Dlt :=
  adapter (fun _ => ([], inr (snapshot 200))).

(** A venue that locates the join point but keeps the base class's
    [handle_delta]; its first snapshot has nonce 103, the later ones 200. *)
Definition unhandled : Adapter Snap Dlt :=
  mkAdapter
    (fun _ n => ([], inr (snapshot (if decide (n = 0%nat) then 103 else 200))))
    (fun snapshot deltas => first_above (nonce snapshot) 0 deltas)
    (handle_delta (base_adapter exchange)).

(** Failures of the transport, with the classes they are instances of. *)
Definition dns_failure : Exc :=
  mkExc [gaierror; OSError; Exception] "Name or service not known".
Definition server_timeout : Exc :=
  mkExc [ServerTimeoutError; ClientConnectionError; ClientError;
         AsyncioTimeoutError; Exception] "Timeout on reading data from socket".
Definition connection_refused : Exc :=
  mkExc [ClientOSError; ClientConnectionError; ClientError; OSError; Exception]
        "Cannot connect to host".
Definition bad_payload : Exc :=
  mkExc [ClientResponseError; ClientError; Exception] "Response payload is not completed".
Definition connection_reset : Exc :=
  new ConnectionError "Cannot write to closing transport".

End Scenario.

(** ** More of the order-book code *)

Section MoreSynchroniser.

Context {Snapshot Delta : Type}.

(** [await self.fetch_order_book(symbol, limit, params)] outside
    [load_order_book]: the call is counted and logged, and the deltas the
    stream delivered meanwhile are appended to the cache of the symbol's
    book, if there is one. *)
Definition await_fetch (ad : Adapter Snapshot Delta) (symbol : string)
    (w : World Snapshot Delta) : World Snapshot Delta * (Exc + Snapshot) :=
  let '(arrived, fetched) := fetch_order_book ad symbol (fetches w) in
  (set_orderbooks
     (alter (fun ob => mkOrderBook (ob_data ob) (cache ob ++ arrived)%list) symbol)
     (tick_fetches (emit (EvFetchOrderBook symbol (fetches w)) w)),
   fetched).

(** [for i in range(0, fetchSnapshotMaxRetries): try: ... except Exception]
    of [fetch_rest_order_book_safe]; [todo] counts the iterations left. The
    result is the exception raised, or the value returned ([None] when the
    loop runs out). *)
Fixpoint safe_attempts (ad : Adapter Snapshot Delta) (symbol : string)
    (fetchSnapshotMaxRetries : Z) (todo : nat) (i : Z)
    (w : World Snapshot Delta)
  : World Snapshot Delta * (Exc + option Snapshot) :=
  match todo with
  | O => (w, inr None)
  | S todo' =>
      let '(w, fetched) := await_fetch ad symbol w in
      match fetched with
      | inr orderBook => (w, inr (Some orderBook))
      | inl e =>
          if isinstance e Exception then
            if (i + 1 =? fetchSnapshotMaxRetries)%Z then (w, inl e)
            else safe_attempts ad symbol fetchSnapshotMaxRetries todo' (i + 1) w
          else (w, inl e)
      end
  end.

(** [fetch_rest_order_book_safe(symbol, limit, params)]; [self.handleOption]
    is the camel-case name of [handle_option]. *)
Definition fetch_rest_order_book_safe (self : Exchange)
    (ad : Adapter Snapshot Delta) (symbol : string) (w : World Snapshot Delta)
  : World Snapshot Delta * (Exc + option Snapshot) :=
  let fetchSnapshotMaxRetries :=
    handle_option self "watchOrderBook" "maxRetries" 3 in
  safe_attempts ad symbol fetchSnapshotMaxRetries
                (Z.to_nat fetchSnapshotMaxRetries) 0 w.

(** The [n]-th fetch raises something an [except Exception] catches. *)
Definition fetch_fails (ad : Adapter Snapshot Delta) (symbol : string)
    (n : nat) : Prop :=
  exists arrived e, fetch_order_book ad symbol n = (arrived, inl e)
                    /\ isinstance e Exception = true.

(** [touches_only client messageHash symbol w w']: from [w] to [w'] nothing
    changed except, possibly, the book of [symbol], the Future registered
    under [messageHash] on [client] (completed and taken out of the map),
    the registry entry of that client's url (deleted), the fetch counter and
    the log. *)
Definition touches_only (client : nat) (messageHash symbol : string)
    (w w' : World Snapshot Delta) : Prop :=
  (forall s, s <> symbol -> orderbooks w' !! s = orderbooks w !! s)
  /\ (forall u, u <> client_url client w -> clients w' !! u = clients w !! u)
  /\ (forall u, clients w !! u = None -> clients w' !! u = None)
  /\ (forall c, c <> client -> objects w' !! c = objects w !! c)
  /\ client_url client w' = client_url client w
  /\ subscriptions_of client w' = subscriptions_of client w
  /\ (forall mh, mh <> messageHash ->
        futures_of client w' !! mh = futures_of client w !! mh)
  /\ (futures_of client w' !! messageHash = None
      \/ futures_of client w' !! messageHash
         = futures_of client w !! messageHash)
  /\ (forall f, futures_of client w !! messageHash <> Some f ->
        fstate w' !! f = fstate w !! f)
  /\ callbacks w' = callbacks w
  /\ session w' = session w.

End MoreSynchroniser.

(** ** More of the router *)

Section MoreRouter.

Context {Snapshot Delta : Type}.

(** Every Future a client holds under a message hash is a live object, and
    no Future object is held twice (under two hashes or by two clients). *)
Definition futures_ok (w : World Snapshot Delta) : Prop :=
  (forall c cl mh f, objects w !! c = Some cl -> futures cl !! mh = Some f ->
     is_Some (fstate w !! f))
  /\ (forall c1 cl1 mh1 c2 cl2 mh2 f,
        objects w !! c1 = Some cl1 -> futures cl1 !! mh1 = Some f ->
        objects w !! c2 = Some cl2 -> futures cl2 !! mh2 = Some f ->
        c1 = c2 /\ mh1 = mh2).

End MoreRouter.

(** ** Proxy settings *)

Module Proxy.

(** A proxy callback, called with [url, method, headers, body]. *)
Definition Callback : Type :=
  string → string → list (string * string) → option string → option string.

(** The proxy attributes of the exchange object, in both spellings.
    [proxy] is the attribute kept for backwards compatibility: a callable
    or a value. *)
Record Settings := mkSettings {
  proxyUrl : option string;
  proxy_url : option string;
  proxyUrlCallback : option Callback;
  proxy_url_callback : option Callback;
  proxy : option (Callback + string);
  httpProxy : option string;
  http_proxy : option string;
  httpProxyCallback : option Callback;
  http_proxy_callback : option Callback;
  httpsProxy : option string;
  https_proxy : option string;
  httpsProxyCallback : option Callback;
  https_proxy_callback : option Callback;
  socksProxy : option string;
  socks_proxy : option string;
  socksProxyCallback : option Callback;
  socks_proxy_callback : option Callback
}.

(** [a if (a is not None) else b] *)
Definition if_not_None {A} (a b : option A) : option A :=
  match a with
  | Some _ => a
  | None => b
  end.

(** [val + 1] when the setting is not [None]. *)
Definition counted {A} (setting : option A) (val : Z) : Z :=
  match setting with
  | Some _ => val + 1
  | None => val
  end.

(** [check_proxy_settings(url, method, headers, body)] *)
Definition check_proxy_settings (self : Exchange) (cfg : Settings)
    (url method : string) (headers : list (string * string))
    (body : option string) : Exc + list (option string) :=
  let proxyUrl := if_not_None (proxyUrl cfg) (proxy_url cfg) in
  let proxyUrlCallback :=
    if_not_None (proxyUrlCallback cfg) (proxy_url_callback cfg) in
  let proxyUrl :=
    match proxyUrlCallback with
    | Some callback => callback url method headers body
    | None => proxyUrl
    end in
  let proxyUrl :=
    match proxy cfg with
    | Some (inl callable) => callable url method headers body
    | Some (inr value) => Some value
    | None => proxyUrl
    end in
  let httpProxy := if_not_None (httpProxy cfg) (http_proxy cfg) in
  let httpProxyCallback :=
    if_not_None (httpProxyCallback cfg) (http_proxy_callback cfg) in
  let httpProxy :=
    match httpProxyCallback with
    | Some callback => callback url method headers body
    | None => httpProxy
    end in
  let httpsProxy := if_not_None (httpsProxy cfg) (https_proxy cfg) in
  let httpsProxyCallback :=
    if_not_None (httpsProxyCallback cfg) (https_proxy_callback cfg) in
  let httpsProxy :=
    match httpsProxyCallback with
    | Some callback => callback url method headers body
    | None => httpsProxy
    end in
  let socksProxy := if_not_None (socksProxy cfg) (socks_proxy cfg) in
  let socksProxyCallback :=
    if_not_None (socksProxyCallback cfg) (socks_proxy_callback cfg) in
  let socksProxy :=
    match socksProxyCallback with
    | Some callback => callback url method headers body
    | None => socksProxy
    end in
  let val := 0 in
  let val := counted proxyUrl val in
  let val := counted proxyUrlCallback val in
  let val := counted httpProxy val in
  let val := counted httpProxyCallback val in
  let val := counted httpsProxy val in
  let val := counted httpsProxyCallback val in
  let val := counted socksProxy val in
  let val := counted socksProxyCallback val in
  if (1 <? val)%Z then
    inl (new ExchangeError
           (id self +:+ " you have multiple conflicting proxy settings, please use only one from : proxyUrl, httpProxy, httpsProxy, socksProxy, userAgent"))
  else inr [proxyUrl; httpProxy; httpsProxy; socksProxy].

(** [a, b, c = values]: the assignment to three names, or the message of
    the [ValueError] it raises. *)
Definition unpack3 {A} (values : list A) : string + (A * A * A) :=
  match values with
  | [a; b; c] => inr (a, b, c)
  | _ =>
      if (length values <? 3)%nat
      then inl ("not enough values to unpack (expected 3, got "
                +:+ pretty (length values) +:+ ")")
      else inl "too many values to unpack (expected 3)"
  end.

(** How the proxy part of [fetch] ends. *)
Inductive FetchStart :=
| Conflict (e : Exc)              (* [check_proxy_settings] raised *)
| ValueError (msg : string)       (* the assignment to the three names raised *)
| Agents (httpProxy httpsProxy socksProxy : option string).

(** [fetch], from [if proxyUrl is not None] to the assignment
    [httpProxy, httpsProxy, socksProxy = self.check_proxy_settings(..)].
    [proxyUrl] is what [check_proxy_url_settings], a method of the parent
    class, returned. *)
Definition fetch_proxy_agents (self : Exchange) (cfg : Settings)
    (proxyUrl : option string) (url method : string)
    (headers : list (string * string)) (body : option string) : FetchStart :=
  let url :=
    match proxyUrl with
    | Some proxyUrl => proxyUrl +:+ url
    | None => url
    end in
  match check_proxy_settings self cfg url method headers body with
  | inl e => Conflict e
  | inr values =>
      match unpack3 values with
      | inl msg => ValueError msg
      | inr (httpProxy, httpsProxy, socksProxy) =>
          Agents httpProxy httpsProxy socksProxy
      end
  end.

(** Some proxy callback is set, in either spelling. *)
Definition has_callback (cfg : Settings) : bool :=
  bool_decide (is_Some (proxyUrlCallback cfg)) || bool_decide (is_Some (proxy_url_callback cfg))
  || bool_decide (is_Some (httpProxyCallback cfg)) || bool_decide (is_Some (http_proxy_callback cfg))
  || bool_decide (is_Some (httpsProxyCallback cfg)) || bool_decide (is_Some (https_proxy_callback cfg))
  || bool_decide (is_Some (socksProxyCallback cfg)) || bool_decide (is_Some (socks_proxy_callback cfg)).

(** How many of the entries are not [None]. *)
Definition chosen (values : list (option string)) : nat :=
  length (filter (fun v => is_Some v) values).

End Proxy.

(** ** Sandbox urls *)

(** A value of [self.urls]: a string or a dict of strings. *)
Inductive UrlVal :=
| UStr (s : string)
| UDict (d : gmap string string).

#[global] Instance UrlVal_eq_dec : EqDecision UrlVal.
Proof. solve_decision. Defined.

(** [isinstance(v, str)] *)
Definition is_str (v : UrlVal) : bool :=
  match v with
  | UStr _ => true
  | UDict _ => false
  end.

Section SandboxUrls.

(** [self.clone], a method of the parent class that is not part of the
    source: it gives a copy of its argument or raises. *)
Variable clone : UrlVal -> Exc + UrlVal.

(** What the sandbox theorems ask of [clone]: a dict is copied. Nothing is
    asked of it on a string. *)
Definition copies_dicts : Prop := forall d, clone (UDict d) = inr (UDict d).

(** [set_sandbox_mode(enabled)] on [self.urls]: [self.urls] as the call
    leaves it, and the exception raised, if any. *)
Definition set_sandbox_mode (self : Exchange) (enabled : bool)
    (urls : gmap string UrlVal) : gmap string UrlVal * option Exc :=
  if enabled then
    match urls !! "test" with
    | Some test =>
        match urls !! "api" with
        | Some api =>
            if is_str api then
              (<["api" := test]> (<["apiBackup" := api]> urls), None)
            else
              match clone api with
              | inl e => (urls, Some e)
              | inr apiBackup =>
                  let urls := <["apiBackup" := apiBackup]> urls in
                  match clone test with
                  | inl e => (urls, Some e)
                  | inr test => (<["api" := test]> urls, None)
                  end
              end
        | None => (urls, Some (new KeyError "api"))
        end
    | None =>
        (urls, Some (new NotSupported (id self +:+ " does not have a sandbox URL")))
    end
  else
    match urls !! "apiBackup" with
    | Some apiBackup =>
        match urls !! "api" with
        | Some api =>
            if is_str api then
              (* newUrls = self.omit(self.urls, 'apiBackup') *)
              (delete "apiBackup" (<["api" := apiBackup]> urls), None)
            else
              match clone apiBackup with
              | inl e => (urls, Some e)
              | inr apiBackup =>
                  (delete "apiBackup" (<["api" := apiBackup]> urls), None)
              end
        | None => (urls, Some (new KeyError "api"))
        end
    | None => (urls, None)
    end.

End SandboxUrls.

(** ** Loading the markets once *)

Section Loading.

Context {Markets : Type}.

(** [self.markets_loading] (the task, by identity, or [None]),
    [self.reloading_markets], and the number of tasks created so far (a new
    task takes it as its identity). *)
Record Loader := mkLoader {
  markets_loading : option nat;
  reloading_markets : bool;
  tasks : nat
}.

(** [load_markets(reload, params)] up to its [await]: the task the call
    awaits and the state it leaves while it waits. *)
Definition load_markets_enter (reload : bool) (st : Loader)
  : option nat * Loader :=
  let st :=
    if (reload && negb (reloading_markets st))
       || negb (bool_decide (is_Some (markets_loading st)))
    then mkLoader (Some (tasks st)) true (S (tasks st))
    else st in
  (markets_loading st, st).

(** [load_markets] from the [await] on: [outcome] is what the awaited task
    ended with. *)
Definition load_markets_leave (outcome : Exc + Markets) (st : Loader)
  : Loader * (Exc + Markets) :=
  match outcome with
  | inl e =>
      if isinstance e Exception
      then (mkLoader None false (tasks st), inl e)
      else (st, inl e)
  | inr result => (mkLoader (markets_loading st) false (tasks st), inr result)
  end.

(** Calls that arrive one after the other while the awaited task is still
    running: the task each one awaits. *)
Fixpoint load_markets_enter_all (reloads : list bool) (st : Loader)
  : list (option nat) * Loader :=
  match reloads with
  | [] => ([], st)
  | reload :: rest =>
      let '(task, st) := load_markets_enter reload st in
      let '(awaited, st) := load_markets_enter_all rest st in
      (task :: awaited, st)
  end.

(** One call from start to end, nothing else running in between.
    [outcome] gives the result of each task. *)
Definition load_markets (outcome : nat → Exc + Markets) (reload : bool)
    (st : Loader) : Loader * (Exc + Markets) :=
  let '(task, st) := load_markets_enter reload st in
  match task with
  | Some task => load_markets_leave (outcome task) st
  | None => (st, inl (new TypeError "object NoneType can't be used in 'await' expression"))
  end.

End Loading.

(** ** Dicts whose order matters *)

Module Dict.

(** A dict with string keys, as the list of its items in insertion order;
    the keys of a dict are distinct. *)
Definition t (V : Type) : Type := list (string * V).

(** [list(d.keys())] *)
Definition keys {V} (d : t V) : list string := d.*1.

(** [d[key]], [None] standing for the [KeyError]. *)
Fixpoint get {V} (d : t V) (key : string) : option V :=
  match d with
  | [] => None
  | (k, v) :: rest => if decide (k = key) then Some v else get rest key
  end.

(** [d[key] = value]: a key that is there keeps its place. *)
Fixpoint set {V} (key : string) (value : V) (d : t V) : t V :=
  match d with
  | [] => [(key, value)]
  | (k, v) :: rest =>
      if decide (k = key) then (k, value) :: rest
      else (k, v) :: set key value rest
  end.

End Dict.

(** [s.find(sub)]: the lowest index at which [sub] occurs in [s], or -1. *)
Definition find (s sub : string) : Z :=
  match String.index 0 sub s with
  | Some i => Z.of_nat i
  | None => -1
  end.

(** The loop of [find_timeframe] over the keys that are left. *)
Fixpoint find_timeframe_loop (keys : list string) (timeframes : Dict.t string)
    (timeframe : string) : option string :=
  match keys with
  | [] => None
  | key :: keys =>
      if decide (Dict.get timeframes key = Some timeframe) then Some key
      else find_timeframe_loop keys timeframes timeframe
  end.

(** [find_timeframe(timeframe, timeframes)]; [self_timeframes] is
    [self.timeframes]. *)
Definition find_timeframe (self_timeframes : Dict.t string)
    (timeframe : string) (timeframes : option (Dict.t string))
  : option string :=
  let timeframes := default self_timeframes timeframes in
  find_timeframe_loop (Dict.keys timeframes) timeframes timeframe.

(** The loop of [invert_flat_string_dictionary] over the keys that are
    left. *)
Fixpoint invert_loop (keys : list string) (dict : Dict.t Val)
    (reversed : Dict.t string) : Dict.t string :=
  match keys with
  | [] => reversed
  | key :: keys =>
      match Dict.get dict key with
      | Some (PStr value) => invert_loop keys dict (Dict.set value key reversed)
      | _ => invert_loop keys dict reversed
      end
  end.

(** [invert_flat_string_dictionary(dict)] *)
Definition invert_flat_string_dictionary (dict : Dict.t Val) : Dict.t string :=
  invert_loop (Dict.keys dict) dict [].

(** The loop of [find_broadly_matched_key] over the keys that are left. *)
Fixpoint find_broadly_loop (keys : list String.string)
    (string : option String.string) : option String.string :=
  match keys with
  | [] => None
  | key :: keys =>
      match string with
      | Some s =>
          if (0 <=? find s key)%Z then Some key
          else find_broadly_loop keys string
      | None => find_broadly_loop keys string
      end
  end.

(** [find_broadly_matched_key(broad, string)] *)
Definition find_broadly_matched_key (broad : Dict.t Class)
    (string : option String.string) : option String.string :=
  find_broadly_loop (Dict.keys broad) string.

(** [throw_broadly_matched_exception(broad, string, message)]: the
    exception raised, or [None] when the call returns. *)
Definition throw_broadly_matched_exception (broad : Dict.t Class)
    (string : option String.string) (message : String.string) : option Exc :=
  match find_broadly_matched_key broad string with
  | Some broadKey =>
      match Dict.get broad broadKey with
      | Some cls => Some (new cls message)
      | None => Some (new KeyError broadKey)
      end
  | None => None
  end.

(** [sub] occurs in [s]. *)
Definition occurs (sub s : string) : Prop :=
  ∃ before after, s = before +:+ sub +:+ after.

(** A dict of strings as a dict of values, and with keys and values
    swapped. *)
Definition strings (d : Dict.t string) : Dict.t Val :=
  (fun kv => (kv.1, PStr kv.2)) <$> d.

Definition swapped (d : Dict.t string) : Dict.t string :=
  (fun kv => (kv.2, kv.1)) <$> d.

(** ** Options and [params] *)

(** [self.omit(params, keys)] *)
Definition omit (params : gmap string Z) (keys : list string)
  : gmap string Z :=
  foldr delete params keys.

(** [handle_option_and_params(params, methodName, optionName,
    defaultValue)] on numeric options, as [handle_option] above. *)
Definition handle_option_and_params (self : Exchange) (params : gmap string Z)
    (methodName optionName : string) (defaultValue : Z)
  : Z * gmap string Z :=
  let defaultOptionName := "default" +:+ capitalize optionName in
  let value := safe_value_2_int params optionName defaultOptionName in
  match value with
  | Some value => (value, omit params [optionName; defaultOptionName])
  | None =>
      let exchangeWideMethodOptions := options self !! methodName in
      let value :=
        match exchangeWideMethodOptions with
        | Some (ODict exchangeWideMethodOptions) =>
            safe_value_2_int exchangeWideMethodOptions optionName
                             defaultOptionName
        | _ => None
        end in
      let value :=
        match value with
        | Some v => Some v
        | None =>
            match safe_value_2_top (options self) optionName
                                   defaultOptionName with
            | Some (OInt z) => Some z
            | _ => None
            end
        end in
      (default defaultValue value, params)
  end.

(** ** The recursion limit of the interpreter *)

Section Recursion.

Context {Snapshot Delta : Type}.

(** [RecursionError], which the interpreter raises when a call would go
    beyond its recursion limit: a [RuntimeError], so an [Exception], and
    none of the classes the source names. *)
Definition recursion_error : Exc :=
  mkExc [Exception] "maximum recursion depth exceeded".

(** [load_order_book] under the recursion limit of the interpreter. The
    retry of the [except BaseError] clause is a call of [load_order_book]
    awaited inside the handler, so each cycle runs one call deeper than the
    one before. [depth] is the number of nested calls the interpreter still
    allows: when none is left the nested call raises [RecursionError], inside
    the handler, where no clause catches it. The loop of one call ends
    within [maxRetries] iterations, which is the fuel it is given. *)
Fixpoint load_order_book_within (self : Exchange)
    (ad : Adapter Snapshot Delta) (depth : nat) (client : nat)
    (messageHash symbol : string) (w : World Snapshot Delta)
  : Outcome Snapshot Delta :=
  match orderbooks w !! symbol with
  | None =>
      Returned
        (client_reject client
           (new ExchangeError
                (id self +:+ " loadOrderBook() orderbook is not initiated"))
           messageHash w)
  | Some stored =>
      let maxRetries := handle_option self "watchOrderBook" "maxRetries" 3 in
      match attempts ad client messageHash symbol maxRetries
                     (Z.to_nat maxRetries) 0 stored w with
      | LReturn w' => Returned w'
      | LExhausted w' =>
          del_client client
            (client_reject client
               (new ExchangeError
                    (id self +:+ " nonce is behind cache after "
                       +:+ str maxRetries +:+ " tries."))
               messageHash w')
      | LRaise e w' =>
          if isinstance e BaseError then
            let w'' := client_reject client e messageHash w' in
            match depth with
            | O => Raised recursion_error w''
            | S depth' =>
                load_order_book_within self ad depth' client messageHash
                                       symbol w''
            end
          else Raised e w'
      | LGas w' => OutOfGas w'
      end
  end.

(** Every snapshot fetch of the venue raises a [BaseError]. *)
Definition every_fetch_fails (ad : Adapter Snapshot Delta) (symbol : string)
  : Prop :=
  forall n, exists arrived e,
    fetch_order_book ad symbol n = (arrived, inl e)
    /\ isinstance e BaseError = true.

End Recursion.

(** ** More scenarios *)

Module Cases.

Import Venue Scenario Proxy.

(** The REST endpoint of the venue times out twice, then answers. *)
Definition request_timeout : Exc :=
  new RequestTimeout "venue GET https://venue/depth".

Definition flaky : Adapter Snap Dlt :=
  adapter (fun n => if decide (n < 2)%nat then ([], inl request_timeout)
                    else ([], inr (snapshot 103))).

(** The REST endpoint is down: timeouts, and at the third request the
    venue is reported as not available. *)
Definition not_available : Exc :=
  new ExchangeNotAvailable "venue GET https://venue/depth".

Definition down : Adapter Snap Dlt :=
  adapter (fun n => if decide (n < 2)%nat then ([], inl request_timeout)
                    else ([], inl not_available)).

(** A venue whose [handle_delta] has a programming error. *)
Definition broken_delta : Exc :=
  new TypeError "unsupported operand type(s) for +: 'int' and 'str'".

Definition faulty : Adapter Snap Dlt :=
  mkAdapter (fun _ _ => ([], inr (snapshot 103)))
            (fun snapshot deltas => first_above (nonce snapshot) 0 deltas)
            (fun ob _ => (ob, Some broken_delta)).

(** The world of the scenarios after the connection was taken out of the
    registry. *)
Definition orphaned : World Snap Dlt :=
  set_clients (fun _ => ∅) world.

(** Urls of a venue with a testnet. *)
Definition urls : gmap string UrlVal :=
  {[ "api" := UStr "https://api.venue.com";
     "test" := UStr "https://testnet.venue.com" ]}.

(** A fresh exchange object: no markets task yet. *)
Definition fresh_loader : Loader := mkLoader None false 0.

(** The first markets request fails, the later ones succeed. *)
Definition markets_after_failure : nat → Exc + list string :=
  fun task => if decide (task = 0%nat) then inl not_available
              else inr ["BTC/USDT"; "ETH/USDT"].

(** The markets task is cancelled. *)
Definition cancelled : Exc := mkExc [] "CancelledError".


(** [ValueError], an [Exception] that is none of the classes the source
    names, with the message of [dict.update] on a string. *)
Definition value_error : Exc :=
  mkExc [Exception]
        "dictionary update sequence element #0 has length 1; 2 is required".

(** An instance of the parameter [clone] for the scenarios, as
    [dict.update] would have it: a dict is copied (values carry no identity
    here), the empty string gives the empty dict, and any other string
    raises [ValueError]. *)
Definition clone (v : UrlVal) : Exc + UrlVal :=
  match v with
  | UDict d => inr (UDict d)
  | UStr s => if decide (s = "") then inr (UDict ∅) else inl value_error
  end.

(** Urls of a venue whose live endpoints are a dict and whose testnet is
    one string, and the other way round. *)
Definition urls_dict_api : gmap string UrlVal :=
  {[ "api" := UDict {[ "public" := "https://api.venue.com/public" ]};
     "test" := UStr "https://testnet.venue.com" ]}.

Definition urls_dict_test : gmap string UrlVal :=
  {[ "api" := UStr "https://api.venue.com";
     "test" := UDict {[ "public" := "https://testnet.venue.com/public" ]} ]}.

(** Network names and the currency codes they stand for. *)
Definition networks : Dict.t string :=
  [("ERC20", "ETH"); ("TRC20", "TRX"); ("BEP20", "BNB")].

End Cases.
(** * Properties *)

(** ** Option lookup *)

Example capitalize_maxRetries : capitalize "maxRetries" = "MaxRetries".
Proof. reflexivity. Qed.

(** Without any option set, [maxRetries] is the default 3. *)
Lemma maxRetries_default (self : Exchange) :
  options self = ∅ → handle_option self "watchOrderBook" "maxRetries" 3 = 3%Z.
Proof. unfold handle_option, safe_value_2_top. intros ->. by rewrite !lookup_empty. Qed.

Example maxRetries_of_method :
  handle_option
    (mkExchange "venue"
       {[ "watchOrderBook" := ODict {[ "maxRetries" := 5%Z ]};
          "maxRetries" := OInt 7 ]} true true)
    "watchOrderBook" "maxRetries" 3 = 5%Z.
Proof. vm_compute. reflexivity. Qed.

Example maxRetries_exchange_wide :
  handle_option
    (mkExchange "venue" {[ "defaultMaxRetries" := OInt 7 ]} true true)
    "watchOrderBook" "maxRetries" 3 = 7%Z.
Proof. vm_compute. reflexivity. Qed.

Section Frames.

Context {Snapshot Delta : Type}.
Implicit Types (w : World Snapshot Delta) (ad : Adapter Snapshot Delta).

(** What completing a future leaves alone. *)
Lemma complete_frame client mh s w :
  clients (complete client mh s w) = clients w
  ∧ orderbooks (complete client mh s w) = orderbooks w
  ∧ callbacks (complete client mh s w) = callbacks w
  ∧ session (complete client mh s w) = session w
  ∧ fetches (complete client mh s w) = fetches w
  ∧ log (complete client mh s w) = log w.
Proof. unfold complete. repeat case_match; done. Qed.

Lemma client_reject_log client e mh w :
  log (client_reject client e mh w) = (log w ++ [EvReject client mh e])%list.
Proof. unfold client_reject. by rewrite (proj2 (proj2 (proj2 (proj2 (proj2 (complete_frame _ _ _ _)))))). Qed.

Lemma client_resolve_log client v mh w :
  log (client_resolve client v mh w) = (log w ++ [EvResolve client mh v])%list.
Proof. unfold client_resolve. by rewrite (proj2 (proj2 (proj2 (proj2 (proj2 (complete_frame _ _ _ _)))))). Qed.

Lemma client_reject_frame client e mh w :
  clients (client_reject client e mh w) = clients w
  ∧ orderbooks (client_reject client e mh w) = orderbooks w
  ∧ callbacks (client_reject client e mh w) = callbacks w
  ∧ session (client_reject client e mh w) = session w
  ∧ fetches (client_reject client e mh w) = fetches w.
Proof.
  unfold client_reject.
  destruct (complete_frame client mh (Rejected e) (emit (EvReject client mh e) w))
    as (-> & -> & -> & -> & -> & _).
  done.
Qed.

Lemma client_resolve_frame client v mh w :
  clients (client_resolve client v mh w) = clients w
  ∧ orderbooks (client_resolve client v mh w) = orderbooks w
  ∧ callbacks (client_resolve client v mh w) = callbacks w
  ∧ session (client_resolve client v mh w) = session w
  ∧ fetches (client_resolve client v mh w) = fetches w.
Proof.
  unfold client_resolve.
  destruct (complete_frame client mh (Resolved v) (emit (EvResolve client mh v) w))
    as (-> & -> & -> & -> & -> & _).
  done.
Qed.

(** Completing the future of a hash: a pending waiter gets the result, and
    the hash leaves the map. *)
Lemma complete_waiter client mh s w f :
  futures_of client w !! mh = Some f →
  fstate w !! f = Some Pending →
  fstate (complete client mh s w) !! f = Some s
  ∧ futures_of client (complete client mh s w) !! mh = None.
Proof.
  unfold futures_of, complete. intros Hf Hp.
  destruct (objects w !! client) as [c|] eqn:Hc; [|by rewrite lookup_empty in Hf].
  rewrite Hf. simpl. unfold settle. rewrite Hp.
  rewrite !lookup_insert_eq. simpl. by rewrite lookup_delete_eq.
Qed.

(** An unknown hash is a no-op. *)
Lemma complete_unknown client mh s w :
  futures_of client w !! mh = None → complete client mh s w = w.
Proof.
  unfold futures_of, complete. intros Hf.
  destruct (objects w !! client) as [c|]; [|done]. by rewrite Hf.
Qed.

Lemma foldl_emit_log {A} (ev : A → Event Snapshot Delta) (l : list A) w :
  log (foldl (fun w x => emit (ev x) w) w l) = (log w ++ map ev l)%list.
Proof.
  revert w. induction l as [|x l IH]; intros w; simpl.
  - by rewrite app_nil_r.
  - rewrite IH. simpl. by rewrite <- app_assoc.
Qed.

Lemma foldl_emit_frame {A} (ev : A → Event Snapshot Delta) (l : list A) w :
  let w' := foldl (fun w x => emit (ev x) w) w l in
  clients w' = clients w ∧ objects w' = objects w ∧ fstate w' = fstate w
  ∧ orderbooks w' = orderbooks w ∧ callbacks w' = callbacks w
  ∧ session w' = session w ∧ fetches w' = fetches w.
Proof.
  revert w. induction l as [|x l IH]; intros w; simpl; [done|].
  destruct (IH (emit (ev x) w)) as (-> & -> & -> & -> & -> & -> & ->). done.
Qed.

(** Messages of errors: a common prefix cancels. *)
Lemma append_cancel (p a b : string) : p +:+ a = p +:+ b → a = b.
Proof. induction p as [|c p IH]; simpl; [done|]. intros [= H]. by apply IH. Qed.

(** The details [fetch] puts in its errors, [id method url], never read like
    the nonce-gap message when the method does not start with an n (no HTTP
    verb does). *)
Lemma details_not_nonce_gap (self : Exchange) (method url rest : string) :
  String.get 0 method ≠ Some "n"%char →
  join_sp [id self; method; url] ≠ id self +:+ " nonce" +:+ rest.
Proof.
  intros Hm Heq. simpl in Heq. apply append_cancel in Heq.
  destruct method as [|c method]; simpl in *; [discriminate|].
  injection Heq as Hc _. by subst c.
Qed.

End Frames.

(** ** The router: one [watch] call, step by step *)

Section Router.

Context {Snapshot Delta : Type}.
Implicit Types (w : World Snapshot Delta).

Lemma count_app (p : Event Snapshot Delta → bool) l1 l2 :
  count p (l1 ++ l2) = (count p l1 + count p l2)%nat.
Proof. unfold count. by rewrite filter_app, length_app. Qed.

Lemma count_snoc (p : Event Snapshot Delta → bool) l ev :
  count p (l ++ [ev]) = (count p l + if p ev then 1 else 0)%nat.
Proof.
  rewrite count_app. f_equal. unfold count. destruct (p ev) eqn:H.
  - by rewrite filter_cons_True.
  - rewrite filter_cons_False; [done|]. by rewrite H.
Qed.

Lemma count_single (p : Event Snapshot Delta → bool) ev :
  count p [ev] = if p ev then 1%nat else 0%nat.
Proof. by rewrite <- (app_nil_l [ev]), count_snoc. Qed.

Lemma count_emits {A} (p : Event Snapshot Delta → bool)
    (ev : A → Event Snapshot Delta) (l : list A) :
  (∀ x, p (ev x) = false) → count p (map ev l) = 0%nat.
Proof.
  intros H. unfold count. induction l as [|x l IH]; [done|]. simpl.
  rewrite filter_cons_False; [done|]. by rewrite H.
Qed.

Lemma or_True_truthy v : truthy (or_ v PTrue) = true.
Proof. unfold or_. by destruct (truthy v) eqn:H. Qed.

Lemma client_of_registered u c w :
  clients w !! u = Some c → client_of u w = (c, w).
Proof. unfold client_of. by intros ->. Qed.

Lemma client_of_new u w :
  clients w !! u = None →
  client_of u w =
    (fresh (dom (objects w)),
     emit (EvNewClient u (fresh (dom (objects w))))
       (set_clients <[u := fresh (dom (objects w))]>
          (set_objects
             <[fresh (dom (objects w)) := mkClient u ∅ ∅ false false]> w))).
Proof. unfold client_of. by intros ->. Qed.

(** [client.future]: the Future handed out is pending and registered under
    the hash; nothing else of the client changes. *)
Lemma client_future_spec c mh w cl :
  objects w !! c = Some cl →
  ∃ f fs,
    client_future c mh w = (f, (client_future c mh w).2)
    ∧ (client_future c mh w).1 = f
    ∧ fstate (client_future c mh w).2 !! f = Some Pending
    ∧ objects (client_future c mh w).2 = <[c := mkClient (url cl) fs (subscriptions cl) (connected_done cl) (error cl)]> (objects w)
    ∧ fs !! mh = Some f
    ∧ clients (client_future c mh w).2 = clients w
    ∧ callbacks (client_future c mh w).2 = callbacks w
    ∧ session (client_future c mh w).2 = session w
    ∧ count is_send (log (client_future c mh w).2) = count is_send (log w).
Proof.
  intros Hc. unfold client_future. rewrite Hc.
  assert (Hcreate :
    let f := fresh (dom (fstate w)) in
    let w1 := emit (EvNewFuture c mh f)
                (set_objects <[c := set_futures <[mh := f]> cl]>
                   (set_fstate <[f := Pending]> w)) in
    fstate w1 !! f = Some Pending
    ∧ objects w1 = <[c := mkClient (url cl) (<[mh := f]> (futures cl)) (subscriptions cl) (connected_done cl) (error cl)]> (objects w)
    ∧ <[mh := f]> (futures cl) !! mh = Some f
    ∧ clients w1 = clients w ∧ callbacks w1 = callbacks w ∧ session w1 = session w
    ∧ count is_send (log w1) = count is_send (log w)).
  { simpl. rewrite !lookup_insert_eq. repeat split; try done.
    rewrite count_snoc. simpl. lia. }
  destruct (futures cl !! mh) as [f|] eqn:Hf.
  - destruct (fstate w !! f) as [[| |]|] eqn:Hp;
      try (eexists _, _; split; [reflexivity|split; [reflexivity|exact Hcreate]]).
    exists f, (futures cl). simpl. repeat split; try done.
    rewrite insert_id; [done|]. by destruct cl.
  - eexists _, _; split; [reflexivity|split; [reflexivity|exact Hcreate]].
Qed.

(** The second half of [watch] when the key is already recorded with a
    truthy value: no callback, no change to any client or Future. *)
Lemma subscribe_known self reg c f msg sh sub w :
  truthy (subscription_get c sh w) = true →
  callbacks (subscribe self reg c f msg sh sub w) = callbacks w
  ∧ objects (subscribe self reg c f msg sh sub w) = objects w
  ∧ fstate (subscribe self reg c f msg sh sub w) = fstate w
  ∧ clients (subscribe self reg c f msg sh sub w) = clients w
  ∧ count is_send (log (subscribe self reg c f msg sh sub w)) = count is_send (log w).
Proof.
  intros Ht. unfold subscribe. rewrite Ht. unfold open.
  destruct (own_session self && negb (session w));
    (match goal with |- context [is_connected c ?x] => destruct (is_connected c x) end);
    simpl; repeat split; try done;
    rewrite count_snoc; simpl; lia.
Qed.

(** The second half of [watch] for a key that is not recorded: the key is
    recorded with a truthy value and exactly one callback is registered. *)
Lemma subscribe_new self c f msg sh sub w cl :
  objects w !! c = Some cl →
  truthy (subscription_get c sh w) = false →
  callbacks (subscribe self None c f msg sh sub w)
    = (callbacks w ++ [mkAfter c f msg sh])%list
  ∧ objects (subscribe self None c f msg sh sub w)
    = <[c := set_subscriptions <[sh := or_ sub PTrue]> cl]> (objects w)
  ∧ fstate (subscribe self None c f msg sh sub w) = fstate w
  ∧ clients (subscribe self None c f msg sh sub w) = clients w
  ∧ count is_send (log (subscribe self None c f msg sh sub w)) = count is_send (log w).
Proof.
  intros Hc Ht. unfold subscribe. rewrite Ht. unfold open.
  assert (Halter : alter (set_subscriptions <[sh := or_ sub PTrue]>) c (objects w)
                   = <[c := set_subscriptions <[sh := or_ sub PTrue]> cl]> (objects w)).
  { apply map_eq. intros k. destruct (decide (k = c)) as [->|Hne].
    - by rewrite lookup_alter_eq, lookup_insert_eq, Hc.
    - by rewrite lookup_alter_ne, lookup_insert_ne. }
  destruct (own_session self && negb _);
    (match goal with |- context [is_connected c ?x] => destruct (is_connected c x) end);
    simpl; rewrite ?Halter; repeat split; try done;
    rewrite !count_snoc; simpl; lia.
Qed.

(** The second half of [watch] when registering the callback raises: the
    key recorded a moment ago is deleted and the Future is rejected. *)
Lemma subscribe_refused self e c f msg sh sub w cl :
  objects w !! c = Some cl →
  truthy (subscription_get c sh w) = false →
  isinstance e Exception = true →
  callbacks (subscribe self (Some e) c f msg sh sub w) = callbacks w
  ∧ objects (subscribe self (Some e) c f msg sh sub w)
    = <[c := set_subscriptions (delete sh) cl]> (objects w)
  ∧ fstate (subscribe self (Some e) c f msg sh sub w)
    = settle f (Rejected e) (fstate w)
  ∧ clients (subscribe self (Some e) c f msg sh sub w) = clients w.
Proof.
  intros Hc Ht HE. unfold subscribe. rewrite Ht, HE. unfold open.
  assert (Halter :
    alter (set_subscriptions (delete sh)) c
      (alter (set_subscriptions <[sh := or_ sub PTrue]>) c (objects w))
    = <[c := set_subscriptions (delete sh) cl]> (objects w)).
  { apply map_eq. intros k. destruct (decide (k = c)) as [->|Hne].
    - rewrite !lookup_alter_eq, lookup_insert_eq, Hc. simpl. f_equal.
      unfold set_subscriptions. simpl. f_equal.
      by rewrite delete_insert_eq.
    - by rewrite !lookup_alter_ne, lookup_insert_ne. }
  destruct (own_session self && negb _);
    (match goal with |- context [is_connected c ?x] => destruct (is_connected c x) end);
    simpl; rewrite ?Halter; repeat split; done.
Qed.

(** The second half of [watch] when registering the callback raises
    something that is not an [Exception]: nothing is undone, nothing is
    registered. *)
Lemma subscribe_escapes self e c f msg sh sub w cl :
  objects w !! c = Some cl →
  truthy (subscription_get c sh w) = false →
  isinstance e Exception = false →
  callbacks (subscribe self (Some e) c f msg sh sub w) = callbacks w
  ∧ objects (subscribe self (Some e) c f msg sh sub w)
    = <[c := set_subscriptions <[sh := or_ sub PTrue]> cl]> (objects w)
  ∧ fstate (subscribe self (Some e) c f msg sh sub w) = fstate w
  ∧ clients (subscribe self (Some e) c f msg sh sub w) = clients w.
Proof.
  intros Hc Ht HE. unfold subscribe. rewrite Ht, HE. unfold open.
  assert (Halter : alter (set_subscriptions <[sh := or_ sub PTrue]>) c (objects w)
                   = <[c := set_subscriptions <[sh := or_ sub PTrue]> cl]> (objects w)).
  { apply map_eq. intros k. destruct (decide (k = c)) as [->|Hne].
    - by rewrite lookup_alter_eq, lookup_insert_eq, Hc.
    - by rewrite lookup_alter_ne, lookup_insert_ne. }
  destruct (own_session self && negb _);
    (match goal with |- context [is_connected c ?x] => destruct (is_connected c x) end);
    simpl; rewrite ?Halter; repeat split; done.
Qed.

(** [watch] never touches [self.orderbooks]. *)
Lemma subscribe_orderbooks self reg c f msg sh sub w :
  orderbooks (subscribe self reg c f msg sh sub w) = orderbooks w.
Proof.
  unfold subscribe, open.
  destruct (truthy (subscription_get c sh w));
    destruct (own_session self && negb _);
    (match goal with |- context [is_connected c ?x] => destruct (is_connected c x) end);
    try destruct reg as [e|]; try destruct (isinstance e Exception); done.
Qed.

Lemma watch_orderbooks self reg u mh msg sh sub w :
  orderbooks (watch self reg u mh msg sh sub w).2 = orderbooks w.
Proof.
  unfold watch.
  assert (Hc : orderbooks (client_of u w).2 = orderbooks w).
  { unfold client_of. by destruct (clients w !! u). }
  destruct (client_of u w) as [c wc]. simpl in Hc.
  assert (Hf : orderbooks (client_future c mh wc).2 = orderbooks wc).
  { unfold client_future. destruct (objects wc !! c) as [cl|]; [|done].
    destruct (futures cl !! mh) as [f|]; [|done].
    by destruct (fstate wc !! f) as [[| |]|]. }
  destruct (match sh with
            | Some _ => None
            | None => futures_of c wc !! mh
            end); [done|].
  destruct (client_future c mh wc) as [f wf]. simpl in *.
  by rewrite subscribe_orderbooks, Hf.
Qed.

(** [watch] past its early return. *)
Lemma watch_proceeds self reg u mh msg sh sub w c wc :
  client_of u w = (c, wc) →
  (sh = None → futures_of c wc !! mh = None) →
  watch self reg u mh msg sh sub w =
    ((client_future c mh wc).1,
     subscribe self reg c (client_future c mh wc).1 msg sh sub
               (client_future c mh wc).2).
Proof.
  intros Hc He. unfold watch. rewrite Hc.
  assert (match sh with
          | Some _ => None
          | None => futures_of c wc !! mh
          end = None) as ->.
  { destruct sh; [done|]. by apply He. }
  by destruct (client_future c mh wc).
Qed.

(** [watch] on a url that has no registered client: a new client object is
    registered, the key recorded, one callback registered. *)
Lemma watch_unregistered self u mh msg sh sub w :
  clients w !! u = None →
  let r := watch self None u mh msg sh sub w in
  let c' := fresh (dom (objects w)) in
  clients r.2 !! u = Some c'
  ∧ objects w !! c' = None
  ∧ callbacks r.2 = (callbacks w ++ [mkAfter c' r.1 msg sh])%list
  ∧ fstate r.2 !! r.1 = Some Pending.
Proof.
  intros Hnone r c'.
  assert (Hfresh : objects w !! c' = None).
  { apply not_elem_of_dom. apply is_fresh. }
  pose proof (client_of_new u w Hnone) as Hof. fold c' in Hof.
  set (wc := emit (EvNewClient u c')
               (set_clients <[u := c']>
                  (set_objects <[c' := mkClient u ∅ ∅ false false]> w))) in *.
  assert (Hobj : objects wc !! c' = Some (mkClient u ∅ ∅ false false)).
  { unfold wc. simpl. by rewrite lookup_insert_eq. }
  assert (Hr : r = ((client_future c' mh wc).1,
                    subscribe self None c' (client_future c' mh wc).1 msg sh sub
                              (client_future c' mh wc).2)).
  { apply watch_proceeds; [done|]. intros _. unfold futures_of. by rewrite Hobj. }
  destruct (client_future_spec c' mh wc _ Hobj)
    as (f & fs & _ & Hf1 & Hpend & Hobjs & Hfs & Hcl & Hcb & _ & _).
  rewrite Hf1 in Hr. simpl in Hobjs.
  assert (Hobj2 : objects (client_future c' mh wc).2 !! c'
                  = Some (mkClient u fs ∅ false false)).
  { by rewrite Hobjs, lookup_insert_eq. }
  assert (Hnot : truthy (subscription_get c' sh (client_future c' mh wc).2) = false).
  { unfold subscription_get. rewrite Hobj2. simpl. by rewrite lookup_empty. }
  destruct (subscribe_new self c' f msg sh sub _ _ Hobj2 Hnot)
    as (Hcb2 & _ & Hfs2 & Hcl2 & _).
  rewrite Hr. simpl. repeat split.
  - rewrite Hcl2, Hcl. unfold wc. simpl. by rewrite lookup_insert_eq.
  - done.
  - rewrite Hcb2, Hcb. done.
  - by rewrite Hfs2.
Qed.

Lemma subscription_get_of c k w :
  subscription_get c k w = default PNone (subscriptions_of c w !! k).
Proof.
  unfold subscription_get, subscriptions_of.
  destruct (objects w !! c); [done|]. by rewrite lookup_empty.
Qed.

(** [self.client(url)] on a sound registry hands out a live client object
    registered under the url, and arranges nothing. *)
Lemma client_of_spec u w :
  registry_ok w →
  ∃ cl, objects (client_of u w).2 !! (client_of u w).1 = Some cl
    ∧ url cl = u
    ∧ clients (client_of u w).2 !! u = Some (client_of u w).1
    ∧ registry_ok (client_of u w).2
    ∧ callbacks (client_of u w).2 = callbacks w
    ∧ fstate (client_of u w).2 = fstate w
    ∧ count is_send (log (client_of u w).2) = count is_send (log w).
Proof.
  intros Hok. unfold client_of.
  destruct (clients w !! u) as [c|] eqn:Hc; simpl.
  - destruct (Hok u c Hc) as (cl & Hcl & Hu). exists cl. by repeat split.
  - exists (mkClient u ∅ ∅ false false). rewrite !lookup_insert_eq.
    repeat split; try done.
    + intros u' c'. simpl. destruct (decide (u' = u)) as [->|Hne].
      * rewrite lookup_insert_eq. intros [= <-]. rewrite lookup_insert_eq.
        by eexists.
      * rewrite lookup_insert_ne by done. intros Hu'.
        destruct (Hok u' c' Hu') as (cl & Hcl & Hurl).
        exists cl. split; [|done]. rewrite lookup_insert_ne; [done|].
        intros <-. pose proof (is_fresh (dom (objects w))) as Hfr.
        apply Hfr. apply elem_of_dom. by eexists.
    + rewrite count_snoc. simpl. lia.
Qed.

(** The objects a [future_reject] or a subscription update leaves alone. *)
Lemma after_sends self a sending w :
  count is_send (log (after self a sending w).1)
  = (count is_send (log w) + if truthy (a_message a) then 1 else 0)%nat.
Proof.
  unfold after. destruct (truthy (a_message a)); [|simpl; lia].
  destruct (enableRateLimit self), sending as [e|];
    try destruct (isinstance e ConnectionError);
    try destruct (objects _ !! a_client a) as [c|];
    try destruct (subscriptions c !! a_subscribe_hash a);
    simpl; rewrite ?count_snoc; simpl; lia.
Qed.

(** The send task when [client.send] fails with a [ConnectionError] and
    the key is still recorded. *)
Lemma after_connection_error self a e w cl v :
  truthy (a_message a) = true →
  isinstance e ConnectionError = true →
  objects w !! a_client a = Some cl →
  subscriptions cl !! a_subscribe_hash a = Some v →
  fstate w !! a_future a = Some Pending →
  subscriptions_of (a_client a) (after self a (Some e) w).1
    !! a_subscribe_hash a = None
  ∧ fstate (after self a (Some e) w).1 !! a_future a = Some (Rejected e)
  ∧ (after self a (Some e) w).2 = None.
Proof.
  intros Hm He Hcl Hv Hp. unfold after. rewrite Hm, He.
  destruct (enableRateLimit self); simpl; rewrite Hcl, Hv; simpl;
    unfold subscriptions_of, settle; simpl; rewrite Hp, !lookup_insert_eq; simpl;
    by rewrite lookup_delete_eq.
Qed.

(** [watch] with a subscribe key, on a sound registry, in terms of its two
    halves. *)
Lemma watch_keyed self reg u mh msg k sub w :
  let c := (client_of u w).1 in
  let wc := (client_of u w).2 in
  watch self reg u mh msg (Some k) sub w =
    ((client_future c mh wc).1,
     subscribe self reg c (client_future c mh wc).1 msg (Some k) sub
               (client_future c mh wc).2).
Proof.
  intros c wc. apply watch_proceeds; [|done].
  unfold c, wc. by destruct (client_of u w).
Qed.

(** A [watch] call with a key that is not recorded yet. *)
Lemma watch_new_key self u mh msg k sub w :
  registry_ok w →
  let c := (client_of u w).1 in
  truthy (subscription_get c (Some k) (client_of u w).2) = false →
  let r := watch self None u mh msg (Some k) sub w in
  callbacks r.2 = (callbacks w ++ [mkAfter c r.1 msg (Some k)])%list
  ∧ clients r.2 !! u = Some c
  ∧ (∃ cl, objects r.2 !! c = Some cl
           ∧ subscriptions cl !! Some k = Some (or_ sub PTrue))
  ∧ fstate r.2 !! r.1 = Some Pending
  ∧ count is_send (log r.2) = count is_send (log w).
Proof.
  intros Hok c Hnot r.
  destruct (client_of_spec u w Hok) as (cl & Hcl & Hu & Hreg & _ & Hcb & Hfs & Hcnt).
  fold c in Hcl, Hreg.
  unfold r. rewrite watch_keyed. fold c. cbn [fst snd].
  destruct (client_future_spec c mh _ cl Hcl)
    as (f & fs & _ & Hf1 & Hpend & Hobjs & Hfsmh & Hclients & Hcbs & _ & Hcnt2).
  rewrite Hf1.
  assert (Hobj2 : objects (client_future c mh (client_of u w).2).2 !! c
                  = Some (mkClient (url cl) fs (subscriptions cl)
                                   (connected_done cl) (error cl))).
  { by rewrite Hobjs, lookup_insert_eq. }
  assert (Hnot2 : truthy (subscription_get c (Some k)
                            (client_future c mh (client_of u w).2).2) = false).
  { unfold subscription_get in *. rewrite Hobj2. simpl. by rewrite Hcl in Hnot. }
  destruct (subscribe_new self c f msg (Some k) sub _ _ Hobj2 Hnot2)
    as (H1 & H2 & H3 & H4 & H5).
  split; [by rewrite H1, Hcbs, Hcb|].
  split; [by rewrite H4, Hclients|].
  split.
  { rewrite H2, lookup_insert_eq. eexists. split; [done|]. simpl.
    by rewrite lookup_insert_eq. }
  split; [by rewrite H3|].
  by rewrite H5, Hcnt2, Hcnt.
Qed.

(** A [watch] call with a key that is recorded with a truthy value. *)
Lemma watch_known_key self reg u mh msg k sub w c cl v :
  clients w !! u = Some c →
  objects w !! c = Some cl →
  subscriptions cl !! Some k = Some v →
  truthy v = true →
  let r := watch self reg u mh msg (Some k) sub w in
  callbacks r.2 = callbacks w
  ∧ clients r.2 = clients w
  ∧ (∃ cl', objects r.2 !! c = Some cl' ∧ subscriptions cl' = subscriptions cl)
  ∧ count is_send (log r.2) = count is_send (log w).
Proof.
  intros Hc Hcl Hv Ht r. unfold r. rewrite watch_keyed.
  rewrite (client_of_registered u c w Hc). cbn [fst snd].
  destruct (client_future_spec c mh w cl Hcl)
    as (f & fs & _ & Hf1 & Hpend & Hobjs & Hfsmh & Hclients & Hcbs & _ & Hcnt2).
  rewrite Hf1.
  assert (Hobj2 : objects (client_future c mh w).2 !! c
                  = Some (mkClient (url cl) fs (subscriptions cl)
                                   (connected_done cl) (error cl))).
  { by rewrite Hobjs, lookup_insert_eq. }
  assert (Hknown : truthy (subscription_get c (Some k) (client_future c mh w).2)
                   = true).
  { unfold subscription_get. rewrite Hobj2. simpl. by rewrite Hv. }
  destruct (subscribe_known self reg c f msg (Some k) sub _ Hknown)
    as (H1 & H2 & H3 & H4 & H5).
  split; [by rewrite H1|]. split; [by rewrite H4|].
  split; [|by rewrite H5].
  rewrite H2, Hobj2. by eexists.
Qed.

(** C4. A [watch] call without a subscribe key, on a registered connection
    whose [futures] already has an entry for the message hash, returns that
    Future and changes nothing: no Future is created, no subscription is
    recorded, no callback is registered, nothing is sent. *)
Theorem watch_returns_existing self reg u mh msg sub w c cl f :
  clients w !! u = Some c →
  objects w !! c = Some cl →
  futures cl !! mh = Some f →
  watch self reg u mh msg None sub w = (f, w).
Proof.
  intros Hc Hcl Hf. unfold watch.
  rewrite (client_of_registered u c w Hc).
  unfold futures_of. by rewrite Hcl, Hf.
Qed.

(** Any number of [watch] calls with a key that is recorded with a truthy
    value register nothing. *)
Lemma watch_all_known self calls u k w c cl v :
  clients w !! u = Some c →
  objects w !! c = Some cl →
  subscriptions cl !! Some k = Some v →
  truthy v = true →
  callbacks (watch_all self calls u k w) = callbacks w
  ∧ count is_send (log (watch_all self calls u k w)) = count is_send (log w).
Proof.
  revert w cl. induction calls as [|[[[reg mh] msg] sub] calls IH];
    intros w cl Hc Hcl Hv Ht; simpl; [done|].
  destruct (watch_known_key self reg u mh msg k sub w c cl v Hc Hcl Hv Ht)
    as (H1 & H2 & (cl' & Hcl' & Hsub) & H3).
  destruct (IH (watch self reg u mh msg (Some k) sub w).2 cl') as [H4 H5];
    try done.
  - by rewrite H2.
  - by rewrite Hsub.
  - by rewrite H4, H5, H1, H3.
Qed.

(** C5. Once a subscribe key is recorded in the connection's
    [subscriptions], [watch] calls with that key, however many, register no
    callback and so arrange no send. Hence a [watch] call that records the
    key, followed by any further [watch] calls with the same key, leaves
    exactly one callback, and when the connection future completes (nothing
    else being pending) the outgoing message of the first call is sent
    exactly once. *)
Theorem watch_sends_once self u k mh1 msg1 sub1 calls w sending :
  registry_ok w →
  let c := (client_of u w).1 in
  let r1 := watch self None u mh1 msg1 (Some k) sub1 w in
  let w2 := watch_all self calls u k r1.2 in
  (∀ cl v, clients w !! u = Some c → objects w !! c = Some cl →
           subscriptions cl !! Some k = Some v → truthy v = true →
           callbacks (watch_all self calls u k w) = callbacks w
           ∧ count is_send (log (watch_all self calls u k w))
             = count is_send (log w))
  ∧ (truthy (subscription_get c (Some k) (client_of u w).2) = false →
     callbacks w2 = (callbacks w ++ [mkAfter c r1.1 msg1 (Some k)])%list
     ∧ count is_send (log w2) = count is_send (log w)
     ∧ (callbacks w = [] → truthy msg1 = true →
        count is_send (log (fire self sending w2))
        = (count is_send (log w) + 1)%nat)).
Proof.
  intros Hok c r1 w2. split.
  - intros cl v Hc Hcl Hv Ht.
    by apply (watch_all_known self calls u k w c cl v).
  - intros Hnot.
    destruct (watch_new_key self u mh1 msg1 k sub1 w Hok Hnot)
      as (Hcb1 & Hc1 & (cl1 & Hcl1 & Hsub1) & _ & Hcnt1).
    fold r1 c in Hcb1, Hc1, Hcl1, Hcnt1.
    destruct (watch_all_known self calls u k r1.2 c cl1 _
                Hc1 Hcl1 Hsub1 (or_True_truthy sub1))
      as (Hcb2 & Hcnt2).
    fold w2 in Hcb2, Hcnt2.
    split; [by rewrite Hcb2|]. split; [by rewrite Hcnt2|].
    intros Hnil Hmsg. unfold fire. rewrite Hcb2, Hcb1, Hnil. simpl.
    rewrite after_sends. simpl. rewrite Hmsg. by rewrite Hcnt2, Hcnt1.
Qed.

(** The send task that fails with a [ConnectionError] while the key is
    recorded, in full. *)
Lemma after_connection_error_effect self a e w cl v :
  truthy (a_message a) = true →
  isinstance e ConnectionError = true →
  objects w !! a_client a = Some cl →
  subscriptions cl !! a_subscribe_hash a = Some v →
  clients (after self a (Some e) w).1 = clients w
  ∧ objects (after self a (Some e) w).1
    = <[a_client a := set_subscriptions (delete (a_subscribe_hash a)) cl]> (objects w)
  ∧ fstate (after self a (Some e) w).1 = settle (a_future a) (Rejected e) (fstate w)
  ∧ callbacks (after self a (Some e) w).1 = callbacks w.
Proof.
  intros Hm He Hcl Hv. unfold after. rewrite Hm, He.
  destruct (enableRateLimit self); simpl; rewrite Hcl, Hv; done.
Qed.




End Router.

(** ** The synchroniser: fuel, loop heads, calls *)

Section Synchroniser.

Context {Snapshot Delta : Type}.
Variables (self : Exchange) (ad : Adapter Snapshot Delta).
Variables (client : nat) (messageHash symbol : string).

Implicit Types (w : World Snapshot Delta) (stored : OrderBook Snapshot Delta).
Implicit Types (o : Outcome Snapshot Delta) (r : LoopEnd Snapshot Delta).

Local Abbreviation maxRetries := (handle_option self "watchOrderBook" "maxRetries" 3).
Local Abbreviation loop := (attempts ad client messageHash symbol maxRetries).
Local Abbreviation call := (fun gas => load_order_book self ad gas client messageHash symbol).
Local Abbreviation ending := (fun gas => conclude self ad gas client messageHash symbol).

(** A call is its loop followed by [conclude]. *)
Lemma call_unfold gas w :
  call gas w =
  match orderbooks w !! symbol with
  | None =>
      Returned
        (client_reject client
           (new ExchangeError
                (id self +:+ " loadOrderBook() orderbook is not initiated"))
           messageHash w)
  | Some stored => ending gas (loop gas 0 stored w)
  end.
Proof. destruct gas; reflexivity. Qed.

(** More fuel does not change a loop that ended. *)
Lemma loop_mono gas gas' tries stored w r :
  (gas ≤ gas')%nat → loop gas tries stored w = r → loop_done r = true →
  loop gas' tries stored w = r.
Proof.
  revert gas' tries stored w. induction gas as [|gas IH]; intros gas' tries stored w Hle Hr Hd.
  - simpl in Hr. destruct (tries <? maxRetries)%Z eqn:Ht.
    + subst r. discriminate.
    + destruct gas'; simpl; rewrite Ht; done.
  - destruct gas' as [|gas']; [lia|].
    simpl in *. destruct (tries <? maxRetries)%Z; [|done].
    destruct (fetch_order_book ad symbol (fetches w)) as [arrived [e|order_book]]; [done|].
    destruct (0 <=? _)%Z; [done|].
    apply IH; [lia|done..].
Qed.

(** More fuel does not change a call that came to an end. *)
Lemma call_mono gas gas' w o :
  (gas ≤ gas')%nat → call gas w = o → finished o = true → call gas' w = o.
Proof.
  revert gas' w o. induction gas as [|gas IH]; intros gas' w o Hle Ho Hf.
  - rewrite call_unfold in Ho. rewrite call_unfold.
    destruct (orderbooks w !! symbol) as [stored|]; [|done].
    destruct (loop 0 0 stored w) as [w'|w'|e w'|w'] eqn:Hl.
    + by rewrite (loop_mono 0 gas' _ _ _ _ Hle Hl eq_refl).
    + by rewrite (loop_mono 0 gas' _ _ _ _ Hle Hl eq_refl).
    + rewrite (loop_mono 0 gas' _ _ _ _ Hle Hl eq_refl).
      simpl in *. destruct (isinstance e BaseError); [|done].
      subst o. discriminate.
    + simpl in Ho. subst o. discriminate.
  - rewrite call_unfold in Ho. rewrite call_unfold.
    destruct (orderbooks w !! symbol) as [stored|]; [|done].
    destruct gas' as [|gas']; [lia|].
    destruct (loop (S gas) 0 stored w) as [w'|w'|e w'|w'] eqn:Hl.
    + by rewrite (loop_mono _ (S gas') _ _ _ _ Hle Hl eq_refl).
    + by rewrite (loop_mono _ (S gas') _ _ _ _ Hle Hl eq_refl).
    + rewrite (loop_mono _ (S gas') _ _ _ _ Hle Hl eq_refl).
      cbn [conclude] in *. destruct (isinstance e BaseError); [|done].
      apply IH; [lia|done..].
    + simpl in Ho. subst o. discriminate.
Qed.

Lemma ending_mono gas gas' r o :
  (gas ≤ gas')%nat → ending gas r = o → finished o = true → ending gas' r = o.
Proof.
  intros Hle Ho Hf. destruct r as [w'|w'|e w'|w']; cbn [conclude] in *; try done.
  destruct (isinstance e BaseError); [|done].
  destruct gas as [|gas]; [subst o; discriminate|].
  destruct gas' as [|gas']; [lia|].
  eapply call_mono; [|done..]. lia.
Qed.

Lemma ending_done gas r o :
  ending gas r = o → finished o = true → loop_done r = true.
Proof. intros Ho Hf. destruct r; try done. simpl in Ho. subst o. discriminate. Qed.

(** Whatever the loop head a call reaches leads to is what the call leads
    to. *)
Lemma reaches_forward w0 tries stored w :
  reaches self ad client messageHash symbol w0 tries stored w →
  ∀ gas o, ending gas (loop gas tries stored w) = o → finished o = true →
  ∃ gas0, call gas0 w0 = o.
Proof.
  induction 1 as [stored Hs|tries stored w arrived order_book Hr IH Ht Hfetch Hidx
                 |tries stored w e w1 stored1 Hr IH Hl He Hs1]; intros gas o Ho Hf.
  - exists gas. rewrite call_unfold, Hs. done.
  - apply (IH (S gas)); [|done].
    pose proof (ending_done _ _ _ Ho Hf) as Hd.
    apply (ending_mono gas (S gas)); [lia| |done].
    rewrite <- Ho. f_equal. simpl.
    apply Z.ltb_lt in Ht. rewrite Ht, Hfetch.
    apply Z.leb_gt in Hidx. by rewrite Hidx.
  - apply (IH (S gas)); [|done].
    rewrite (loop_mono 1 (S gas) _ _ _ _ ltac:(lia) Hl eq_refl).
    cbn [conclude]. rewrite He.
    rewrite <- Ho. rewrite call_unfold.
    destruct (client_reject_frame client e messageHash w1) as (_ & -> & _).
    by rewrite Hs1.
Qed.


(** Frames of the steps of one attempt. *)
Lemma handle_deltas_ok ob deltas ob' called :
  handle_deltas ad ob deltas = (ob', called, None) →
  called = deltas ∧ ob' = foldl (fun b d => (handle_delta ad b d).1) ob deltas.
Proof.
  revert ob ob' called. induction deltas as [|d deltas IH]; intros ob ob' called H; simpl in *.
  - by inversion H.
  - destruct (handle_delta ad ob d) as [ob1 [e|]] eqn:Hd; [done|].
    destruct (handle_deltas ad ob1 deltas) as [[ob2 called2] r] eqn:Hrest.
    inversion H; subst. destruct (IH _ _ _ Hrest) as [-> ->]. done.
Qed.

(** C7. A call for a symbol that has no entry in [self.orderbooks] rejects
    the Future of [messageHash] with an [ExchangeError] and returns, whatever
    the fuel: it fetches no snapshot, makes no attempt, and leaves the order
    books (with their caches) and the connection registry as they were. *)
Theorem load_order_book_not_initiated gas w :
  orderbooks w !! symbol = None →
  let e := new ExchangeError
             (id self +:+ " loadOrderBook() orderbook is not initiated") in
  ∃ w', call gas w = Returned w'
    ∧ log w' = (log w ++ [EvReject client messageHash e])%list
    ∧ fetches w' = fetches w
    ∧ orderbooks w' = orderbooks w
    ∧ clients w' = clients w
    ∧ isinstance e ExchangeError = true
    ∧ (∀ f, futures_of client w !! messageHash = Some f →
            fstate w !! f = Some Pending →
            fstate w' !! f = Some (Rejected e)).
Proof.
  intros Hnone e. eexists. split.
  { rewrite call_unfold, Hnone. reflexivity. }
  fold e.
  destruct (client_reject_frame client e messageHash w) as (Hc & Ho & _ & _ & Hf).
  repeat split; try done.
  - apply client_reject_log.
  - intros f Hf1 Hf2. unfold client_reject.
    by apply (complete_waiter client messageHash (Rejected e)
                (emit (EvReject client messageHash e) w) f).
Qed.

(** C1, as amended. Whenever a call reaches an attempt whose fetch yields a
    snapshot with a cache index >= 0, and [handle_delta] raises on none of
    the cached deltas from that index onward, the call does exactly this, in
    this order, and returns: reset the stored book to the snapshot, apply
    every cached delta from the index onward in list order, clear the cache,
    resolve the waiters of the message hash with the stored book. *)
Theorem load_order_book_success w0 tries stored w arrived order_book ob called :
  reaches self ad client messageHash symbol w0 tries stored w →
  (tries < maxRetries)%Z →
  fetch_order_book ad symbol (fetches w) = (arrived, inr order_book) →
  let cached := (cache stored ++ arrived)%list in
  let index := get_cache_index ad order_book cached in
  (0 ≤ index)%Z →
  handle_deltas ad (mkOrderBook order_book cached) (slice_from index cached)
    = (ob, called, None) →
  ∃ w',
    (∃ gas0, ∀ gas, (gas0 ≤ gas)%nat → call gas w0 = Returned w')
    ∧ log w' =
        (log w
           ++ [EvFetchOrderBook symbol (fetches w); EvReset symbol order_book]
           ++ map (EvHandleDelta symbol) (slice_from index cached)
           ++ [EvCacheClear symbol;
               EvResolve client messageHash (VBook symbol)])%list
    ∧ ob = foldl (fun b d => (handle_delta ad b d).1)
                 (mkOrderBook order_book cached) (slice_from index cached)
    ∧ orderbooks w' !! symbol = Some (mkOrderBook (ob_data ob) [])
    ∧ clients w' = clients w
    ∧ (∀ f, futures_of client w !! messageHash = Some f →
            fstate w !! f = Some Pending →
            fstate w' !! f = Some (Resolved (VBook symbol))).
Proof.
  intros Hr Ht Hfetch cached index Hidx Hd.
  destruct (handle_deltas_ok _ _ _ _ Hd) as [Hcalled Hob].
  set (w1 := store symbol (mkOrderBook (ob_data stored) cached)
               (tick_fetches (emit (EvFetchOrderBook symbol (fetches w)) w))).
  set (w2 := store symbol (mkOrderBook order_book cached)
               (emit (EvReset symbol order_book) w1)).
  set (w3 := store symbol ob
               (foldl (fun w d => emit (EvHandleDelta symbol d) w) w2 called)).
  set (w4 := store symbol (mkOrderBook (ob_data ob) [])
               (emit (EvCacheClear symbol) w3)).
  set (w' := client_resolve client (VBook symbol) messageHash w4).
  assert (Hloop : ∀ gas, loop (S gas) tries stored w = LReturn w').
  { intros gas. simpl. apply Z.ltb_lt in Ht. rewrite Ht, Hfetch.
    fold cached. fold index. apply Z.leb_le in Hidx. rewrite Hidx.
    unfold reset. simpl. fold cached. rewrite Hd. reflexivity. }
  exists w'. split; [|split; [|split; [|split; [|split]]]].
  - destruct (reaches_forward _ _ _ _ Hr 1%nat (Returned w')) as [gas0 Hg].
    { by rewrite Hloop. }
    { done. }
    exists gas0. intros gas Hle. by apply (call_mono gas0 gas).
  - unfold w'. rewrite client_resolve_log. unfold w4, w3. simpl.
    rewrite foldl_emit_log. unfold w2, w1. simpl. rewrite Hcalled.
    rewrite <- !app_assoc. simpl. reflexivity.
  - done.
  - unfold w'.
    destruct (client_resolve_frame client (VBook symbol) messageHash w4)
      as (_ & -> & _).
    unfold w4. simpl. by rewrite lookup_insert_eq.
  - unfold w'.
    destruct (client_resolve_frame client (VBook symbol) messageHash w4)
      as (-> & _).
    unfold w4, w3. simpl.
    by destruct (foldl_emit_frame (EvHandleDelta symbol) called w2) as (-> & _).
  - intros f Hf Hp. unfold w', client_resolve.
    apply (complete_waiter client messageHash); unfold futures_of, w4, w3; simpl.
    + destruct (foldl_emit_frame (EvHandleDelta symbol) called w2)
        as (_ & -> & _). exact Hf.
    + destruct (foldl_emit_frame (EvHandleDelta symbol) called w2)
        as (_ & _ & -> & _). exact Hp.
Qed.

Lemma complete_url c mh st w : client_url client (complete c mh st w) = client_url client w.
Proof.
  unfold client_url, complete.
  destruct (objects w !! c) as [cl|] eqn:Hc; [|done].
  destruct (futures cl !! mh); [|done]. simpl.
  destruct (decide (c = client)) as [->|Hne].
  - by rewrite lookup_insert_eq, Hc.
  - by rewrite lookup_insert_ne.
Qed.

Lemma del_client_unregisters w :
  clients (world_of (del_client client w)) !! client_url client w = None.
Proof.
  unfold del_client.
  destruct (clients w !! client_url client w) eqn:Hc; simpl; [|done].
  apply lookup_delete_eq.
Qed.

Lemma del_client_fstate w : fstate (world_of (del_client client w)) = fstate w.
Proof. unfold del_client. by destruct (clients w !! client_url client w). Qed.

Lemma del_client_objects w : objects (world_of (del_client client w)) = objects w.
Proof. unfold del_client. by destruct (clients w !! client_url client w). Qed.

Lemma del_client_finished w : finished (del_client client w) = true.
Proof. unfold del_client. by destruct (clients w !! client_url client w). Qed.

Lemma del_client_orderbooks w :
  orderbooks (world_of (del_client client w)) = orderbooks w.
Proof. unfold del_client. by destruct (clients w !! client_url client w). Qed.

(** At every loop head a call reaches, [stored] is the book that
    [self.orderbooks] holds for the symbol. *)
Lemma reaches_book w0 tries stored w :
  reaches self ad client messageHash symbol w0 tries stored w →
  orderbooks w !! symbol = Some stored.
Proof.
  induction 1 as [stored Hs|tries stored w arrived order_book Hr IH Ht Hfetch Hidx
                 |tries stored w e w1 stored1 Hr IH Hl He Hs1].
  - done.
  - simpl. apply lookup_insert_eq.
  - destruct (client_reject_frame client e messageHash w1) as (_ & -> & _). done.
Qed.

(** C2, as amended. When a call finds [tries < maxRetries] false, after
    [maxRetries] consecutive fetches that each gave an index < 0 without
    raising, it rejects the waiters of the message hash with an
    [ExchangeError] that names the nonce gap (not one of the network error
    classes, and not the message of any error [fetch] builds for an HTTP
    verb), then deletes the client's url from the registry; a later [watch]
    on that url gets a new client object and registers its subscription
    from scratch. The book of the symbol stays in [self.orderbooks] as the
    attempts left it, cache included, and a later [watch] does not replace
    it. *)
Theorem load_order_book_exhausted w0 tries stored w :
  reaches self ad client messageHash symbol w0 tries stored w →
  (maxRetries ≤ tries)%Z →
  let e := new ExchangeError
             (id self +:+ " nonce is behind cache after "
                +:+ str maxRetries +:+ " tries.") in
  let w1 := client_reject client e messageHash w in
  let w' := world_of (del_client client w1) in
  (∃ gas0, ∀ gas, (gas0 ≤ gas)%nat → call gas w0 = del_client client w1)
  ∧ log w1 = (log w ++ [EvReject client messageHash e])%list
  ∧ fetches w' = fetches w
  ∧ (∀ f, futures_of client w !! messageHash = Some f →
          fstate w !! f = Some Pending →
          fstate w' !! f = Some (Rejected e))
  ∧ isinstance e ExchangeError = true
  ∧ isinstance e NetworkError = false
  ∧ isinstance e ExchangeNotAvailable = false
  ∧ isinstance e RequestTimeout = false
  ∧ (∀ cls method url, String.get 0 method ≠ Some "n"%char →
        new cls (join_sp [id self; method; url]) ≠ e)
  ∧ clients w' !! client_url client w = None
  ∧ (∀ message_hash message subscribe_hash subscription,
        let r := watch self None (client_url client w) message_hash message
                       subscribe_hash subscription w' in
        ∃ c', clients r.2 !! client_url client w = Some c'
              ∧ objects w' !! c' = None
              ∧ callbacks r.2 =
                  (callbacks w' ++ [mkAfter c' r.1 message subscribe_hash])%list)
  ∧ (options self = ∅ → maxRetries = 3%Z)
  ∧ orderbooks w' = orderbooks w
  ∧ orderbooks w' !! symbol = Some stored
  ∧ (∀ registering u message_hash message subscribe_hash subscription,
        orderbooks (watch self registering u message_hash message
                          subscribe_hash subscription w').2 !! symbol
        = Some stored).
Proof.
  intros Hr Ht e w1 w'.
  assert (Hbooks : orderbooks w' = orderbooks w).
  { unfold w'. rewrite del_client_orderbooks. unfold w1.
    by destruct (client_reject_frame client e messageHash w) as (_ & -> & _). }
  assert (Hloop : ∀ gas, loop gas tries stored w = LExhausted w).
  { intros gas. apply Z.ltb_ge in Ht. destruct gas; simpl; by rewrite Ht. }
  assert (Hurl : client_url client w1 = client_url client w).
  { unfold w1, client_reject. by rewrite complete_url. }
  split; [|split; [|split; [|split; [|split; [|split; [|split; [|split; [|split; [|split; [|split]]]]]]]]]];
    try done.
  - destruct (reaches_forward _ _ _ _ Hr 0%nat (del_client client w1)) as [gas0 Hg].
    { by rewrite Hloop. }
    { apply del_client_finished. }
    exists gas0. intros gas Hle. apply (call_mono gas0 gas); [done..|].
    apply del_client_finished.
  - apply client_reject_log.
  - unfold w', del_client.
    destruct (client_reject_frame client e messageHash w) as (_ & _ & _ & _ & Hf).
    by destruct (clients w1 !! client_url client w1).
  - intros f Hf Hp. unfold w'. rewrite del_client_fstate. unfold w1, client_reject.
    by apply (complete_waiter client messageHash (Rejected e)
                (emit (EvReject client messageHash e) w) f).
  - intros cls method url Hm Heq. apply (f_equal exc_msg) in Heq.
    by apply (details_not_nonce_gap self method url
                (" is behind cache after " +:+ str maxRetries +:+ " tries.") Hm).
  - unfold w'. rewrite <- Hurl. apply del_client_unregisters.
  - intros message_hash message subscribe_hash subscription r.
    assert (Hnone : clients w' !! client_url client w = None).
    { unfold w'. rewrite <- Hurl. apply del_client_unregisters. }
    destruct (watch_unregistered self (client_url client w) message_hash message
                subscribe_hash subscription w' Hnone) as (H1 & H2 & H3 & _).
    eexists. split; [exact H1|]. split; [exact H2|exact H3].
  - split; [apply maxRetries_default|]. split; [exact Hbooks|].
    pose proof (reaches_book _ _ _ _ Hr) as Hs.
    split; [by rewrite Hbooks|].
    intros registering u message_hash message subscribe_hash subscription.
    by rewrite watch_orderbooks, Hbooks.
Qed.


(** What one run of the loop adds to the log: at most
    [maxRetries - tries] fetches and no rejection; it runs out of fuel only
    when the fuel is below that number. *)
Lemma loop_counts gas tries stored w :
  ∃ l, log (loop_world (loop gas tries stored w)) = (log w ++ l)%list
    ∧ fetches (loop_world (loop gas tries stored w))
      = (fetches w + count is_fetch l)%nat
    ∧ (count is_fetch l ≤ Z.to_nat (maxRetries - tries))%nat
    ∧ count is_reject l = 0%nat
    ∧ (loop_done (loop gas tries stored w) = false →
       (gas < Z.to_nat (maxRetries - tries))%nat).
Proof.
  revert tries stored w. induction gas as [|gas IH]; intros tries stored w.
  - simpl. destruct (tries <? maxRetries)%Z eqn:Ht; exists []; simpl;
      rewrite app_nil_r; change (count _ []) with 0%nat;
      repeat split; try done; try lia.
  - simpl. destruct (tries <? maxRetries)%Z eqn:Ht.
    2:{ exists []. simpl. rewrite app_nil_r. change (count _ []) with 0%nat.
        repeat split; try done; lia. }
    apply Z.ltb_lt in Ht.
    destruct (fetch_order_book ad symbol (fetches w)) as [arrived [e|order_book]].
    { exists [EvFetchOrderBook symbol (fetches w)]. simpl.
      change (count is_fetch [_]) with 1%nat. change (count is_reject [_]) with 0%nat.
      repeat split; try done; lia. }
    destruct (0 <=? _)%Z.
    + destruct (handle_deltas _ _ _) as [[ob called] raised].
      destruct raised as [e|]; simpl.
      * set (l := ([EvFetchOrderBook symbol (fetches w); EvReset symbol order_book]
                     ++ map (EvHandleDelta symbol) called)%list).
        assert (Hf : count is_fetch l = 1%nat).
        { unfold l. rewrite count_app, count_emits by done. done. }
        assert (Hj : count is_reject l = 0%nat).
        { unfold l. rewrite count_app, count_emits by done. done. }
        exists l. rewrite Hf, Hj.
        rewrite foldl_emit_log. simpl.
        match goal with |- context [foldl ?f ?x called] =>
          destruct (foldl_emit_frame (EvHandleDelta symbol) called x)
            as (_ & _ & _ & _ & _ & _ & ->) end.
        simpl. unfold l. rewrite <- !app_assoc. simpl.
        repeat split; try done; lia.
      * set (l := ([EvFetchOrderBook symbol (fetches w); EvReset symbol order_book]
                     ++ map (EvHandleDelta symbol) called
                     ++ [EvCacheClear symbol;
                         EvResolve client messageHash (VBook symbol)])%list).
        assert (Hf : count is_fetch l = 1%nat).
        { unfold l. rewrite !count_app, count_emits by done. done. }
        assert (Hj : count is_reject l = 0%nat).
        { unfold l. rewrite !count_app, count_emits by done. done. }
        exists l. rewrite Hf, Hj.
        rewrite client_resolve_log. simpl. rewrite foldl_emit_log. simpl.
        match goal with |- context [client_resolve ?c ?v ?m ?x] =>
          destruct (client_resolve_frame c v m x) as (_ & _ & _ & _ & ->) end.
        simpl.
        match goal with |- context [foldl ?f ?x called] =>
          destruct (foldl_emit_frame (EvHandleDelta symbol) called x)
            as (_ & _ & _ & _ & _ & _ & ->) end.
        simpl. unfold l. rewrite <- !app_assoc. simpl.
        repeat split; try done; lia.
    + match goal with |- context [loop gas ?t ?s ?x] =>
        destruct (IH t s x) as (l & Hl & Hfe & Hb & Hj & Hg) end.
      exists ([EvFetchOrderBook symbol (fetches w)] ++ l)%list.
      rewrite Hl, Hfe. rewrite !count_app.
      change (count is_fetch [_]) with 1%nat. change (count is_reject [_]) with 0%nat.
      simpl. rewrite <- app_assoc. simpl.
      repeat split; try done; try lia.
      intros Hd. specialize (Hg Hd). lia.
Qed.

Lemma del_client_log w :
  ∃ l, log (world_of (del_client client w)) = (log w ++ l)%list
       ∧ count is_fetch l = 0%nat ∧ count is_reject l = 0%nat
       ∧ fetches (world_of (del_client client w)) = fetches w.
Proof.
  unfold del_client. destruct (clients w !! client_url client w); simpl.
  - by exists [EvDelClient (client_url client w)].
  - exists []. by rewrite app_nil_r.
Qed.


End Synchroniser.

(** ** Shutdown *)

Section Shutdown.

Context {Snapshot Delta : Type}.
Implicit Types (w : World Snapshot Delta).

(** [for url in self.clients.copy(): del self.clients[url]] over all the
    keys empties the registry. *)
Lemma delete_all_keys (l : list string) w :
  (∀ u, is_Some (clients w !! u) → u ∈ l) →
  clients (foldl (fun w u => set_clients (delete u) (emit (EvDelClient u) w)) w l)
    = ∅
  ∧ log (foldl (fun w u => set_clients (delete u) (emit (EvDelClient u) w)) w l)
    = (log w ++ map EvDelClient l)%list
  ∧ session (foldl (fun w u => set_clients (delete u) (emit (EvDelClient u) w)) w l)
    = session w
  ∧ objects (foldl (fun w u => set_clients (delete u) (emit (EvDelClient u) w)) w l)
    = objects w.
Proof.
  revert w. induction l as [|u l IH]; intros w Hall; simpl.
  - split; [|by rewrite app_nil_r].
    apply map_empty. intros k. apply eq_None_not_Some. intros Hk.
    specialize (Hall k Hk). by apply elem_of_nil in Hall.
  - destruct (IH (set_clients (delete u) (emit (EvDelClient u) w)))
      as (H1 & H2 & H3 & H4).
    + intros k Hk. simpl in Hk.
      destruct (decide (k = u)) as [->|Hne].
      * rewrite lookup_delete_eq in Hk. by destruct Hk.
      * rewrite lookup_delete_ne in Hk by done.
        specialize (Hall k Hk). apply elem_of_cons in Hall as [->|]; done.
    + rewrite H1, H2, H3, H4. simpl. by rewrite <- app_assoc.
Qed.

Lemma keys_cover (m : gmap string nat) u :
  is_Some (m !! u) → u ∈ (map_to_list m).*1.
Proof.
  intros [c Hc]. apply list_elem_of_fmap. exists (u, c). split; [done|].
  by apply elem_of_map_to_list.
Qed.

(** What [ws_close] does. *)
Lemma ws_close_spec closing interleaved w :
  let tasks := (map_to_list (clients w)).*2 in
  clients (ws_close closing interleaved w) = ∅
  ∧ (∃ dels,
       log (ws_close closing interleaved w)
       = (log w ++ map EvCreateCloseTask tasks
            ++ map (fun c => EvCloseDone c (closing c)) tasks
            ++ map EvDelClient dels)%list)
  ∧ session (ws_close closing interleaved w) = session w
  ∧ objects (ws_close closing interleaved w) = objects w.
Proof.
  intros tasks. unfold ws_close.
  destruct (decide (clients w = ∅)) as [He|Hne].
  - split; [done|]. split; [|done]. exists []. unfold tasks. rewrite He.
    rewrite map_to_list_empty. simpl. by rewrite app_nil_r.
  - fold tasks.
    set (w1 := foldl (fun w c => emit (EvCreateCloseTask c) w) w tasks).
    set (w2 := foldl (fun w c => emit (EvCloseDone c (closing c)) w) w1 tasks).
    set (w3 := set_clients interleaved w2).
    destruct (delete_all_keys (map_to_list (clients w3)).*1 w3) as (H1 & H2 & H3 & H4).
    { intros u. apply keys_cover. }
    split; [exact H1|]. split; [|split].
    + exists (map_to_list (clients w3)).*1. rewrite H2. unfold w3. simpl.
      unfold w2. rewrite foldl_emit_log. unfold w1. rewrite foldl_emit_log.
      by rewrite <- !app_assoc.
    + rewrite H3. unfold w3, w2, w1. simpl.
      destruct (foldl_emit_frame (fun c => EvCloseDone c (closing c)) tasks
                  (foldl (fun w c => emit (EvCreateCloseTask c) w) w tasks))
        as (_ & _ & _ & _ & _ & -> & _).
      by destruct (foldl_emit_frame EvCreateCloseTask tasks w)
        as (_ & _ & _ & _ & _ & -> & _).
    + rewrite H4. unfold w3, w2, w1. simpl.
      destruct (foldl_emit_frame (fun c => EvCloseDone c (closing c)) tasks
                  (foldl (fun w c => emit (EvCreateCloseTask c) w) w tasks))
        as (_ & -> & _).
      by destruct (foldl_emit_frame EvCreateCloseTask tasks w) as (_ & -> & _).
Qed.

(** C8. Whatever the registry holds, [ws_close] creates a close task for
    every registered client before it waits, has every one of those tasks
    done when the wait is over — whether the task's [close] failed or not —
    and leaves the registry empty; [close] releases the session only after
    that. *)
Theorem ws_close_closes_all self closing interleaved session_closing w :
  let tasks := (map_to_list (clients w)).*2 in
  let w' := ws_close closing interleaved w in
  let o := close self closing interleaved session_closing w in
  (∀ u c, clients w !! u = Some c → c ∈ tasks)
  ∧ clients w' = ∅
  ∧ (∃ dels,
       log w' = (log w ++ map EvCreateCloseTask tasks
                   ++ map (fun c => EvCloseDone c (closing c)) tasks
                   ++ map EvDelClient dels)%list)
  ∧ clients (world_of o) = ∅
  ∧ log (world_of o)
    = (log w' ++ if session w && own_session self then [EvSessionClose] else [])%list
  ∧ (session_closing = None → o = Returned (world_of o) ∧ session (world_of o) = false).
Proof.
  intros tasks w' o.
  destruct (ws_close_spec closing interleaved w) as (Hc & Hl & Hs & _).
  fold w' tasks in Hc, Hl, Hs.
  split.
  { intros u c Hu. unfold tasks. apply list_elem_of_fmap. exists (u, c).
    split; [done|]. by apply elem_of_map_to_list. }
  split; [exact Hc|]. split; [exact Hl|].
  unfold o, close. fold w'. rewrite Hs.
  destruct (session w) eqn:Hsess; simpl.
  - destruct (own_session self); simpl.
    + destruct session_closing; simpl; repeat split; done.
    + rewrite app_nil_r. repeat split; done.
  - rewrite app_nil_r. repeat split; done.
Qed.

End Shutdown.

(** ** REST fetch: which error leaves [fetch] *)

(** C9. The [except] clauses of [fetch], first match first: a DNS failure
    ([socket.gaierror]) leaves as [ExchangeNotAvailable]; otherwise a timeout
    leaves as [RequestTimeout]; otherwise a connection-level client error
    leaves as [ExchangeNotAvailable]; otherwise any other client error leaves
    as [ExchangeError]; each with the details [id method url]. *)
Theorem fetch_error_mapping self method url e :
  let details := join_sp [id self; method; url] in
  let timeout := isinstance e FuturesTimeoutError || isinstance e AsyncioTimeoutError in
  (isinstance e gaierror = true →
   fetch_except self method url e = new ExchangeNotAvailable details)
  ∧ (isinstance e gaierror = false → timeout = true →
     fetch_except self method url e = new RequestTimeout details)
  ∧ (isinstance e gaierror = false → timeout = false →
     isinstance e ClientConnectionError = true →
     fetch_except self method url e = new ExchangeNotAvailable details)
  ∧ (isinstance e gaierror = false → timeout = false →
     isinstance e ClientConnectionError = false →
     isinstance e ClientError = true →
     fetch_except self method url e = new ExchangeError details)
  ∧ (∀ Response (request : Exc + Response),
       request = inl e →
       fetch_try self method url request = inl (fetch_except self method url e)).
Proof.
  intros details timeout. unfold fetch_except. fold details. fold timeout.
  repeat split.
  - by intros ->.
  - by intros -> ->.
  - by intros -> -> ->.
  - by intros -> -> -> ->.
  - by intros Response request ->.
Qed.

(** ** The synchroniser and the router on the scenarios *)

Section Scenarios.

Import Venue Scenario.

Local Abbreviation mh := "orderbook:BTC/USDT".
Local Abbreviation sym := "BTC/USDT".

(** The resync scenario, run: one fetch, the reset, deltas 104 and 105, the
    clear, the resolution. *)
Example resync_run :
  log (world_of (load_order_book exchange resync 1 0%nat mh sym world))
  = [EvFetchOrderBook sym 0; EvReset sym (snapshot 103);
     EvHandleDelta sym (delta 104); EvHandleDelta sym (delta 105);
     EvCacheClear sym; EvResolve 0%nat mh (VBook sym)].
Proof. vm_compute. reflexivity. Qed.

(** The exhaustion scenario, run: three fetches, the rejection, the
    connection dropped. *)
Example gapped_run :
  log (world_of (load_order_book exchange gapped 3 0%nat mh sym world))
  = [EvFetchOrderBook sym 0; EvFetchOrderBook sym 1; EvFetchOrderBook sym 2;
     EvReject 0%nat mh
       (new ExchangeError "venue nonce is behind cache after 3 tries.");
     EvDelClient "wss://venue/ws"].
Proof. vm_compute. reflexivity. Qed.

(** C1, counterexample. A venue that finds the join point (index 3) but
    whose [handle_delta] raises: the first attempt resets the book, fails on
    the first delta, and the waiters are rejected; the cache is never
    cleared and nobody is resolved. So the statement without the proviso on
    [handle_delta] fails. *)
Lemma load_order_book_success_counterexample :
  ¬ (∀ (ad : Adapter Snap Dlt) (w0 w : World Snap Dlt) tries stored arrived
       order_book,
       reaches exchange ad 0%nat mh sym w0 tries stored w →
       (tries < handle_option exchange "watchOrderBook" "maxRetries" 3)%Z →
       fetch_order_book ad sym (fetches w) = (arrived, inr order_book) →
       (0 ≤ get_cache_index ad order_book (cache stored ++ arrived))%Z →
       ∃ w',
         (∃ gas0, ∀ gas, (gas0 ≤ gas)%nat →
            load_order_book exchange ad gas 0%nat mh sym w0 = Returned w')
         ∧ log w' =
             (log w
                ++ [EvFetchOrderBook sym (fetches w); EvReset sym order_book]
                ++ map (EvHandleDelta sym)
                     (slice_from
                        (get_cache_index ad order_book (cache stored ++ arrived))
                        (cache stored ++ arrived))
                ++ [EvCacheClear sym; EvResolve 0%nat mh (VBook sym)])%list).
Proof.
  intros H.
  destruct (H unhandled world world 0%Z (mkOrderBook (mkSnap 0 [] []) buffered)
              [] (snapshot 103))
    as (w' & [gas0 Hg] & Hlog).
  - apply reach_start. reflexivity.
  - reflexivity.
  - reflexivity.
  - vm_compute. discriminate.
  - specialize (Hg (gas0 `max` 10)%nat ltac:(lia)).
    assert (Hrun : load_order_book exchange unhandled 10 0%nat mh sym world
                   = Returned (world_of (load_order_book exchange unhandled 10
                                           0%nat mh sym world)))
      by (vm_compute; reflexivity).
    apply (call_mono exchange unhandled 0%nat mh sym 10 (gas0 `max` 10)%nat) in Hrun;
      [|lia|reflexivity].
    rewrite Hrun in Hg.
    assert (Hw : w' = world_of (load_order_book exchange unhandled 10 0%nat mh
                                  sym world)) by congruence.
    rewrite Hw in Hlog. vm_compute in Hlog. discriminate Hlog.
Qed.

(** C1, witness: the resync scenario. Five buffered deltas with nonces 101
    to 105 and a snapshot with nonce 103: the join point is index 3, deltas
    104 and 105 are applied, and the waiter is resolved with a book whose
    nonce is 105 and whose cache is empty. *)
Lemma load_order_book_success_witness :
  get_cache_index resync (snapshot 103) buffered = 3%Z
  ∧ ∃ w' book,
      (∃ gas0, ∀ gas, (gas0 ≤ gas)%nat →
         load_order_book exchange resync gas 0%nat mh sym world = Returned w')
      ∧ orderbooks w' !! sym = Some book
      ∧ nonce (ob_data book) = 105%Z
      ∧ cache book = []
      ∧ fstate w' !! 7%nat = Some (Resolved (VBook sym)).
Proof.
  split; [reflexivity|].
  destruct (load_order_book_success exchange resync 0%nat mh sym world 0%Z
              (mkOrderBook (mkSnap 0 [] []) buffered) world [] (snapshot 103)
              (mkOrderBook (mkSnap 105 [(100, 105); (99, 1)] [(101, 1)]) buffered)
              [delta 104; delta 105])%Z
    as (w' & Hcall & _ & _ & Hbook & _ & Hwait).
  - apply reach_start. reflexivity.
  - reflexivity.
  - reflexivity.
  - vm_compute. discriminate.
  - vm_compute. reflexivity.
  - exists w'. eexists. split; [exact Hcall|]. split; [exact Hbook|].
    split; [reflexivity|]. split; [reflexivity|].
    apply Hwait; reflexivity.
Defined.

(** C2, witness: the exhaustion scenario. Three snapshots in a row lie
    beyond every buffered delta. *)
Lemma load_order_book_exhausted_witness :
  ∃ o, (∃ gas0, ∀ gas, (gas0 ≤ gas)%nat →
          load_order_book exchange gapped gas 0%nat mh sym world = o)
       ∧ clients (world_of o) !! "wss://venue/ws" = None
       ∧ fstate (world_of o) !! 7%nat
         = Some (Rejected (new ExchangeError
                               "venue nonce is behind cache after 3 tries.")).
Proof.
  assert (Hreach :
    ∃ stored w, reaches exchange gapped 0%nat mh sym world 3 stored w
                ∧ objects w = objects world ∧ fstate w = fstate world).
  { eexists _, _. split.
    - change 3%Z with (0 + 1 + 1 + 1)%Z.
      eapply reach_behind; [eapply reach_behind; [eapply reach_behind;
        [apply reach_start; reflexivity|..]|..]|..];
        reflexivity.
    - split; reflexivity. }
  destruct Hreach as (stored & w & Hr & Ho & Hf).
  destruct (load_order_book_exhausted exchange gapped 0%nat mh sym world 3%Z
              stored w Hr ltac:(reflexivity))
    as (Hcall & _ & _ & Hwait & _ & _ & _ & _ & _ & Hgone & _).
  assert (Hurl : client_url 0%nat w = "wss://venue/ws").
  { unfold client_url. rewrite Ho. reflexivity. }
  eexists. split; [exact Hcall|]. split.
  - rewrite Hurl in Hgone. exact Hgone.
  - apply Hwait.
    + unfold futures_of. rewrite Ho. reflexivity.
    + rewrite Hf. reflexivity.
Defined.

(** C2, counterexample. After the exhaustion scenario the book of the
    symbol is the one the attempts left: the initial data and the five
    buffered deltas, none applied. A [watch] that follows makes a new
    client object for the url and leaves that book where it is: nothing
    builds a fresh one. *)
Lemma load_order_book_exhausted_counterexample :
  let o := load_order_book exchange gapped 3 0%nat mh sym world in
  let r := watch exchange None "wss://venue/ws" mh PNone None PNone (world_of o) in
  finished o = true
  ∧ clients (world_of o) !! "wss://venue/ws" = None
  ∧ clients r.2 !! "wss://venue/ws" = Some 1%nat
  ∧ orderbooks r.2 !! sym = Some (mkOrderBook (mkSnap 0 [] []) buffered)
  ∧ orderbooks r.2 = orderbooks world.
Proof. vm_compute. repeat split; reflexivity. Qed.

(** C7, witness: a symbol nobody subscribed to. *)
Lemma load_order_book_not_initiated_witness :
  orderbooks world !! "ETH/USDT" = None
  ∧ ∃ w', load_order_book exchange resync 0 0%nat mh "ETH/USDT" world
          = Returned w'
          ∧ fetches w' = 0%nat
          ∧ orderbooks w' = orderbooks world
          ∧ clients w' = clients world.
Proof.
  split; [reflexivity|].
  destruct (load_order_book_not_initiated exchange resync 0%nat mh "ETH/USDT"
              0%nat world eq_refl)
    as (w' & H1 & _ & H2 & H3 & H4 & _).
  exists w'. repeat split; assumption.
Defined.

Local Abbreviation ws := "wss://venue/ws".
Local Abbreviation key := "ETH/USDT@depth".
Local Abbreviation request := (PStr "{op:subscribe,channel:depth,symbol:ETH/USDT}").

Lemma world_registry_ok : registry_ok world.
Proof.
  intros u c Hu.
  change (({[ ws := 0%nat ]} : gmap string nat) !! u = Some c) in Hu.
  apply lookup_singleton_Some in Hu as [<- <-].
  eexists. split; reflexivity.
Qed.

(** C4, witness: a second watcher of the book that is being loaded. *)
Lemma watch_returns_existing_witness :
  watch exchange None ws mh PNone None PNone world = (7%nat, world).
Proof.
  apply (watch_returns_existing exchange None ws mh PNone PNone world 0%nat
           (mkClient ws {[ mh := 7%nat ]} ∅ true false) 7%nat);
    reflexivity.
Defined.

(** C5, witness: three watchers subscribe to the same depth channel. *)
Lemma watch_sends_once_witness :
  let again := (None, "orderbook:ETH/USDT", request, PNone) in
  let r1 := watch exchange None ws "orderbook:ETH/USDT" request (Some key) PNone
                  world in
  let w2 := watch_all exchange [again; again] ws key r1.2 in
  callbacks w2
  = (callbacks world
       ++ [mkAfter (client_of ws world).1 r1.1 request (Some key)])%list
  ∧ count is_send (log (fire exchange (fun _ => None) w2))
    = (count is_send (log world) + 1)%nat.
Proof.
  intros again r1 w2.
  destruct (watch_sends_once exchange ws key "orderbook:ETH/USDT" request
              PNone [again; again] world (fun _ => None)
              world_registry_ok) as [_ H].
  destruct (H eq_refl) as (H1 & _ & H3).
  split; [exact H1|]. apply H3; reflexivity.
Defined.



(** C9, witness: a DNS failure, a read timeout, a refused connection and a
    truncated payload. *)
Lemma fetch_error_mapping_witness :
  fetch_except exchange "GET" "https://venue/depth" dns_failure
  = new ExchangeNotAvailable "venue GET https://venue/depth"
  ∧ fetch_except exchange "GET" "https://venue/depth" server_timeout
    = new RequestTimeout "venue GET https://venue/depth"
  ∧ fetch_except exchange "GET" "https://venue/depth" connection_refused
    = new ExchangeNotAvailable "venue GET https://venue/depth"
  ∧ fetch_except exchange "GET" "https://venue/depth" bad_payload
    = new ExchangeError "venue GET https://venue/depth".
Proof.
  split; [|split; [|split]].
  - destruct (fetch_error_mapping exchange "GET" "https://venue/depth" dns_failure)
      as (H & _).
    apply H. reflexivity.
  - destruct (fetch_error_mapping exchange "GET" "https://venue/depth"
                server_timeout) as (_ & H & _).
    apply H; reflexivity.
  - destruct (fetch_error_mapping exchange "GET" "https://venue/depth"
                connection_refused) as (_ & _ & H & _).
    apply H; reflexivity.
  - destruct (fetch_error_mapping exchange "GET" "https://venue/depth"
                bad_payload) as (_ & _ & _ & H & _).
    apply H; reflexivity.
Defined.

End Scenarios.

(** * More of the code *)

(** ** [fetch_rest_order_book_safe]: the bounded retry *)

Section SafeFetch.

Context {Snapshot Delta : Type}.
Variables (self : Exchange) (ad : Adapter Snapshot Delta) (symbol : string).

Implicit Types (w : World Snapshot Delta).

Local Abbreviation maxRetries := (handle_option self "watchOrderBook" "maxRetries" 3).

Local Abbreviation fetch_fails := (fetch_fails ad symbol).

Lemma safe_attempts_S N todo i w :
  safe_attempts ad symbol N (S todo) i w =
  match (await_fetch ad symbol w).2 with
  | inr orderBook => ((await_fetch ad symbol w).1, inr (Some orderBook))
  | inl e =>
      if isinstance e Exception then
        if (i + 1 =? N)%Z then ((await_fetch ad symbol w).1, inl e)
        else safe_attempts ad symbol N todo (i + 1) (await_fetch ad symbol w).1
      else ((await_fetch ad symbol w).1, inl e)
  end.
Proof. simpl. by destruct (await_fetch ad symbol w) as [w' [e|ob]]. Qed.

Lemma await_fetch_fetches w :
  fetches (await_fetch ad symbol w).1 = S (fetches w).
Proof.
  unfold await_fetch. by destruct (fetch_order_book ad symbol (fetches w)).
Qed.

Lemma await_fetch_result w :
  (await_fetch ad symbol w).2 = (fetch_order_book ad symbol (fetches w)).2.
Proof.
  unfold await_fetch. by destruct (fetch_order_book ad symbol (fetches w)).
Qed.

Lemma safe_attempts_success N k todo i w arrived orderBook :
  (k < todo)%nat →
  (Z.of_nat todo + i = N)%Z →
  (∀ j, (j < k)%nat → fetch_fails (fetches w + j)) →
  fetch_order_book ad symbol (fetches w + k) = (arrived, inr orderBook) →
  (safe_attempts ad symbol N todo i w).2 = inr (Some orderBook)
  ∧ fetches (safe_attempts ad symbol N todo i w).1 = (fetches w + k + 1)%nat.
Proof.
  revert todo i w. induction k as [|k IH]; intros todo i w Hk Hinv Hfail Hok.
  - destruct todo as [|todo]; [lia|]. simpl.
    pose proof (await_fetch_fetches w) as Hf.
    pose proof (await_fetch_result w) as Hr.
    destruct (await_fetch ad symbol w) as [w' r]. simpl in *.
    rewrite Nat.add_0_r in Hok. rewrite Hok in Hr. simpl in Hr. subst r.
    simpl. split; [done|lia].
  - destruct todo as [|todo]; [lia|]. simpl.
    pose proof (await_fetch_fetches w) as Hf.
    pose proof (await_fetch_result w) as Hr.
    destruct (await_fetch ad symbol w) as [w' r]. simpl in *.
    destruct (Hfail 0%nat ltac:(lia)) as (arr & e & He & Hexc).
    rewrite Nat.add_0_r in He. rewrite He in Hr. simpl in Hr. subst r.
    rewrite Hexc.
    destruct (i + 1 =? N)%Z eqn:Hlast; [apply Z.eqb_eq in Hlast; lia|].
    destruct (IH todo (i + 1)%Z w') as [H1 H2].
    + lia.
    + lia.
    + intros j Hj. rewrite Hf.
      replace (S (fetches w) + j)%nat with (fetches w + S j)%nat by lia.
      apply Hfail. lia.
    + rewrite Hf.
      by replace (S (fetches w) + k)%nat with (fetches w + S k)%nat by lia.
    + split; [done|]. rewrite H2, Hf. lia.
Qed.

Lemma safe_attempts_all_fail N todo i w arrived last :
  (Z.of_nat (S todo) + i = N)%Z →
  (∀ j, (j < S todo)%nat → fetch_fails (fetches w + j)) →
  fetch_order_book ad symbol (fetches w + todo) = (arrived, inl last) →
  (safe_attempts ad symbol N (S todo) i w).2 = inl last
  ∧ fetches (safe_attempts ad symbol N (S todo) i w).1
    = (fetches w + S todo)%nat.
Proof.
  revert i w. induction todo as [|todo IH]; intros i w Hinv Hfail Hlast.
  - simpl.
    pose proof (await_fetch_fetches w) as Hf.
    pose proof (await_fetch_result w) as Hr.
    destruct (await_fetch ad symbol w) as [w' r]. simpl in *.
    destruct (Hfail 0%nat ltac:(lia)) as (arr & e & He & Hexc).
    rewrite Nat.add_0_r in He, Hlast. rewrite Hlast in He.
    injection He as _ <-. rewrite Hlast in Hr. simpl in Hr. subst r.
    rewrite Hexc.
    destruct (i + 1 =? N)%Z eqn:Hl; [|apply Z.eqb_neq in Hl; lia].
    simpl. split; [done|lia].
  - rewrite safe_attempts_S.
    pose proof (await_fetch_fetches w) as Hf.
    pose proof (await_fetch_result w) as Hr.
    destruct (await_fetch ad symbol w) as [w' r]. cbn [fst snd] in *.
    destruct (Hfail 0%nat ltac:(lia)) as (arr & e & He & Hexc).
    rewrite Nat.add_0_r in He. rewrite He in Hr. simpl in Hr. subst r.
    rewrite Hexc.
    destruct (i + 1 =? N)%Z eqn:Hl; [apply Z.eqb_eq in Hl; lia|].
    destruct (IH (i + 1)%Z w') as [H1 H2].
    + lia.
    + intros j Hj. rewrite Hf.
      replace (S (fetches w) + j)%nat with (fetches w + S j)%nat by lia.
      apply Hfail. lia.
    + rewrite Hf.
      by replace (S (fetches w) + todo)%nat with (fetches w + S todo)%nat by lia.
    + split; [done|]. rewrite H2, Hf. lia.
Qed.

Lemma safe_attempts_bounded N todo i w :
  (fetches w ≤ fetches (safe_attempts ad symbol N todo i w).1 ≤ fetches w + todo)%nat
  ∧ ((Z.of_nat todo + i = N)%Z →
     (safe_attempts ad symbol N todo i w).2 = inr None → todo = 0%nat).
Proof.
  revert i w. induction todo as [|todo IH]; intros i w; simpl.
  - split; [lia|done].
  - pose proof (await_fetch_fetches w) as Hf.
    destruct (await_fetch ad symbol w) as [w' [e|orderBook]]; simpl in *.
    + destruct (isinstance e Exception); simpl; [|split; [lia|done]].
      destruct (i + 1 =? N)%Z eqn:Hl; simpl; [split; [lia|done]|].
      destruct (IH (i + 1)%Z w') as [H1 H2]. split; [lia|].
      intros Hinv Hnone. apply Z.eqb_neq in Hl.
      specialize (H2 ltac:(lia) Hnone). lia.
    + split; [lia|done].
Qed.

(** X1. [fetch_rest_order_book_safe] returns the snapshot of the first fetch
    that does not raise, provided the fetches before it raised exceptions
    that [except Exception] catches and there were fewer than [maxRetries]
    of them; the failures leave no trace in the result, and the fetches
    made are exactly those. *)
Theorem fetch_rest_order_book_safe_returns_first w k arrived orderBook :
  (k < Z.to_nat maxRetries)%nat →
  (∀ j, (j < k)%nat → fetch_fails (fetches w + j)) →
  fetch_order_book ad symbol (fetches w + k) = (arrived, inr orderBook) →
  (fetch_rest_order_book_safe self ad symbol w).2 = inr (Some orderBook)
  ∧ fetches (fetch_rest_order_book_safe self ad symbol w).1
    = (fetches w + k + 1)%nat.
Proof.
  intros Hk Hfail Hok. unfold fetch_rest_order_book_safe.
  apply (safe_attempts_success _ k _ _ _ arrived); try done. lia.
Qed.

(** X2. When [maxRetries] fetches in a row raise, [fetch_rest_order_book_safe]
    raises the exception of the last one, whatever its class, after exactly
    [maxRetries] fetches: the earlier exceptions are dropped. *)
Theorem fetch_rest_order_book_safe_raises_last w arrived last :
  (0 < maxRetries)%Z →
  (∀ j, (j < Z.to_nat maxRetries)%nat → fetch_fails (fetches w + j)) →
  fetch_order_book ad symbol (fetches w + (Z.to_nat maxRetries - 1))
    = (arrived, inl last) →
  (fetch_rest_order_book_safe self ad symbol w).2 = inl last
  ∧ fetches (fetch_rest_order_book_safe self ad symbol w).1
    = (fetches w + Z.to_nat maxRetries)%nat.
Proof.
  intros Hpos Hfail Hlast. unfold fetch_rest_order_book_safe.
  destruct (Z.to_nat maxRetries) as [|todo] eqn:Hn; [lia|].
  apply (safe_attempts_all_fail _ todo _ _ arrived); try done; [lia|].
  by replace (fetches w + todo)%nat with (fetches w + (S todo - 1))%nat by lia.
Qed.

(** X3. Whatever the venue does, [fetch_rest_order_book_safe] makes at most
    [maxRetries] fetches, and it returns [None] exactly when [maxRetries] is
    not positive, in which case it fetches nothing and changes nothing. *)
Theorem fetch_rest_order_book_safe_bounded w :
  (fetches (fetch_rest_order_book_safe self ad symbol w).1
   ≤ fetches w + Z.to_nat maxRetries)%nat
  ∧ ((fetch_rest_order_book_safe self ad symbol w).2 = inr None
     ↔ (maxRetries ≤ 0)%Z)
  ∧ ((maxRetries ≤ 0)%Z → (fetch_rest_order_book_safe self ad symbol w).1 = w).
Proof.
  unfold fetch_rest_order_book_safe.
  destruct (safe_attempts_bounded maxRetries (Z.to_nat maxRetries) 0 w) as [H1 H2].
  split; [lia|]. split; [split|].
  - intros Hnone. destruct (Z_le_gt_dec maxRetries 0) as [|Hgt]; [done|].
    specialize (H2 ltac:(lia) Hnone). lia.
  - intros Hle. replace (Z.to_nat maxRetries) with 0%nat by lia. done.
  - intros Hle. replace (Z.to_nat maxRetries) with 0%nat by lia. done.
Qed.

End SafeFetch.

(** ** [load_order_book]: what escapes, what is left alone *)

Section SynchroniserFrames.

Context {Snapshot Delta : Type}.
Variables (self : Exchange) (ad : Adapter Snapshot Delta).
Variables (client : nat) (messageHash symbol : string).

Implicit Types (w : World Snapshot Delta) (stored : OrderBook Snapshot Delta).

Local Abbreviation maxRetries := (handle_option self "watchOrderBook" "maxRetries" 3).
Local Abbreviation loop := (attempts ad client messageHash symbol maxRetries).
Local Abbreviation call := (fun gas => load_order_book self ad gas client messageHash symbol).
Local Abbreviation only := (touches_only client messageHash symbol).

Lemma only_refl w : only w w.
Proof. repeat split; try done. by right. Qed.

Lemma only_trans w1 w2 w3 : only w1 w2 → only w2 w3 → only w1 w3.
Proof.
  intros (A1 & A2 & A3 & A4 & A5 & A6 & A7 & A8 & A9 & A10 & A11)
         (B1 & B2 & B3 & B4 & B5 & B6 & B7 & B8 & B9 & B10 & B11).
  repeat split.
  - intros s Hs. by rewrite B1, A1.
  - intros u Hu. rewrite B2, A2; [done..|]. by rewrite A5.
  - intros u Hu. apply B3. by apply A3.
  - intros c Hc. by rewrite B4, A4.
  - by rewrite B5.
  - by rewrite B6.
  - intros mh Hmh. by rewrite B7, A7.
  - destruct B8 as [B8|B8]; [by left|]. rewrite B8. exact A8.
  - intros f Hf. rewrite B9, A9; [done..|].
    destruct A8 as [A8|A8]; rewrite A8; [done|exact Hf].
  - by rewrite B10.
  - by rewrite B11.
Qed.

(** The primitive steps. *)
Lemma only_emit ev w : only w (emit ev w).
Proof. repeat split; try done. by right. Qed.

Lemma only_tick w : only w (tick_fetches w).
Proof. repeat split; try done. by right. Qed.

Lemma only_store ob w : only w (store symbol ob w).
Proof.
  repeat split; try done; [|by right].
  intros s Hs. simpl. by rewrite lookup_insert_ne.
Qed.

Lemma only_emits {A} (ev : A → Event Snapshot Delta) (l : list A) w :
  only w (foldl (fun w x => emit (ev x) w) w l).
Proof.
  revert w. induction l as [|x l IH]; intros w; simpl; [apply only_refl|].
  eapply only_trans; [apply (only_emit (ev x))|apply IH].
Qed.

Lemma only_complete st w : only w (complete client messageHash st w).
Proof.
  unfold complete.
  destruct (objects w !! client) as [c|] eqn:Hc; [|apply only_refl].
  destruct (futures c !! messageHash) as [f|] eqn:Hf; [|apply only_refl].
  unfold touches_only, client_url, subscriptions_of, futures_of. simpl.
  rewrite Hc, !lookup_insert_eq. simpl. repeat split; try done.
  - intros c' Hc'. by rewrite lookup_insert_ne.
  - intros mh Hmh. by rewrite lookup_delete_ne.
  - left. apply lookup_delete_eq.
  - intros f' Hf'. rewrite Hf in Hf'. unfold settle.
    destruct (fstate w !! f) as [[| |]|]; try done.
    rewrite lookup_insert_ne; [done|]. intros ->. by apply Hf'.
Qed.

Lemma only_reject e w : only w (client_reject client e messageHash w).
Proof.
  unfold client_reject.
  eapply only_trans; [apply (only_emit (EvReject client messageHash e))|].
  apply only_complete.
Qed.

Lemma only_resolve v w : only w (client_resolve client v messageHash w).
Proof.
  unfold client_resolve.
  eapply only_trans; [apply (only_emit (EvResolve client messageHash v))|].
  apply only_complete.
Qed.

Lemma only_del_client w : only w (world_of (del_client client w)).
Proof.
  unfold del_client.
  destruct (clients w !! client_url client w) eqn:Hc; simpl; [|apply only_refl].
  repeat split; try done; [| |by right].
  - intros u Hu. simpl. by rewrite lookup_delete_ne.
  - intros u Hu. simpl. destruct (decide (u = client_url client w)) as [->|Hne].
    + apply lookup_delete_eq.
    + by rewrite lookup_delete_ne.
Qed.

Lemma only_loop gas tries stored w :
  only w (loop_world (loop gas tries stored w)).
Proof.
  revert tries stored w. induction gas as [|gas IH]; intros tries stored w; simpl.
  - destruct (tries <? maxRetries)%Z; apply only_refl.
  - destruct (tries <? maxRetries)%Z; [|apply only_refl].
    destruct (fetch_order_book ad symbol (fetches w)) as [arrived [e|order_book]].
    { simpl. eapply only_trans; [apply only_emit|].
      eapply only_trans; [apply only_tick|apply only_store]. }
    assert (H1 : only w
              (store symbol (mkOrderBook (ob_data stored) (cache stored ++ arrived))
                 (tick_fetches (emit (EvFetchOrderBook symbol (fetches w)) w)))).
    { eapply only_trans; [apply only_emit|].
      eapply only_trans; [apply only_tick|apply only_store]. }
    destruct (0 <=? _)%Z.
    + destruct (handle_deltas _ _ _) as [[ob called] raised].
      assert (H2 : only w
                (store symbol ob
                   (foldl (fun w d => emit (EvHandleDelta symbol d) w)
                      (store symbol
                         (reset (mkOrderBook (ob_data stored) (cache stored ++ arrived))
                                order_book)
                         (emit (EvReset symbol order_book)
                            (store symbol
                               (mkOrderBook (ob_data stored) (cache stored ++ arrived))
                               (tick_fetches
                                  (emit (EvFetchOrderBook symbol (fetches w)) w)))))
                      called))).
      { eapply only_trans; [exact H1|].
        eapply only_trans; [apply only_emit|].
        eapply only_trans; [apply only_store|].
        eapply only_trans; [apply (only_emits (EvHandleDelta symbol) called)|
                            apply only_store]. }
      destruct raised as [e|]; simpl; [exact H2|].
      eapply only_trans; [exact H2|].
      eapply only_trans; [apply only_emit|].
      eapply only_trans; [apply only_store|apply only_resolve].
    + eapply only_trans; [exact H1|apply IH].
Qed.

(** X4. A call of [load_order_book], however it ends and however long it
    runs, leaves alone the books of the other symbols, the other clients,
    the client's subscriptions and its Futures under other message hashes,
    the registered callbacks and the session; the registry can only lose
    the entry of the client's url, and the only Future it completes is the
    one registered under the message hash when the call started. *)
Theorem load_order_book_touches_only gas w :
  touches_only client messageHash symbol w (world_of (call gas w)).
Proof.
  revert w. induction gas as [|gas IH]; intros w; rewrite call_unfold.
  - destruct (orderbooks w !! symbol) as [stored|]; [|apply only_reject].
    pose proof (only_loop 0 0 stored w) as Hl.
    destruct (loop 0 0 stored w) as [w'|w'|e w'|w']; cbn [conclude loop_world] in *;
      try exact Hl.
    + eapply only_trans; [exact Hl|].
      eapply only_trans; [apply only_reject|apply only_del_client].
    + destruct (isinstance e BaseError); simpl; [|exact Hl].
      eapply only_trans; [exact Hl|apply only_reject].
  - destruct (orderbooks w !! symbol) as [stored|]; [|apply only_reject].
    pose proof (only_loop (S gas) 0 stored w) as Hl.
    destruct (loop (S gas) 0 stored w) as [w'|w'|e w'|w']; cbn [conclude loop_world] in *;
      try exact Hl.
    + eapply only_trans; [exact Hl|].
      eapply only_trans; [apply only_reject|apply only_del_client].
    + destruct (isinstance e BaseError); simpl; [|exact Hl].
      eapply only_trans; [exact Hl|].
      eapply only_trans; [apply only_reject|apply IH].
Qed.

(** What an attempt that raises has done by then: no Future was completed,
    no client touched. *)
Lemma loop_raise_untouched tries stored w e w1 :
  loop 1 tries stored w = LRaise e w1 →
  objects w1 = objects w ∧ fstate w1 = fstate w ∧ clients w1 = clients w
  ∧ fetches w1 = S (fetches w).
Proof.
  simpl. destruct (tries <? maxRetries)%Z; [|done].
  destruct (fetch_order_book ad symbol (fetches w)) as [arrived [e'|order_book]].
  - by intros [= <- <-].
  - destruct (0 <=? _)%Z.
    + destruct (handle_deltas _ _ _) as [[ob called] [e'|]]; [|done].
      intros [= <- <-]. simpl.
      match goal with |- context [foldl ?f ?x called] =>
        destruct (foldl_emit_frame (EvHandleDelta symbol) called x)
          as (-> & -> & -> & _ & _ & _ & ->) end.
      done.
    + destruct (_ <? _)%Z; done.
Qed.

(** X5. When an attempt raises an exception that is not a [BaseError], the
    call ends with that exception at once: nobody is rejected, nothing is
    retried, and the Futures waiting on the client are as they were when the
    attempt started. *)
Theorem load_order_book_propagates w0 tries stored w e w1 :
  reaches self ad client messageHash symbol w0 tries stored w →
  loop 1 tries stored w = LRaise e w1 →
  isinstance e BaseError = false →
  (∃ gas0, ∀ gas, (gas0 ≤ gas)%nat → call gas w0 = Raised e w1)
  ∧ fstate w1 = fstate w
  ∧ objects w1 = objects w
  ∧ fetches w1 = S (fetches w)
  ∧ (∃ l, log w1 = (log w ++ l)%list ∧ count is_reject l = 0%nat).
Proof.
  intros Hr Hl He.
  destruct (loop_raise_untouched _ _ _ _ _ Hl) as (Ho & Hf & _ & Hfe).
  split; [|split; [done|split; [done|split; [done|]]]].
  - destruct (reaches_forward _ _ _ _ _ _ _ _ _ Hr 1%nat (Raised e w1)) as [gas0 Hg].
    { rewrite Hl. cbn [conclude]. by rewrite He. }
    { done. }
    exists gas0. intros gas Hle.
    by apply (call_mono self ad client messageHash symbol gas0 gas).
  - destruct (loop_counts self ad client messageHash symbol 1 tries stored w)
      as (l & Hlog & _ & _ & Hj & _).
    rewrite Hl in Hlog. by exists l.
Qed.

(** X6. When the retries are used up and the client's url is no longer in
    the registry, the waiters are still rejected with the nonce-gap error,
    and then [del self.clients[client.url]] raises [KeyError], which leaves
    the call. *)
Theorem load_order_book_exhausted_unregistered w0 tries stored w :
  reaches self ad client messageHash symbol w0 tries stored w →
  (maxRetries ≤ tries)%Z →
  clients w !! client_url client w = None →
  let e := new ExchangeError
             (id self +:+ " nonce is behind cache after "
                +:+ str maxRetries +:+ " tries.") in
  let w1 := client_reject client e messageHash w in
  (∃ gas0, ∀ gas, (gas0 ≤ gas)%nat →
     call gas w0 = Raised (new KeyError (client_url client w)) w1)
  ∧ log w1 = (log w ++ [EvReject client messageHash e])%list
  ∧ (∀ f, futures_of client w !! messageHash = Some f →
          fstate w !! f = Some Pending →
          fstate w1 !! f = Some (Rejected e)).
Proof.
  intros Hr Ht Hnone e w1.
  assert (Hloop : ∀ gas, loop gas tries stored w = LExhausted w).
  { intros gas. apply Z.ltb_ge in Ht. destruct gas; simpl; by rewrite Ht. }
  assert (Hdel : del_client client w1 = Raised (new KeyError (client_url client w)) w1).
  { unfold del_client.
    destruct (only_reject e w) as (_ & _ & H3 & _ & H5 & _).
    fold w1 in H3, H5. rewrite H5. by rewrite (H3 _ Hnone). }
  split; [|split].
  - destruct (reaches_forward _ _ _ _ _ _ _ _ _ Hr 0%nat
                (Raised (new KeyError (client_url client w)) w1)) as [gas0 Hg].
    { rewrite Hloop. cbn [conclude]. exact Hdel. }
    { done. }
    exists gas0. intros gas Hle.
    by apply (call_mono self ad client messageHash symbol gas0 gas).
  - apply client_reject_log.
  - intros f Hf Hp. unfold w1, client_reject.
    by apply (complete_waiter client messageHash (Rejected e)
                (emit (EvReject client messageHash e) w) f).
Qed.

End SynchroniserFrames.

(** ** Cycles: what follows the rejection of a failed attempt *)

Section Cycles.

Context {Snapshot Delta : Type}.
Variables (self : Exchange) (ad : Adapter Snapshot Delta).
Variables (client : nat) (messageHash symbol : string).

Implicit Types (w : World Snapshot Delta).

Local Abbreviation maxRetries := (handle_option self "watchOrderBook" "maxRetries" 3).
Local Abbreviation loop := (attempts ad client messageHash symbol maxRetries).
Local Abbreviation call := (fun gas => load_order_book self ad gas client messageHash symbol).
Local Abbreviation ending := (fun gas => conclude self ad gas client messageHash symbol).
Local Abbreviation only := (touches_only client messageHash symbol).







End Cycles.

(** ** Cycles without a ceiling: the recursion limit *)

Section RecursionLimit.

Context {Snapshot Delta : Type}.
Variables (self : Exchange) (ad : Adapter Snapshot Delta).
Variables (client : nat) (messageHash symbol : string).

Implicit Types (w : World Snapshot Delta).

Local Abbreviation maxRetries := (handle_option self "watchOrderBook" "maxRetries" 3).
Local Abbreviation loop := (attempts ad client messageHash symbol maxRetries).
Local Abbreviation call := (fun gas => load_order_book self ad gas client messageHash symbol).
Local Abbreviation within :=
  (fun depth => load_order_book_within self ad depth client messageHash symbol).
Local Abbreviation not_initiated :=
  (new ExchangeError (id self +:+ " loadOrderBook() orderbook is not initiated")).
Local Abbreviation nonce_gap :=
  (new ExchangeError
       (id self +:+ " nonce is behind cache after " +:+ str maxRetries +:+ " tries.")).

(** The loop of one call ends within [maxRetries] iterations. *)
Lemma cycle_done stored w :
  loop_done (loop (Z.to_nat maxRetries) 0 stored w) = true.
Proof.
  destruct (loop_counts self ad client messageHash symbol (Z.to_nat maxRetries) 0
              stored w) as (l & _ & _ & _ & _ & Hg).
  destruct (loop_done _) eqn:Hd; [done|].
  specialize (Hg eq_refl). rewrite Z.sub_0_r in Hg. lia.
Qed.

Lemma within_unfold depth w :
  within depth w =
  match orderbooks w !! symbol with
  | None => Returned (client_reject client not_initiated messageHash w)
  | Some stored =>
      match loop (Z.to_nat maxRetries) 0 stored w with
      | LReturn w' => Returned w'
      | LExhausted w' =>
          del_client client (client_reject client nonce_gap messageHash w')
      | LRaise e w' =>
          if isinstance e BaseError then
            match depth with
            | O => Raised recursion_error (client_reject client e messageHash w')
            | S depth' => within depth' (client_reject client e messageHash w')
            end
          else Raised e w'
      | LGas w' => OutOfGas w'
      end
  end.
Proof. destruct depth; reflexivity. Qed.

(** A call under the recursion limit, counted: it always ends, after at
    most [depth + 1] cycles of at most [maxRetries] fetches each. *)
Lemma within_counts depth w :
  finished (within depth w) = true
  ∧ ∃ l, log (world_of (within depth w)) = (log w ++ l)%list
      ∧ fetches (world_of (within depth w)) = (fetches w + count is_fetch l)%nat
      ∧ (count is_fetch l ≤ Z.to_nat maxRetries * (1 + count is_reject l))%nat
      ∧ (count is_reject l ≤ depth + 1)%nat
      ∧ (count is_fetch l ≤ Z.to_nat maxRetries * (depth + 1))%nat.
Proof.
  revert w. induction depth as [|depth IH]; intros w; rewrite within_unfold.
  all: destruct (orderbooks w !! symbol) as [stored|];
    [|split; [done|]; eexists [_]; simpl; rewrite client_reject_log;
      destruct (client_reject_frame client not_initiated messageHash w)
        as (_ & _ & _ & _ & ->);
      split; [reflexivity|]; rewrite !count_single; simpl;
      repeat split; try done; lia].
  all: pose proof (cycle_done stored w) as Hdone;
    destruct (loop_counts self ad client messageHash symbol (Z.to_nat maxRetries) 0
                stored w) as (l & Hl & Hfe & Hb & Hj & _);
    rewrite Z.sub_0_r in Hb;
    destruct (loop (Z.to_nat maxRetries) 0 stored w) as [w'|w'|e w'|w'];
    cbn [loop_world loop_done] in Hl, Hfe, Hdone; [| | |done].
  - split; [done|]. exists l. simpl. repeat split; try done; lia.
  - match goal with |- context [del_client client ?x] =>
      destruct (del_client_log client x) as (l2 & Hl2 & Hf2 & Hj2 & Hfe2);
      pose proof (del_client_finished client x) as Hfin end.
    split; [done|].
    rewrite client_reject_log in Hl2.
    destruct (client_reject_frame client nonce_gap messageHash w')
      as (_ & _ & _ & _ & Hfr).
    rewrite Hfr in Hfe2.
    eexists (l ++ [_] ++ l2)%list. rewrite Hl2, Hl, Hfe2, Hfe.
    rewrite !count_app, Hf2, Hj2. rewrite <- !app_assoc.
    split; [reflexivity|]. rewrite !count_single. simpl.
    repeat split; try done; lia.
  - destruct (isinstance e BaseError); [|split; [done|]; exists l; simpl;
                                           repeat split; try done; lia].
    split; [done|]. simpl.
    destruct (client_reject_frame client e messageHash w') as (_ & _ & _ & _ & Hfr).
    eexists (l ++ [_])%list. rewrite client_reject_log, Hl, Hfr, Hfe.
    rewrite <- app_assoc. split; [reflexivity|].
    rewrite !count_app, !count_single. simpl.
    repeat split; try done; lia.
  - split; [done|]. exists l. simpl. repeat split; try done; lia.
  - match goal with |- context [del_client client ?x] =>
      destruct (del_client_log client x) as (l2 & Hl2 & Hf2 & Hj2 & Hfe2);
      pose proof (del_client_finished client x) as Hfin end.
    split; [done|].
    rewrite client_reject_log in Hl2.
    destruct (client_reject_frame client nonce_gap messageHash w')
      as (_ & _ & _ & _ & Hfr).
    rewrite Hfr in Hfe2.
    eexists (l ++ [_] ++ l2)%list. rewrite Hl2, Hl, Hfe2, Hfe.
    rewrite !count_app, Hf2, Hj2. rewrite <- !app_assoc.
    split; [reflexivity|]. rewrite !count_single. simpl.
    repeat split; try done; lia.
  - destruct (isinstance e BaseError); [|split; [done|]; exists l; simpl;
                                           repeat split; try done; lia].
    destruct (IH (client_reject client e messageHash w'))
      as (Hfin & l2 & Hl2 & Hfe2 & Hb2 & Hr2 & Hd2).
    split; [done|].
    rewrite client_reject_log in Hl2.
    destruct (client_reject_frame client e messageHash w') as (_ & _ & _ & _ & Hfr).
    rewrite Hfr in Hfe2.
    exists (l ++ [EvReject client messageHash e] ++ l2)%list.
    rewrite Hl2, Hl, Hfe2, Hfe. rewrite !count_app. rewrite <- !app_assoc.
    rewrite !count_single. simpl.
    repeat split; try done; lia.
Qed.

(** Where the recursion limit is not reached the call under the limit is
    the call. *)
Lemma within_agrees gas w o depth :
  call gas w = o → finished o = true → (gas ≤ depth)%nat → within depth w = o.
Proof.
  revert w o depth. induction gas as [|gas IH]; intros w o depth Hc Hf Hle;
    rewrite (call_unfold self ad client messageHash symbol) in Hc;
    rewrite within_unfold;
    (destruct (orderbooks w !! symbol) as [stored|]; [|done]).
  all: pose proof (ending_done self ad client messageHash symbol _ _ _ Hc Hf) as Hd;
    pose proof (cycle_done stored w) as Hd'.
  - assert (Heq : loop 0 0 stored w = loop (Z.to_nat maxRetries) 0 stored w).
    { pose proof (loop_mono self ad client messageHash symbol (Z.to_nat maxRetries)
                    (0 `max` Z.to_nat maxRetries) 0 stored w _ ltac:(lia) eq_refl Hd')
        as Hm.
      pose proof (loop_mono self ad client messageHash symbol 0
                    (0 `max` Z.to_nat maxRetries) 0 stored w _ ltac:(lia) eq_refl Hd)
        as Hm'.
      congruence. }
    rewrite Heq in Hc.
    destruct (loop (Z.to_nat maxRetries) 0 stored w) as [w'|w'|e w'|w'];
      cbn [conclude] in Hc; try done.
    destruct (isinstance e BaseError); [|done].
    subst o. discriminate.
  - assert (Heq : loop (S gas) 0 stored w = loop (Z.to_nat maxRetries) 0 stored w).
    { pose proof (loop_mono self ad client messageHash symbol (Z.to_nat maxRetries)
                    (S gas `max` Z.to_nat maxRetries) 0 stored w _ ltac:(lia) eq_refl Hd')
        as Hm.
      pose proof (loop_mono self ad client messageHash symbol (S gas)
                    (S gas `max` Z.to_nat maxRetries) 0 stored w _ ltac:(lia) eq_refl Hd)
        as Hm'.
      congruence. }
    rewrite Heq in Hc.
    destruct (loop (Z.to_nat maxRetries) 0 stored w) as [w'|w'|e w'|w'];
      cbn [conclude] in Hc; try done.
    destruct (isinstance e BaseError); [|done].
    destruct depth as [|depth]; [lia|].
    apply (IH _ _ depth Hc Hf). lia.
Qed.

(** When every snapshot fetch raises a base error, every cycle is one fetch
    and one rejection, and the cycles go on until the interpreter stops
    them. *)
Lemma within_all_fail depth w :
  (0 < maxRetries)%Z →
  is_Some (orderbooks w !! symbol) →
  every_fetch_fails ad symbol →
  ∃ w', within depth w = Raised recursion_error w'
    ∧ fetches w' = (fetches w + depth + 1)%nat
    ∧ ∃ l, log w' = (log w ++ l)%list
        ∧ count is_reject l = (depth + 1)%nat.
Proof.
  intros Hmax Hbook Hfail. revert w Hbook.
  assert (Hcycle : ∀ stored w, ∃ e,
            loop (Z.to_nat maxRetries) 0 stored w
            = LRaise e (store symbol
                          (mkOrderBook (ob_data stored)
                             (cache stored
                                ++ (fetch_order_book ad symbol (fetches w)).1)%list)
                          (tick_fetches
                             (emit (EvFetchOrderBook symbol (fetches w)) w)))
            ∧ isinstance e BaseError = true).
  { intros stored w. destruct (Z.to_nat maxRetries) as [|n] eqn:Hn; [lia|].
    simpl. apply Z.ltb_lt in Hmax. rewrite Hmax.
    destruct (Hfail (fetches w)) as (arrived & e & Hf & He).
    rewrite Hf. by exists e. }
  induction depth as [|depth IH]; intros w [stored Hs]; rewrite within_unfold, Hs;
    destruct (Hcycle stored w) as (e & -> & ->).
  - eexists. split; [reflexivity|].
    destruct (client_reject_frame client e messageHash
                (store symbol
                   (mkOrderBook (ob_data stored)
                      (cache stored ++ (fetch_order_book ad symbol (fetches w)).1)%list)
                   (tick_fetches (emit (EvFetchOrderBook symbol (fetches w)) w))))
      as (_ & _ & _ & _ & ->).
    split; [simpl; lia|].
    rewrite client_reject_log. simpl. rewrite <- app_assoc. eexists.
    split; [reflexivity|]. reflexivity.
  - match goal with
    |- context [load_order_book_within self ad depth client messageHash symbol ?x] =>
      destruct (IH x) as (w' & Hw & Hfe & l & Hl & Hc) end.
    { destruct (client_reject_frame client e messageHash
                  (store symbol
                     (mkOrderBook (ob_data stored)
                        (cache stored ++ (fetch_order_book ad symbol (fetches w)).1)%list)
                     (tick_fetches (emit (EvFetchOrderBook symbol (fetches w)) w))))
        as (_ & -> & _).
      simpl. rewrite lookup_insert_eq. by eexists. }
    exists w'. split; [exact Hw|].
    destruct (client_reject_frame client e messageHash
                (store symbol
                   (mkOrderBook (ob_data stored)
                      (cache stored ++ (fetch_order_book ad symbol (fetches w)).1)%list)
                   (tick_fetches (emit (EvFetchOrderBook symbol (fetches w)) w))))
      as (_ & _ & _ & _ & Hfr).
    rewrite Hfr in Hfe. simpl in Hfe. split; [lia|].
    rewrite client_reject_log in Hl. simpl in Hl. rewrite <- !app_assoc in Hl.
    eexists. split; [exact Hl|].
    rewrite (count_app is_reject [_] (_ ++ l)).
    rewrite (count_app is_reject [_] l), !count_single. simpl. lia.
Qed.

(** C3, as amended. One attempt cycle of a call makes at most
    [maxRetries] fetches and rejects nobody. A base error raised by an
    attempt ends the cycle with one rejection and starts a fresh cycle by a
    nested call; no count is kept across the cycles, so their number is
    capped by the recursion limit of the interpreter alone. With room for
    [depth] nested calls a call always ends, after at most [depth + 1]
    rejections and [maxRetries * (depth + 1)] fetches, and it ends as the
    call without a limit ends whenever that one ends within [depth] nested
    calls. When every snapshot fetch raises a base error the call makes
    exactly [depth + 1] fetches and ends with [RecursionError], which is not
    a base error: the retry code itself has no ceiling. *)
Theorem load_order_book_fetch_bound depth w :
  let o := within depth w in
  (∀ stored,
     loop_done (loop (Z.to_nat maxRetries) 0 stored w) = true
     ∧ ∃ l, log (loop_world (loop (Z.to_nat maxRetries) 0 stored w))
            = (log w ++ l)%list
         ∧ (count is_fetch l ≤ Z.to_nat maxRetries)%nat
         ∧ count is_reject l = 0%nat)
  ∧ finished o = true
  ∧ (∃ l, log (world_of o) = (log w ++ l)%list
       ∧ fetches (world_of o) = (fetches w + count is_fetch l)%nat
       ∧ (count is_fetch l ≤ Z.to_nat maxRetries * (1 + count is_reject l))%nat
       ∧ (count is_reject l ≤ depth + 1)%nat
       ∧ (count is_fetch l ≤ Z.to_nat maxRetries * (depth + 1))%nat)
  ∧ (∀ gas o', (gas ≤ depth)%nat → call gas w = o' → finished o' = true → o = o')
  ∧ ((0 < maxRetries)%Z → is_Some (orderbooks w !! symbol) →
     every_fetch_fails ad symbol →
     ∃ w', o = Raised recursion_error w'
       ∧ fetches w' = (fetches w + depth + 1)%nat
       ∧ isinstance recursion_error BaseError = false).
Proof.
  intros o. split; [|split; [|split; [|split]]].
  - intros stored. split; [apply cycle_done|].
    destruct (loop_counts self ad client messageHash symbol (Z.to_nat maxRetries) 0
                stored w) as (l & Hl & _ & Hb & Hj & _).
    rewrite Z.sub_0_r in Hb. exists l. by repeat split.
  - apply within_counts.
  - apply within_counts.
  - intros gas o' Hle Hc Hf. by apply (within_agrees gas).
  - intros Hmax Hbook Hfail.
    destruct (within_all_fail depth w Hmax Hbook Hfail) as (w' & Hw & Hfe & _).
    exists w'. by repeat split.
Qed.

End RecursionLimit.

(** ** [handle_deltas]: order and the first failure *)

Section Deltas.

Context {Snapshot Delta : Type}.
Variable ad : Adapter Snapshot Delta.

Implicit Types (ob : OrderBook Snapshot Delta) (deltas : list Delta).

(** The book after [handle_delta] on each of [deltas] in turn. *)
Local Abbreviation applied :=
  (foldl (fun b d => (handle_delta ad b d).1)).

Lemma handle_deltas_steps ob deltas :
  match handle_deltas ad ob deltas with
  | (ob', called, None) =>
      called = deltas
      ∧ ob' = applied ob deltas
      ∧ ∀ pre d post, deltas = (pre ++ d :: post)%list →
          (handle_delta ad (applied ob pre) d).2 = None
  | (ob', called, Some e) =>
      ∃ pre d post,
        deltas = (pre ++ d :: post)%list
        ∧ called = (pre ++ [d])%list
        ∧ (∀ pre' d' post', pre = (pre' ++ d' :: post')%list →
             (handle_delta ad (applied ob pre') d').2 = None)
        ∧ handle_delta ad (applied ob pre) d = (ob', Some e)
  end.
Proof.
  revert ob. induction deltas as [|d deltas IH]; intros ob; simpl.
  - split; [done|]. split; [done|]. intros [|x pre] d post Heq; done.
  - destruct (handle_delta ad ob d) as [ob1 [e|]] eqn:Hd.
    + exists [], d, deltas. simpl. repeat split; try done.
      intros [|x pre'] d' post' Heq; done.
    + specialize (IH ob1).
      destruct (handle_deltas ad ob1 deltas) as [[ob2 called] [e|]].
      * destruct IH as (pre & d0 & post & -> & -> & Hpre & Hd0).
        exists (d :: pre), d0, post. simpl. rewrite Hd. simpl.
        repeat split; try done.
        intros [|x pre'] d' post' Heq; simpl in *.
        -- injection Heq as <- _. by rewrite Hd.
        -- injection Heq as <- ->. rewrite Hd. simpl. by eapply Hpre.
      * destruct IH as (-> & -> & Hall). simpl.
        split; [done|]. split; [done|].
        intros [|x pre] d0 post Heq; simpl in *.
        -- injection Heq as <- _. by rewrite Hd.
        -- injection Heq as <- ->. rewrite Hd. simpl. by eapply Hall.
Qed.

(** X7. [handle_deltas] calls [handle_delta] on the deltas in list order,
    each on the book as the one before left it, and stops at the first call
    that raises. When nothing is raised, [handle_delta] was called on every
    delta, none of the calls raised, and the book is the one the calls
    produce in turn. When [e] is raised, the list splits at the delta [d]
    whose call raised [e]: [handle_delta] was called on the deltas before
    it, none of which raised, and on [d], and on nothing after it; the book
    is as the call on [d] left it. Handling [l1 ++ l2] is handling [l1] and
    then, unless that raised, [l2] on the book as [l1] left it. *)
Theorem handle_deltas_in_order ob l1 l2 :
  (∀ deltas,
     match handle_deltas ad ob deltas with
     | (ob', called, None) =>
         called = deltas
         ∧ ob' = applied ob deltas
         ∧ ∀ pre d post, deltas = (pre ++ d :: post)%list →
             (handle_delta ad (applied ob pre) d).2 = None
     | (ob', called, Some e) =>
         ∃ pre d post,
           deltas = (pre ++ d :: post)%list
           ∧ called = (pre ++ [d])%list
           ∧ (∀ pre' d' post', pre = (pre' ++ d' :: post')%list →
                (handle_delta ad (applied ob pre') d').2 = None)
           ∧ handle_delta ad (applied ob pre) d = (ob', Some e)
     end)
  ∧ handle_deltas ad ob (l1 ++ l2) =
    match handle_deltas ad ob l1 with
    | (ob1, called1, Some e) => (ob1, called1, Some e)
    | (ob1, called1, None) =>
        let '(ob2, called2, r) := handle_deltas ad ob1 l2 in
        (ob2, (called1 ++ called2)%list, r)
    end.
Proof.
  split; [intros deltas; apply handle_deltas_steps|].
  revert ob. induction l1 as [|d l1 IH]; intros ob; simpl.
  - by destruct (handle_deltas ad ob l2) as [[ob2 called2] r].
  - destruct (handle_delta ad ob d) as [ob1 [e|]] eqn:Hd; [done|].
    rewrite IH.
    destruct (handle_deltas ad ob1 l1) as [[ob1' called1] [e|]]; [done|].
    by destruct (handle_deltas ad ob1' l2) as [[ob2 called2] r].
Qed.

End Deltas.

(** ** The router: the invariants [watch] keeps *)

Section RouterInvariants.

Context {Snapshot Delta : Type}.
Implicit Types (w : World Snapshot Delta).

Lemma settle_live f s (h : gmap nat FutState) g :
  is_Some (settle f s h !! g) ↔ is_Some (h !! g).
Proof.
  unfold settle. destruct (h !! f) as [[| |]|] eqn:Hf; try done.
  destruct (decide (g = f)) as [->|Hne].
  - rewrite lookup_insert_eq, Hf. split; by eexists.
  - by rewrite lookup_insert_ne.
Qed.

(** [client.future] in full: the Future handed out is registered under the
    hash; it is the one that was there, or a new object; the other hashes
    and every other client keep theirs. *)
Lemma client_future_effect c mh w cl :
  objects w !! c = Some cl →
  ∃ fs,
    objects (client_future c mh w).2
    = <[c := mkClient (url cl) fs (subscriptions cl) (connected_done cl) (error cl)]>
        (objects w)
    ∧ fs !! mh = Some (client_future c mh w).1
    ∧ (∀ mh', mh' ≠ mh → fs !! mh' = futures cl !! mh')
    ∧ (futures cl !! mh = Some (client_future c mh w).1
       ∨ fstate w !! (client_future c mh w).1 = None)
    ∧ fstate (client_future c mh w).2 !! (client_future c mh w).1 = Some Pending
    ∧ (∀ g, g ≠ (client_future c mh w).1 →
            fstate (client_future c mh w).2 !! g = fstate w !! g)
    ∧ clients (client_future c mh w).2 = clients w.
Proof.
  intros Hc. unfold client_future. rewrite Hc.
  assert (Hfresh : fstate w !! fresh (dom (fstate w)) = None).
  { apply not_elem_of_dom. apply is_fresh. }
  assert (Hcreate :
    ∃ fs,
      <[c := set_futures <[mh := fresh (dom (fstate w))]> cl]> (objects w)
      = <[c := mkClient (url cl) fs (subscriptions cl) (connected_done cl) (error cl)]>
          (objects w)
      ∧ fs !! mh = Some (fresh (dom (fstate w)))
      ∧ (∀ mh', mh' ≠ mh → fs !! mh' = futures cl !! mh')
      ∧ (futures cl !! mh = Some (fresh (dom (fstate w)))
         ∨ fstate w !! fresh (dom (fstate w)) = None)
      ∧ <[fresh (dom (fstate w)) := Pending]> (fstate w) !! fresh (dom (fstate w))
        = Some Pending
      ∧ (∀ g, g ≠ fresh (dom (fstate w)) →
              <[fresh (dom (fstate w)) := Pending]> (fstate w) !! g = fstate w !! g)
      ∧ clients w = clients w).
  { exists (<[mh := fresh (dom (fstate w))]> (futures cl)).
    rewrite !lookup_insert_eq. repeat split; try done.
    - intros mh' Hne. by rewrite lookup_insert_ne.
    - by right.
    - intros g Hne. by rewrite lookup_insert_ne. }
  destruct (futures cl !! mh) as [f|] eqn:Hf; [|exact Hcreate].
  destruct (fstate w !! f) as [[| |]|] eqn:Hp; try exact Hcreate.
  exists (futures cl). simpl. repeat split; try done.
  - rewrite insert_id; [done|]. by destruct cl.
  - by left.
Qed.

(** The second half of [watch] in full: only the subscriptions of the
    client may change, and at most the Future in hand may be completed. *)
Lemma subscribe_effect self reg c f msg sh sub w cl :
  objects w !! c = Some cl →
  clients (subscribe self reg c f msg sh sub w) = clients w
  ∧ (∃ subs,
       objects (subscribe self reg c f msg sh sub w)
       = <[c := mkClient (url cl) (futures cl) subs (connected_done cl) (error cl)]>
           (objects w))
  ∧ (∀ g, is_Some (fstate (subscribe self reg c f msg sh sub w) !! g)
          ↔ is_Some (fstate w !! g)).
Proof.
  intros Hc.
  destruct (truthy (subscription_get c sh w)) eqn:Ht.
  - destruct (subscribe_known self reg c f msg sh sub w Ht) as (_ & -> & -> & -> & _).
    split; [done|]. split; [|done].
    exists (subscriptions cl). rewrite insert_id; [done|]. by destruct cl.
  - destruct reg as [e|]; [destruct (isinstance e Exception) eqn:HE|].
    + destruct (subscribe_refused self e c f msg sh sub w cl Hc Ht HE)
        as (_ & -> & -> & ->).
      split; [done|]. split; [by eexists|]. intros g. apply settle_live.
    + destruct (subscribe_escapes self e c f msg sh sub w cl Hc Ht HE)
        as (_ & -> & -> & ->).
      split; [done|]. split; [by eexists|done].
    + destruct (subscribe_new self c f msg sh sub w cl Hc Ht)
        as (_ & -> & -> & -> & _).
      split; [done|]. split; [by eexists|done].
Qed.

(** What one [watch] call does to the client it works on. *)
Lemma watch_effect self reg u mh msg sh sub w :
  registry_ok w →
  let c := (client_of u w).1 in
  let wc := (client_of u w).2 in
  let r := watch self reg u mh msg sh sub w in
  ∃ cl0 cl',
    objects wc !! c = Some cl0
    ∧ objects r.2 = <[c := cl']> (objects wc)
    ∧ url cl' = u
    ∧ clients r.2 = clients wc
    ∧ clients wc !! u = Some c
    ∧ futures cl' !! mh = Some r.1
    ∧ (∀ mh', mh' ≠ mh → futures cl' !! mh' = futures cl0 !! mh')
    ∧ (futures cl0 !! mh = Some r.1
       ∨ (fstate wc !! r.1 = None ∧ is_Some (fstate r.2 !! r.1)))
    ∧ (∀ g, is_Some (fstate wc !! g) → is_Some (fstate r.2 !! g)).
Proof.
  intros Hok c wc r.
  destruct (client_of_spec u w Hok) as (cl0 & Hcl0 & Hu & Hreg & _).
  fold c wc in Hcl0, Hreg.
  exists cl0.
  destruct (decide (sh = None ∧ is_Some (futures cl0 !! mh))) as [[-> [f Hf]]|Hno].
  - (* the early return *)
    assert (Hr : r = (f, wc)).
    { unfold r, watch. fold c wc.
      replace (client_of u w) with (c, wc) by (unfold c, wc; by destruct (client_of u w)).
      unfold futures_of. by rewrite Hcl0, Hf. }
    rewrite Hr. simpl. exists cl0. rewrite insert_id by done.
    repeat split; try done. by left.
  - assert (Hr : r = ((client_future c mh wc).1,
                      subscribe self reg c (client_future c mh wc).1 msg sh sub
                                (client_future c mh wc).2)).
    { unfold r. apply watch_proceeds.
      - unfold c, wc. by destruct (client_of u w).
      - intros ->. unfold futures_of. rewrite Hcl0.
        destruct (futures cl0 !! mh) eqn:Hf; [|done].
        exfalso. apply Hno. split; [done|by eexists]. }
    destruct (client_future_effect c mh wc cl0 Hcl0)
      as (fs & Hobj & Hfs & Hother & Hwhich & Hpend & Hrest & Hcl).
    set (f := (client_future c mh wc).1) in *.
    set (wf := (client_future c mh wc).2) in *.
    assert (Hcf : objects wf !! c
                  = Some (mkClient (url cl0) fs (subscriptions cl0)
                                   (connected_done cl0) (error cl0))).
    { by rewrite Hobj, lookup_insert_eq. }
    destruct (subscribe_effect self reg c f msg sh sub wf _ Hcf)
      as (Hcl2 & (subs & Hobj2) & Hlive).
    rewrite Hr. cbn [fst snd].
    exists (mkClient (url cl0) fs subs (connected_done cl0) (error cl0)).
    split; [done|]. split.
    { rewrite Hobj2, Hobj. simpl. by rewrite insert_insert_eq. }
    split; [done|]. split; [by rewrite Hcl2|]. split; [done|].
    split; [done|]. split; [done|]. split.
    { destruct Hwhich as [Hw|Hw]; [by left|right].
      split; [done|]. apply Hlive. rewrite Hpend. by eexists. }
    intros g Hg. apply Hlive. destruct (decide (g = f)) as [->|Hne].
    + rewrite Hpend. by eexists.
    + by rewrite Hrest.
Qed.

Lemma client_of_futures_ok u w : futures_ok w → futures_ok (client_of u w).2.
Proof.
  intros [Hlive Hinj]. unfold client_of.
  destruct (clients w !! u) as [c|] eqn:Hc; [done|]. simpl.
  split.
  - intros c cl mh f. simpl.
    destruct (decide (c = fresh (dom (objects w)))) as [->|Hne].
    + rewrite lookup_insert_eq. intros [= <-]. simpl. by rewrite lookup_empty.
    + rewrite lookup_insert_ne by done. apply Hlive.
  - intros c1 cl1 mh1 c2 cl2 mh2 f. simpl.
    destruct (decide (c1 = fresh (dom (objects w)))) as [->|Hne1].
    { rewrite lookup_insert_eq. intros [= <-]. simpl. by rewrite lookup_empty. }
    destruct (decide (c2 = fresh (dom (objects w)))) as [->|Hne2].
    { rewrite lookup_insert_eq. intros _ _ [= <-]. simpl. by rewrite lookup_empty. }
    rewrite !lookup_insert_ne by done. apply Hinj.
Qed.

(** [watch] keeps the Futures sound. *)
Lemma watch_futures_ok self reg u mh msg sh sub w :
  registry_ok w → futures_ok w →
  futures_ok (watch self reg u mh msg sh sub w).2.
Proof.
  intros Hok Hfut.
  destruct (watch_effect self reg u mh msg sh sub w Hok)
    as (cl0 & cl' & Hcl0 & Hobj & Hurl & Hcl & Hreg & Hmh & Hother & Hwhich & Hlive).
  destruct (client_of_futures_ok u w Hfut) as [Hlc Hic].
  set (c := (client_of u w).1) in *. set (wc := (client_of u w).2) in *.
  set (r := watch self reg u mh msg sh sub w) in *.
  assert (Hhere : ∀ cl1 f, objects r.2 !! c = Some cl1 →
            futures cl1 !! mh = Some f → f = r.1).
  { intros cl1 f H1 H2. rewrite Hobj, lookup_insert_eq in H1.
    injection H1 as <-. congruence. }
  assert (Hold : ∀ c1 cl1 m f, objects r.2 !! c1 = Some cl1 →
            futures cl1 !! m = Some f → (c1, m) ≠ (c, mh) →
            ∃ cl2, objects wc !! c1 = Some cl2 ∧ futures cl2 !! m = Some f).
  { intros c1 cl1 m f H1 H2 Hne. rewrite Hobj in H1.
    destruct (decide (c1 = c)) as [->|Hc1].
    - rewrite lookup_insert_eq in H1. injection H1 as <-.
      exists cl0. split; [done|]. rewrite <- Hother; [done|]. congruence.
    - rewrite lookup_insert_ne in H1 by done. by exists cl1. }
  assert (Hnew : ∀ c1 cl1 m, objects r.2 !! c1 = Some cl1 →
            futures cl1 !! m = Some r.1 → (c1, m) = (c, mh)).
  { intros c1 cl1 m H1 H2.
    destruct (decide ((c1, m) = (c, mh))) as [|Hne]; [done|].
    destruct (Hold _ _ _ _ H1 H2 Hne) as (cl2 & H3 & H4).
    destruct Hwhich as [Hw|[Hw _]].
    - by destruct (Hic _ _ _ _ _ _ _ H3 H4 Hcl0 Hw) as [-> ->].
    - destruct (Hlc _ _ _ _ H3 H4) as [st Hst]. congruence. }
  split.
  - intros c1 cl1 m f H1 H2.
    destruct (decide ((c1, m) = (c, mh))) as [[= -> ->]|Hne].
    + rewrite (Hhere _ _ H1 H2).
      destruct Hwhich as [Hw|[_ Hw]]; [|done].
      apply Hlive. by apply (Hlc _ _ _ _ Hcl0 Hw).
    + destruct (Hold _ _ _ _ H1 H2 Hne) as (cl2 & H3 & H4).
      apply Hlive. by apply (Hlc _ _ _ _ H3 H4).
  - intros c1 cl1 m1 c2 cl2 m2 f H1 H2 H3 H4.
    destruct (decide (f = r.1)) as [->|Hf].
    + pose proof (Hnew _ _ _ H1 H2) as [= -> ->].
      by pose proof (Hnew _ _ _ H3 H4) as [= -> ->].
    + assert (Hn1 : (c1, m1) ≠ (c, mh)).
      { intros [= -> ->]. by apply Hf, (Hhere _ _ H1 H2). }
      assert (Hn2 : (c2, m2) ≠ (c, mh)).
      { intros [= -> ->]. by apply Hf, (Hhere _ _ H3 H4). }
      destruct (Hold _ _ _ _ H1 H2 Hn1) as (cl1' & H5 & H6).
      destruct (Hold _ _ _ _ H3 H4 Hn2) as (cl2' & H7 & H8).
      by apply (Hic _ _ _ _ _ _ _ H5 H6 H7 H8).
Qed.

(** X8. [watch] keeps the connection registry sound: after any call every
    registered url has one live client object, which knows that url, so no
    client object serves two urls; the call's url is registered, the other
    urls are registered as before, and a further [self.client(url)] finds
    the same object without creating anything. *)
Theorem watch_keeps_registry self reg u mh msg sh sub w :
  registry_ok w →
  let c := (client_of u w).1 in
  let r := watch self reg u mh msg sh sub w in
  registry_ok r.2
  ∧ clients r.2 !! u = Some c
  ∧ (∀ u', u' ≠ u → clients r.2 !! u' = clients w !! u')
  ∧ (∀ u1 u2 c', clients r.2 !! u1 = Some c' → clients r.2 !! u2 = Some c' →
                 u1 = u2)
  ∧ client_of u r.2 = (c, r.2).
Proof.
  intros Hok c r.
  destruct (watch_effect self reg u mh msg sh sub w Hok)
    as (cl0 & cl' & Hcl0 & Hobj & Hurl & Hcl & Hreg & _).
  fold c r in Hcl0, Hobj, Hcl, Hreg.
  destruct (client_of_spec u w Hok) as (_ & _ & _ & _ & Hokc & _).
  assert (Hok' : registry_ok r.2).
  { intros u' c' Hu'. rewrite Hcl in Hu'.
    destruct (Hokc u' c' Hu') as (cl1 & Hcl1 & Hurl1).
    rewrite Hobj. destruct (decide (c' = c)) as [->|Hne].
    - rewrite lookup_insert_eq. exists cl'. split; [done|].
      destruct (Hokc u c Hreg) as (cl2 & Hcl2 & Hurl2). congruence.
    - rewrite lookup_insert_ne by done. by exists cl1. }
  split; [exact Hok'|]. split; [by rewrite Hcl|]. split; [|split].
  - intros u' Hne. rewrite Hcl. unfold client_of.
    destruct (clients w !! u) eqn:Hu; [done|]. simpl.
    by rewrite lookup_insert_ne.
  - intros u1 u2 c' H1 H2.
    destruct (Hok' u1 c' H1) as (cl1 & Hcl1 & <-).
    destruct (Hok' u2 c' H2) as (cl2 & Hcl2 & <-).
    congruence.
  - apply client_of_registered. by rewrite Hcl.
Qed.

(** X9. [watch] keeps the Futures sound (every Future held under a hash is
    a live object, none is held twice), and so two [watch] calls on the same
    url with different message hashes return two different Future objects. *)
Theorem watch_distinct_futures self reg1 reg2 u mh1 msg1 sh1 sub1 mh2 msg2 sh2 sub2 w :
  registry_ok w →
  futures_ok w →
  mh1 ≠ mh2 →
  let r1 := watch self reg1 u mh1 msg1 sh1 sub1 w in
  let r2 := watch self reg2 u mh2 msg2 sh2 sub2 r1.2 in
  futures_ok r1.2 ∧ futures_ok r2.2 ∧ r1.1 ≠ r2.1.
Proof.
  intros Hok Hfut Hne r1 r2.
  pose proof (watch_futures_ok self reg1 u mh1 msg1 sh1 sub1 w Hok Hfut) as Hf1.
  fold r1 in Hf1.
  destruct (watch_effect self reg1 u mh1 msg1 sh1 sub1 w Hok)
    as (cl0 & cl1 & _ & Hobj1 & Hurl1 & Hcl1 & Hreg1 & Hmh1 & _).
  fold r1 in Hobj1, Hcl1, Hmh1.
  destruct (client_of_spec u w Hok) as (_ & _ & _ & _ & Hokc & _).
  assert (Hok1 : registry_ok r1.2).
  { intros u' c' Hu'. rewrite Hcl1 in Hu'.
    destruct (Hokc u' c' Hu') as (cl2 & Hcl2 & Hurl2).
    rewrite Hobj1. destruct (decide (c' = (client_of u w).1)) as [->|Hn].
    - rewrite lookup_insert_eq. exists cl1. split; [done|].
      destruct (Hokc u _ Hreg1) as (cl3 & Hcl3 & Hurl3). congruence.
    - rewrite lookup_insert_ne by done. by exists cl2. }
  pose proof (watch_futures_ok self reg2 u mh2 msg2 sh2 sub2 r1.2 Hok1 Hf1) as Hf2.
  fold r2 in Hf2.
  split; [done|]. split; [done|].
  destruct (watch_effect self reg2 u mh2 msg2 sh2 sub2 r1.2 Hok1)
    as (cl0' & cl2 & Hcl0' & Hobj2 & _ & _ & _ & Hmh2 & Hother2 & _).
  fold r2 in Hobj2, Hmh2.
  assert (Hsame : client_of u r1.2 = ((client_of u w).1, r1.2)).
  { apply client_of_registered. by rewrite Hcl1. }
  rewrite Hsame in Hcl0', Hobj2. simpl in Hcl0', Hobj2.
  rewrite Hobj1, lookup_insert_eq in Hcl0'. injection Hcl0' as <-.
  intros Heq.
  destruct Hf2 as [_ Hinj].
  assert (H1 : futures cl2 !! mh1 = Some r1.1).
  { rewrite Hother2 by done. exact Hmh1. }
  assert (H2 : objects r2.2 !! (client_of u w).1 = Some cl2).
  { by rewrite Hobj2, lookup_insert_eq. }
  rewrite <- Heq in Hmh2.
  destruct (Hinj _ _ _ _ _ _ _ H2 H1 H2 Hmh2) as [_ Hm]. done.
Qed.

End RouterInvariants.

(** ** Connections that end: [on_error], [on_close], [close] *)

Section Lifecycle.

Context {Snapshot Delta : Type}.
Implicit Types (w : World Snapshot Delta).

Lemma settle_other f s (h : gmap nat FutState) g :
  g ≠ f → settle f s h !! g = h !! g.
Proof.
  intros Hne. unfold settle. destruct (h !! f) as [[| |]|]; try done.
  by rewrite lookup_insert_ne.
Qed.

(** [watch] completes no Future but, at most, the one it returns. *)
Lemma watch_fstate_other self reg u mh msg sh sub w g :
  registry_ok w →
  g ≠ (watch self reg u mh msg sh sub w).1 →
  fstate (watch self reg u mh msg sh sub w).2 !! g = fstate w !! g.
Proof.
  intros Hok.
  destruct (client_of_spec u w Hok) as (cl0 & Hcl0 & _ & _ & _ & _ & Hfs & _).
  set (c := (client_of u w).1) in *. set (wc := (client_of u w).2) in *.
  destruct (decide (sh = None ∧ is_Some (futures cl0 !! mh))) as [[-> [f Hf]]|Hno].
  - assert (Hr : watch self reg u mh msg None sub w = (f, wc)).
    { unfold watch. fold c wc.
      replace (client_of u w) with (c, wc) by (unfold c, wc; by destruct (client_of u w)).
      unfold futures_of. by rewrite Hcl0, Hf. }
    rewrite Hr. simpl. by rewrite Hfs.
  - assert (Hr : watch self reg u mh msg sh sub w
                 = ((client_future c mh wc).1,
                    subscribe self reg c (client_future c mh wc).1 msg sh sub
                              (client_future c mh wc).2)).
    { apply watch_proceeds.
      - unfold c, wc. by destruct (client_of u w).
      - intros ->. unfold futures_of. rewrite Hcl0.
        destruct (futures cl0 !! mh) eqn:Hf; [|done].
        exfalso. apply Hno. split; [done|by eexists]. }
    rewrite Hr. cbn [fst snd]. intros Hne.
    destruct (client_future_effect c mh wc cl0 Hcl0)
      as (fs & Hobj & _ & _ & _ & _ & Hrest & _).
    assert (Hcf : objects (client_future c mh wc).2 !! c
                  = Some (mkClient (url cl0) fs (subscriptions cl0)
                                   (connected_done cl0) (error cl0))).
    { by rewrite Hobj, lookup_insert_eq. }
    rewrite <- Hfs, <- (Hrest g Hne).
    destruct (truthy (subscription_get c sh (client_future c mh wc).2)) eqn:Ht.
    + by destruct (subscribe_known self reg c (client_future c mh wc).1 msg sh sub
                     _ Ht) as (_ & _ & -> & _).
    + destruct reg as [e|]; [destruct (isinstance e Exception) eqn:HE|].
      * destruct (subscribe_refused self e c (client_future c mh wc).1 msg sh sub
                    _ _ Hcf Ht HE) as (_ & _ & -> & _).
        by apply settle_other.
      * by destruct (subscribe_escapes self e c (client_future c mh wc).1 msg sh
                       sub _ _ Hcf Ht HE) as (_ & _ & -> & _).
      * by destruct (subscribe_new self c (client_future c mh wc).1 msg sh sub
                       _ _ Hcf Ht) as (_ & _ & -> & _).
Qed.

Lemma registry_ok_delete u w :
  registry_ok w → registry_ok (set_clients (delete u) w).
Proof.
  intros Hok u' c'. simpl. intros Hu'.
  apply lookup_delete_Some in Hu' as [_ Hu']. by apply Hok.
Qed.

(** [on_close] for a registered client that has no error. *)
Lemma on_close_healthy u c cl w :
  registry_ok w →
  clients w !! u = Some c → objects w !! c = Some cl → error cl = false →
  on_close c w = set_clients (delete u) w.
Proof.
  intros Hok Hu Hc He. destruct (Hok u c Hu) as (cl' & Hcl' & Hurl).
  assert (cl' = cl) as -> by congruence.
  unfold on_close. by rewrite Hc, He, Hurl, Hu.
Qed.

(** [watch] on a url that lost its client: the facts shared below. *)
Lemma watch_after_on_close self u mh msg sh sub w c cl :
  registry_ok w →
  clients w !! u = Some c → objects w !! c = Some cl → error cl = false →
  let w1 := on_close c w in
  let r := watch self None u mh msg sh sub w1 in
  let c' := (client_of u w1).1 in
  c' ≠ c
  ∧ objects w !! c' = None
  ∧ clients r.2 !! u = Some c'
  ∧ (∃ cl', objects r.2 !! c' = Some cl' ∧ url cl' = u ∧ error cl' = false)
  ∧ objects r.2 !! c = Some cl
  ∧ fstate w !! r.1 = None
  ∧ fstate r.2 !! r.1 = Some Pending
  ∧ (∀ g, g ≠ r.1 → fstate r.2 !! g = fstate w !! g)
  ∧ callbacks r.2 = (callbacks w ++ [mkAfter c' r.1 msg sh])%list.
Proof.
  intros Hok Hu Hc He w1 r c'.
  assert (Hw1 : w1 = set_clients (delete u) w) by by apply (on_close_healthy u c cl).
  assert (Hok1 : registry_ok w1) by (rewrite Hw1; by apply registry_ok_delete).
  assert (Hnone : clients w1 !! u = None).
  { rewrite Hw1. simpl. apply lookup_delete_eq. }
  assert (Hc' : c' = fresh (dom (objects w))).
  { unfold c'. rewrite (client_of_new u w1 Hnone). by rewrite Hw1. }
  assert (Hfresh : objects w !! c' = None).
  { rewrite Hc'. apply not_elem_of_dom. apply is_fresh. }
  assert (Hne : c' ≠ c) by (intros ->; congruence).
  destruct (watch_unregistered self u mh msg sh sub w1 Hnone)
    as (Hreg & _ & Hcb & Hpend).
  fold r in Hreg, Hcb, Hpend.
  replace (fresh (dom (objects w1))) with c' in Hreg, Hcb
    by (rewrite Hc'; by rewrite Hw1).
  destruct (watch_effect self None u mh msg sh sub w1 Hok1)
    as (cl0 & cl' & Hcl0 & Hobj & Hurl & _ & _ & _ & _ & Hwhich & _).
  fold r c' in Hcl0, Hobj, Hwhich.
  assert (Hwc : (client_of u w1).2
                = emit (EvNewClient u c')
                    (set_clients <[u := c']>
                       (set_objects <[c' := mkClient u ∅ ∅ false false]> w1))).
  { rewrite (client_of_new u w1 Hnone). simpl.
    replace (fresh (dom (objects w1))) with c'; [done|].
    rewrite Hc'. by rewrite Hw1. }
  rewrite Hwc in Hcl0, Hobj, Hwhich. simpl in Hcl0, Hobj, Hwhich.
  rewrite lookup_insert_eq in Hcl0. injection Hcl0 as <-.
  split; [done|]. split; [done|]. split; [done|]. split.
  { destruct (watch_effect self None u mh msg sh sub w1 Hok1)
      as (cl0 & cl2 & Hcl0 & Hobj2 & Hurl2 & _ & _ & Hmh2 & Hoth2 & _).
    fold r c' in Hcl0, Hobj2.
    exists cl'. rewrite Hobj, lookup_insert_eq. split; [done|]. split; [done|].
    clear Hobj2 Hcl0 Hmh2 Hoth2 Hurl2.
    (* the error flag of the new client *)
    unfold r in Hobj. unfold watch in Hobj. rewrite (client_of_new u w1 Hnone) in Hobj.
    replace (fresh (dom (objects w1))) with c' in Hobj
      by (rewrite Hc'; by rewrite Hw1).
    assert (Hfut : match sh with
                   | Some _ => None
                   | None =>
                       futures_of c'
                         (emit (EvNewClient u c')
                            (set_clients <[u := c']>
                               (set_objects <[c' := mkClient u ∅ ∅ false false]> w1)))
                       !! mh
                   end = None).
    { destruct sh; [done|]. unfold futures_of. simpl.
      by rewrite lookup_insert_eq. }
    rewrite Hfut in Hobj.
    set (wn := emit (EvNewClient u c')
                 (set_clients <[u := c']>
                    (set_objects <[c' := mkClient u ∅ ∅ false false]> w1))) in *.
    assert (Hn : objects wn !! c' = Some (mkClient u ∅ ∅ false false)).
    { unfold wn. simpl. by rewrite lookup_insert_eq. }
    destruct (client_future_effect c' mh wn _ Hn) as (fs & Hobjf & _).
    destruct (client_future c' mh wn) as [f wf] eqn:Hcf. simpl in Hobj, Hobjf.
    assert (Hf : objects wf !! c' = Some (mkClient u fs ∅ false false)).
    { by rewrite Hobjf, lookup_insert_eq. }
    destruct (subscribe_effect self None c' f msg sh sub wf _ Hf)
      as (_ & (subs & Hobjs) & _).
    rewrite Hobjs in Hobj. simpl in Hobj.
    assert (Hl : (<[c' := mkClient u fs subs false false]> (objects wf)
                  : gmap nat Client) !! c'
                 = (<[c' := cl']> (<[c' := mkClient u ∅ ∅ false false]> (objects w1))
                    : gmap nat Client) !! c') by by rewrite Hobj.
    rewrite !lookup_insert_eq in Hl. by injection Hl as <-. }
  split.
  { rewrite Hobj, !lookup_insert_ne by done. by rewrite Hw1. }
  assert (Hnew : fstate w !! r.1 = None).
  { destruct Hwhich as [Hw|[Hw _]].
    - simpl in Hw. by rewrite lookup_empty in Hw.
    - by rewrite Hw1 in Hw. }
  split; [done|]. split; [done|]. split.
  { intros g Hg.
    pose proof (watch_fstate_other self None u mh msg sh sub w1 g Hok1 Hg) as Hfr.
    fold r in Hfr. rewrite Hfr. by rewrite Hw1. }
  rewrite Hcb. by rewrite Hw1.
Qed.

(** X10. When the server closes a working connection, [on_close] takes the
    url out of the registry and does nothing else: the old client object and
    every Future stay as they are. The next [watch] on the url makes a new
    client object, registers it under the url, and returns a new pending
    Future, with one callback waiting for the new connection; the old
    client object and all other Futures are still untouched. *)
Theorem on_close_reconnects self u mh msg sh sub w c cl :
  registry_ok w →
  clients w !! u = Some c → objects w !! c = Some cl → error cl = false →
  let w1 := on_close c w in
  let r := watch self None u mh msg sh sub w1 in
  let c' := (client_of u w1).1 in
  w1 = set_clients (delete u) w
  ∧ c' ≠ c
  ∧ objects w !! c' = None
  ∧ clients r.2 !! u = Some c'
  ∧ objects r.2 !! c = Some cl
  ∧ fstate w !! r.1 = None
  ∧ fstate r.2 !! r.1 = Some Pending
  ∧ (∀ g, g ≠ r.1 → fstate r.2 !! g = fstate w !! g)
  ∧ callbacks r.2 = (callbacks w ++ [mkAfter c' r.1 msg sh])%list.
Proof.
  intros Hok Hu Hc He w1 r c'.
  destruct (watch_after_on_close self u mh msg sh sub w c cl Hok Hu Hc He)
    as (H1 & H2 & H3 & _ & H5 & H6 & H7 & H8 & H9).
  split; [by apply (on_close_healthy u c cl)|].
  by repeat split.
Qed.

(** X11. [on_close] goes by the url, not by the client object: when the
    closed client has been replaced under its url by a new client (as after
    a reconnect), a second [on_close] for the old client takes the new
    client out of the registry. *)
Theorem on_close_stale_client self u mh msg sh sub w c cl :
  registry_ok w →
  clients w !! u = Some c → objects w !! c = Some cl → error cl = false →
  let r := watch self None u mh msg sh sub (on_close c w) in
  let c' := (client_of u (on_close c w)).1 in
  c' ≠ c
  ∧ clients r.2 !! u = Some c'
  ∧ clients (on_close c r.2) !! u = None
  ∧ (∀ u', u' ≠ u → clients (on_close c r.2) !! u' = clients w !! u').
Proof.
  intros Hok Hu Hc He r c'.
  destruct (watch_after_on_close self u mh msg sh sub w c cl Hok Hu Hc He)
    as (H1 & H2 & H3 & _ & H5 & _).
  fold r c' in H1, H2, H3, H5.
  destruct (Hok u c Hu) as (cl1 & Hcl1 & Hurl).
  assert (cl1 = cl) as -> by congruence.
  assert (Hoc : on_close c r.2 = set_clients (delete u) r.2).
  { unfold on_close. by rewrite H5, He, Hurl, H3. }
  split; [done|]. split; [done|]. rewrite Hoc. simpl. split.
  - apply lookup_delete_eq.
  - intros u' Hne. rewrite lookup_delete_ne by done.
    assert (Hok1 : registry_ok (on_close c w)).
    { rewrite (on_close_healthy u c cl) by done. by apply registry_ok_delete. }
    destruct (watch_effect self None u mh msg sh sub (on_close c w) Hok1)
      as (_ & _ & _ & _ & _ & Hcl & _).
    fold r in Hcl. rewrite Hcl. unfold client_of.
    rewrite (on_close_healthy u c cl) by done. simpl.
    rewrite lookup_delete_eq. simpl.
    rewrite lookup_insert_ne by done. by rewrite lookup_delete_ne.
Qed.

(** X12. For the registered client of a url, [on_error] removes the
    registration exactly when the client's error flag is set and [on_close]
    exactly when it is not, so the two together, in either order, always
    leave the url unregistered, and neither touches any other url, client
    object or Future. *)
Theorem on_error_on_close_unregister u c cl w :
  registry_ok w →
  clients w !! u = Some c → objects w !! c = Some cl →
  on_error c w = (if error cl then set_clients (delete u) w else w)
  ∧ on_close c w = (if error cl then w else set_clients (delete u) w)
  ∧ on_close c (on_error c w) = set_clients (delete u) w
  ∧ on_error c (on_close c w) = set_clients (delete u) w.
Proof.
  intros Hok Hu Hc. destruct (Hok u c Hu) as (cl' & Hcl' & Hurl).
  assert (cl' = cl) as -> by congruence.
  assert (H1 : on_error c w = (if error cl then set_clients (delete u) w else w)).
  { unfold on_error, client_url. by rewrite Hc, Hurl, Hu, Hc. }
  assert (H2 : on_close c w = (if error cl then w else set_clients (delete u) w)).
  { unfold on_close. rewrite Hc, Hurl, Hu. by destruct (error cl). }
  split; [done|]. split; [done|]. rewrite H1, H2.
  destruct (error cl) eqn:He.
  - split.
    + unfold on_close. simpl. by rewrite Hc, He.
    + by rewrite H1.
  - split.
    + by rewrite H2.
    + unfold on_error, client_url. simpl. rewrite Hc, Hurl.
      by rewrite lookup_delete_eq.
Qed.

(** X13. [close] a second time does nothing when the first call returned:
    no client is closed, nothing is released, the state is the same. When
    the first call raised (closing the session failed), every client is
    unregistered already and the session is still held, so the second call
    closes no client and tries the session again. *)
Theorem close_twice self closing interleaved session_closing
    closing' interleaved' session_closing' w :
  let o := close self closing interleaved session_closing w in
  let o' := close self closing' interleaved' session_closing' (world_of o) in
  finished o = true
  ∧ clients (world_of o) = ∅
  ∧ (∀ w1, o = Returned w1 → session w1 = false ∧ o' = Returned w1)
  ∧ (∀ e w1, o = Raised e w1 →
       session_closing = Some e ∧ session w1 = true ∧ own_session self = true
       ∧ o' = match session_closing' with
              | None => Returned (set_session false (emit EvSessionClose w1))
              | Some e' => Raised e' (emit EvSessionClose w1)
              end).
Proof.
  intros o o'.
  destruct (ws_close_spec closing interleaved w) as (Hc & _ & Hs & _).
  assert (Hidle : ∀ w1 : World Snapshot Delta, clients w1 = ∅ →
            ws_close closing' interleaved' w1 = w1).
  { intros w1 H1. unfold ws_close. by destruct (decide (clients w1 = ∅)). }
  unfold o', o, close.
  set (w' := ws_close closing interleaved w) in *.
  destruct (session w') eqn:Hsess; simpl.
  - destruct (own_session self) eqn:Hown; simpl.
    + destruct session_closing as [e|]; simpl.
      * split; [done|]. split; [done|]. split; [done|].
        intros e0 w1 [= <- <-]. split; [done|]. split; [done|]. split; [done|].
        rewrite (Hidle (emit EvSessionClose w')) by done. simpl.
        by rewrite Hsess.
      * split; [done|]. split; [done|]. split; [|done].
        intros w1 [= <-]. split; [done|].
        by rewrite (Hidle (set_session false (emit EvSessionClose w'))).
    + split; [done|]. split; [done|]. split; [|done].
      intros w1 [= <-]. split; [done|].
      by rewrite (Hidle (set_session false w')).
  - split; [done|]. split; [done|]. split; [|done].
    intros w1 [= <-]. split; [done|].
    rewrite (Hidle w') by done. by rewrite Hsess.
Qed.

(** X14. A subscribe key first used by a [watch] call that carries no
    message is recorded all the same, so no subscribe request is ever sent
    for that key: neither for the first call nor for the later calls with
    the key, whatever message they carry. *)
Theorem watch_without_message_never_sends self u k mh1 msg1 sub1 calls w sending :
  registry_ok w →
  callbacks w = [] →
  truthy (subscription_get (client_of u w).1 (Some k) (client_of u w).2) = false →
  truthy msg1 = false →
  let r1 := watch self None u mh1 msg1 (Some k) sub1 w in
  let w2 := watch_all self calls u k r1.2 in
  subscriptions_of (client_of u w).1 r1.2 !! Some k = Some (or_ sub1 PTrue)
  ∧ count is_send (log (fire self sending w2)) = count is_send (log w).
Proof.
  intros Hok Hnil Hnot Hmsg r1 w2.
  destruct (watch_new_key self u mh1 msg1 k sub1 w Hok Hnot)
    as (Hcb1 & Hc1 & (cl1 & Hcl1 & Hsub1) & _ & Hcnt1).
  fold r1 in Hcb1, Hc1, Hcl1, Hcnt1.
  destruct (watch_all_known self calls u k r1.2 _ cl1 _
              Hc1 Hcl1 Hsub1 (or_True_truthy sub1)) as (Hcb2 & Hcnt2).
  fold w2 in Hcb2, Hcnt2.
  split.
  { unfold subscriptions_of. by rewrite Hcl1. }
  unfold fire. rewrite Hcb2, Hcb1, Hnil. simpl.
  rewrite after_sends. simpl. rewrite Hmsg. rewrite Hcnt2, Hcnt1. lia.
Qed.

End Lifecycle.

(** ** Proxy settings *)

Section ProxySettings.

Import Proxy.

Variables (self : Exchange) (cfg : Settings).
Variables (url method : string) (headers : list (string * string)).
Variable body : option string.

Lemma if_not_None_Some {A} (a b : option A) :
  is_Some (if_not_None a b) ↔ is_Some a ∨ is_Some b.
Proof.
  destruct a as [x|]; simpl.
  - split; [by left|by eexists].
  - split; [by right|]. intros [[? H]|H]; done.
Qed.

Lemma has_callback_spec :
  has_callback cfg = true ↔
    is_Some (if_not_None (proxyUrlCallback cfg) (proxy_url_callback cfg))
    ∨ is_Some (if_not_None (httpProxyCallback cfg) (http_proxy_callback cfg))
    ∨ is_Some (if_not_None (httpsProxyCallback cfg) (https_proxy_callback cfg))
    ∨ is_Some (if_not_None (socksProxyCallback cfg) (socks_proxy_callback cfg)).
Proof.
  unfold has_callback. rewrite !if_not_None_Some, !orb_true_iff.
  rewrite !bool_decide_eq_true. tauto.
Qed.

(** X15. [check_proxy_settings] returns only when at most one proxy
    setting counts: the list it returns has four entries,
    [proxyUrl, httpProxy, httpsProxy, socksProxy], of which at most one is
    not [None]. A callback counts as a setting itself and so does the value
    it returns: when any of the callbacks is set, the call either raises or
    returns four [None]s, so a callback never delivers a proxy. Otherwise
    the call raises [ExchangeError]. *)
Theorem check_proxy_settings_exclusive :
  match check_proxy_settings self cfg url method headers body with
  | inl e => isinstance e ExchangeError = true
  | inr values =>
      length values = 4%nat
      ∧ (chosen values ≤ 1)%nat
      ∧ (has_callback cfg = true → values = [None; None; None; None])
  end.
Proof.
  pose proof has_callback_spec as Hcb.
  unfold check_proxy_settings. cbv zeta.
  match goal with
  | |- context [counted ?c4 (counted ?p4 (counted ?c3 (counted ?p3
                 (counted ?c2 (counted ?p2 (counted ?c1 (counted ?p1 0%Z)))))))] =>
      set (x4 := p4); set (x3 := p3); set (x2 := p2); set (x1 := p1);
      clearbody x1 x2 x3 x4;
      set (y1 := c1) in *; set (y2 := c2) in *;
      set (y3 := c3) in *; set (y4 := c4) in *;
      clearbody y1 y2 y3 y4
  end.
  destruct x1, x2, x3, x4, y1, y2, y3, y4; simpl; try reflexivity;
    (split; [reflexivity|]); (split; [unfold chosen; simpl; lia|]);
    try (intros _; reflexivity);
    intros H; apply Hcb in H;
    destruct H as [[? H]|[[? H]|[[? H]|[? H]]]]; discriminate.
Qed.

(** X16. The proxy part of [fetch] never gets its three proxies: the list
    [check_proxy_settings] returns has four entries and [fetch] assigns it
    to three names, so whenever [check_proxy_settings] does not raise its
    [ExchangeError] the assignment raises [ValueError]. With either
    exception [fetch] ends before it opens a session or sends anything. *)
Theorem fetch_proxy_agents_never (proxyUrl : option string) :
  (∃ e, fetch_proxy_agents self cfg proxyUrl url method headers body = Conflict e
        ∧ isinstance e ExchangeError = true)
  ∨ fetch_proxy_agents self cfg proxyUrl url method headers body
    = ValueError "too many values to unpack (expected 3)".
Proof.
  unfold fetch_proxy_agents. cbv zeta.
  match goal with
  | |- context [check_proxy_settings self cfg ?u method headers body] =>
      set (url' := u)
  end.
  unfold check_proxy_settings. cbv zeta.
  match goal with |- context [if ?b then _ else _] => destruct b end.
  - left. by eexists.
  - by right.
Qed.

End ProxySettings.

(** ** Sandbox urls *)

Section Sandbox.

Variable clone : UrlVal → Exc + UrlVal.
Variable self : Exchange.

Lemma sandbox_restored (urls : gmap string UrlVal) api v :
  urls !! "api" = Some api →
  urls !! "apiBackup" = None →
  delete "apiBackup"
    (<["api" := api]> (<["api" := v]> (<["apiBackup" := api]> urls))) = urls.
Proof.
  intros Ha Hb. rewrite insert_insert_eq.
  rewrite delete_insert_ne by done. rewrite delete_insert_eq.
  rewrite delete_id by done. by apply insert_id.
Qed.

(** X17. Switching the sandbox on and off again, for [urls] with a
    ['test'] and an ['api'] entry and no ['apiBackup'], and a [clone] that
    copies dicts. When the two entries are both strings or both dicts,
    enabling puts the test urls under ['api'], the live ones under
    ['apiBackup'], and disabling gives back exactly the urls there were.
    When ['api'] is a string and ['test'] a dict, enabling does the same,
    but disabling hands the saved string to [clone]: if that raises, the
    call raises and the sandbox urls stay. When ['api'] is a dict and
    ['test'] a string, enabling hands the string to [clone] after it has
    written ['apiBackup']: if that raises, the call raises with the backup
    written and ['api'] unchanged. *)
Theorem set_sandbox_mode_round_trip urls test api :
  copies_dicts clone →
  urls !! "test" = Some test →
  urls !! "api" = Some api →
  urls !! "apiBackup" = None →
  let sandbox := <["api" := test]> (<["apiBackup" := api]> urls) in
  (is_str api = is_str test →
     set_sandbox_mode clone self true urls = (sandbox, None)
     ∧ set_sandbox_mode clone self false sandbox = (urls, None))
  ∧ (is_str api = true → is_str test = false →
     set_sandbox_mode clone self true urls = (sandbox, None)
     ∧ set_sandbox_mode clone self false sandbox =
       match clone api with
       | inl e => (sandbox, Some e)
       | inr copy => (delete "apiBackup" (<["api" := copy]> sandbox), None)
       end)
  ∧ (is_str api = false → is_str test = true →
     set_sandbox_mode clone self true urls =
     match clone test with
     | inl e => (<["apiBackup" := api]> urls, Some e)
     | inr copy => (<["api" := copy]> (<["apiBackup" := api]> urls), None)
     end).
Proof.
  intros Hclone Ht Ha Hb sandbox.
  assert (Hoff : ∀ v,
    set_sandbox_mode clone self false (<["api" := v]> (<["apiBackup" := api]> urls))
    = if is_str v then
        (delete "apiBackup"
           (<["api" := api]> (<["api" := v]> (<["apiBackup" := api]> urls))), None)
      else
        match clone api with
        | inl e => (<["api" := v]> (<["apiBackup" := api]> urls), Some e)
        | inr copy =>
            (delete "apiBackup"
               (<["api" := copy]> (<["api" := v]> (<["apiBackup" := api]> urls))),
             None)
        end).
  { intros v. unfold set_sandbox_mode.
    rewrite (lookup_insert_ne _ "api" "apiBackup") by done.
    by rewrite !lookup_insert_eq. }
  split; [|split].
  - intros Hty. split.
    + unfold set_sandbox_mode. rewrite Ht, Ha.
      destruct api as [a|a], test as [t|t]; try done.
      simpl. by rewrite !Hclone.
    + unfold sandbox. rewrite Hoff.
      destruct api as [a|a], test as [t|t]; try done; simpl.
      * by rewrite sandbox_restored.
      * by rewrite Hclone, sandbox_restored.
  - intros Hapi Htest. split.
    + unfold set_sandbox_mode. by rewrite Ht, Ha, Hapi.
    + unfold sandbox. by rewrite Hoff, Htest.
  - intros Hapi Htest. unfold set_sandbox_mode. rewrite Ht, Ha, Hapi.
    destruct api as [a|a]; [done|]. by rewrite Hclone.
Qed.

(** X18. Switching the sandbox on twice loses the live urls, for [urls] as
    above whose ['test'] entry is a dict whenever the ['api'] entry is one:
    the second call saves the test urls as the backup, so switching the
    sandbox off afterwards leaves the test urls under ['api']. *)
Theorem set_sandbox_mode_twice urls test api :
  copies_dicts clone →
  urls !! "test" = Some test →
  urls !! "api" = Some api →
  urls !! "apiBackup" = None →
  (is_str api = false → is_str test = false) →
  let once := <["api" := test]> (<["apiBackup" := api]> urls) in
  let twice := <["api" := test]> (<["apiBackup" := test]> once) in
  set_sandbox_mode clone self true urls = (once, None)
  ∧ set_sandbox_mode clone self true once = (twice, None)
  ∧ twice !! "apiBackup" = Some test
  ∧ set_sandbox_mode clone self false twice = (<["api" := test]> urls, None)
  ∧ (api ≠ test → (set_sandbox_mode clone self false twice).1 ≠ urls).
Proof.
  intros Hclone Ht Ha Hb Hty once twice.
  assert (H1 : set_sandbox_mode clone self true urls = (once, None)).
  { unfold set_sandbox_mode. rewrite Ht, Ha.
    destruct api as [a|a]; [done|]. simpl.
    destruct test as [t|t]; [by specialize (Hty eq_refl)|].
    by rewrite !Hclone. }
  assert (H2 : set_sandbox_mode clone self true once = (twice, None)).
  { unfold set_sandbox_mode, once.
    rewrite !(lookup_insert_ne _ _ "test") by done. rewrite Ht.
    rewrite lookup_insert_eq.
    destruct test as [t|t]; [done|]. simpl. by rewrite !Hclone. }
  assert (H3 : set_sandbox_mode clone self false twice
               = (<["api" := test]> urls, None)).
  { unfold set_sandbox_mode, twice.
    rewrite (lookup_insert_ne _ "api" "apiBackup") by done.
    rewrite !lookup_insert_eq.
    assert (Hback :
      delete "apiBackup"
        (<["api" := test]> (<["api" := test]> (<["apiBackup" := test]> once)))
      = <["api" := test]> urls).
    { rewrite insert_insert_eq. rewrite delete_insert_ne by done.
      rewrite delete_insert_eq. unfold once.
      rewrite delete_insert_ne by done. rewrite delete_insert_eq.
      rewrite delete_id by done. by rewrite insert_insert_eq. }
    destruct test as [t|t]; simpl; [by rewrite Hback|].
    by rewrite Hclone, Hback. }
  split; [done|]. split; [done|]. split.
  { unfold twice. by rewrite lookup_insert_ne, lookup_insert_eq. }
  split; [done|].
  intros Hne. rewrite H3. simpl. intros Heq.
  assert (Hl : (<["api" := test]> urls : gmap string UrlVal) !! "api" = urls !! "api")
    by by rewrite Heq.
  rewrite lookup_insert_eq, Ha in Hl. congruence.
Qed.

End Sandbox.

(** ** Loading the markets once *)

Section LoadMarkets.

Context {Markets : Type}.
Implicit Types (st : Loader) (outcome : nat → Exc + Markets).

(** While a load is in flight every call awaits its task. *)
Lemma load_markets_enter_in_flight reload st t :
  markets_loading st = Some t → reloading_markets st = true →
  load_markets_enter reload st = (Some t, st).
Proof.
  intros Ht Hr. unfold load_markets_enter. rewrite Ht, Hr. simpl.
  rewrite andb_false_r. simpl. by rewrite Ht.
Qed.

Lemma load_markets_enter_first reload st :
  markets_loading st = None →
  load_markets_enter reload st
  = (Some (tasks st), mkLoader (Some (tasks st)) true (S (tasks st))).
Proof.
  intros Hn. unfold load_markets_enter. rewrite Hn. simpl.
  by rewrite orb_true_r.
Qed.

(** X19. Single flight: the first [load_markets] call creates one task,
    and every call that arrives while that task is running, with [reload]
    or without, awaits the same task and creates none. *)
Theorem load_markets_single_flight reload reloads st :
  markets_loading st = None →
  let first := load_markets_enter reload st in
  let others := load_markets_enter_all reloads first.2 in
  first.1 = Some (tasks st)
  ∧ others.1 = replicate (length reloads) (Some (tasks st))
  ∧ others.2 = first.2
  ∧ tasks others.2 = S (tasks st).
Proof.
  intros Hn first others.
  assert (Hf : first = (Some (tasks st), mkLoader (Some (tasks st)) true (S (tasks st))))
    by by apply load_markets_enter_first.
  unfold others. rewrite Hf. cbn [fst snd]. split; [done|].
  set (st1 := mkLoader (Some (tasks st)) true (S (tasks st))).
  assert (Hall : load_markets_enter_all reloads st1
                 = (replicate (length reloads) (Some (tasks st)), st1)).
  { induction reloads as [|r rs IH]; [done|]. cbn [load_markets_enter_all].
    rewrite (load_markets_enter_in_flight r st1 (tasks st)) by done.
    by rewrite IH. }
  by rewrite Hall.
Qed.

(** X20. A load that fails with an [Exception] is forgotten: the caller
    gets the exception, and the next call, with [reload] or without, creates
    a new task and returns what that one gives. *)
Theorem load_markets_failure_retries outcome reload reload' st e :
  markets_loading st = None →
  outcome (tasks st) = inl e →
  isinstance e Exception = true →
  let first := load_markets outcome reload st in
  let second := load_markets outcome reload' first.1 in
  first.2 = inl e
  ∧ markets_loading first.1 = None
  ∧ reloading_markets first.1 = false
  ∧ second.2 = outcome (S (tasks st))
  ∧ tasks second.1 = S (S (tasks st)).
Proof.
  intros Hn Ho He first second.
  assert (Hf : first = (mkLoader None false (S (tasks st)), inl e)).
  { unfold first, load_markets. rewrite (load_markets_enter_first reload st Hn).
    unfold load_markets_leave. by rewrite Ho, He. }
  unfold second. rewrite Hf. cbn [fst snd]. repeat split; try done.
  - unfold load_markets. rewrite load_markets_enter_first by done. simpl.
    unfold load_markets_leave. destruct (outcome (S (tasks st))) as [e'|m]; [|done].
    by destruct (isinstance e' Exception).
  - unfold load_markets. rewrite load_markets_enter_first by done. simpl.
    unfold load_markets_leave. destruct (outcome (S (tasks st))) as [e'|m]; [|done].
    by destruct (isinstance e' Exception).
Qed.

(** X21. A load that succeeded is kept: a later call without [reload]
    awaits the finished task again, so it creates no task and returns the
    same markets, while every later call with [reload] creates a new task
    and returns what that one gives. *)
Theorem load_markets_cached outcome reload st markets :
  markets_loading st = None →
  outcome (tasks st) = inr markets →
  let first := load_markets outcome reload st in
  first.2 = inr markets
  ∧ load_markets outcome false first.1 = (first.1, inr markets)
  ∧ (load_markets outcome true first.1).2 = outcome (S (tasks st))
  ∧ tasks (load_markets outcome true first.1).1 = S (S (tasks st)).
Proof.
  intros Hn Ho first.
  assert (Hf : first = (mkLoader (Some (tasks st)) false (S (tasks st)), inr markets)).
  { unfold first, load_markets. rewrite (load_markets_enter_first reload st Hn).
    unfold load_markets_leave. by rewrite Ho. }
  rewrite Hf. cbn [fst snd]. split; [done|]. split.
  { unfold load_markets, load_markets_enter. simpl.
    unfold load_markets_leave. by rewrite Ho. }
  unfold load_markets, load_markets_enter. simpl.
  unfold load_markets_leave. destruct (outcome (S (tasks st))) as [e'|m]; [|done].
  by destruct (isinstance e' Exception).
Qed.

(** X22. A load that ends with an exception that is not an [Exception]
    (a cancellation) is never forgotten: [markets_loading] keeps the failed
    task and [reloading_markets] stays set, so every later call, with
    [reload] or without, awaits that task again, raises the same exception
    and leaves the state as it is; no load is ever started again. *)
Theorem load_markets_stuck outcome reload st e :
  markets_loading st = None →
  outcome (tasks st) = inl e →
  isinstance e Exception = false →
  let first := load_markets outcome reload st in
  first.2 = inl e
  ∧ markets_loading first.1 = Some (tasks st)
  ∧ reloading_markets first.1 = true
  ∧ ∀ reload', load_markets outcome reload' first.1 = (first.1, inl e).
Proof.
  intros Hn Ho He first.
  assert (Hf : first = (mkLoader (Some (tasks st)) true (S (tasks st)), inl e)).
  { unfold first, load_markets. rewrite (load_markets_enter_first reload st Hn).
    unfold load_markets_leave. by rewrite Ho, He. }
  rewrite Hf. cbn [fst snd]. repeat split.
  intros reload'. unfold load_markets.
  rewrite (load_markets_enter_in_flight reload' _ (tasks st)) by done.
  unfold load_markets_leave. by rewrite Ho, He.
Qed.

(** X23. Two callers of one failed load undo each other's retry. Calls A
    and B await the same task, which fails with an [Exception]. A is
    resumed first, forgets the task and a retry C starts a new task. When B
    is resumed it forgets that new task, still running, so the next call D
    starts a third one beside it. *)
Theorem load_markets_late_waiter outcome rA rB rC rD st e :
  markets_loading st = None →
  isinstance e Exception = true →
  let a := load_markets_enter rA st in
  let b := load_markets_enter rB a.2 in
  let a' := load_markets_leave (Markets := Markets) (inl e) b.2 in
  let c := load_markets_enter rC a'.1 in
  let b' := load_markets_leave (Markets := Markets) (inl e) c.2 in
  let d := load_markets_enter rD b'.1 in
  a.1 = Some (tasks st) ∧ b.1 = Some (tasks st)
  ∧ c.1 = Some (S (tasks st))
  ∧ markets_loading b'.1 = None
  ∧ d.1 = Some (S (S (tasks st)))
  ∧ (load_markets outcome rD b'.1).2 = outcome (S (S (tasks st))).
Proof.
  intros Hn He a b a' c b' d.
  assert (Ha : a = (Some (tasks st), mkLoader (Some (tasks st)) true (S (tasks st))))
    by by apply load_markets_enter_first.
  assert (Hb : b = (Some (tasks st), mkLoader (Some (tasks st)) true (S (tasks st)))).
  { unfold b. rewrite Ha. by apply load_markets_enter_in_flight. }
  assert (Ha' : a' = (mkLoader None false (S (tasks st)), inl e)).
  { unfold a', load_markets_leave. by rewrite Hb, He. }
  assert (Hc : c = (Some (S (tasks st)),
                    mkLoader (Some (S (tasks st))) true (S (S (tasks st))))).
  { unfold c. rewrite Ha'. by apply load_markets_enter_first. }
  assert (Hb' : b' = (mkLoader None false (S (S (tasks st))), inl e)).
  { unfold b', load_markets_leave. by rewrite Hc, He. }
  assert (Hd : d = (Some (S (S (tasks st))),
                    mkLoader (Some (S (S (tasks st)))) true (S (S (S (tasks st)))))).
  { unfold d. rewrite Hb'. by apply load_markets_enter_first. }
  rewrite Ha, Hb, Hc, Hd, Hb'. cbn [fst snd]. repeat split; try done.
  unfold load_markets. rewrite load_markets_enter_first by done. simpl.
  unfold load_markets_leave.
  destruct (outcome (S (S (tasks st)))) as [e'|m]; [|done].
  by destruct (isinstance e' Exception).
Qed.

End LoadMarkets.

(** ** Dicts: [find_timeframe], [invert_flat_string_dictionary],
       [find_broadly_matched_key] *)

Section DictUtilities.

Lemma get_Some_elem {V} (d : Dict.t V) k v :
  Dict.get d k = Some v → (k, v) ∈ d.
Proof.
  induction d as [|[k0 v0] d IH]; simpl; [done|].
  destruct (decide (k0 = k)) as [->|Hne].
  - intros [= ->]. apply list_elem_of_here.
  - intros H. apply list_elem_of_further. by apply IH.
Qed.

Lemma get_None_keys {V} (d : Dict.t V) k :
  Dict.get d k = None ↔ k ∉ Dict.keys d.
Proof.
  induction d as [|[k0 v0] d IH]; simpl.
  - split; [|done]. intros _ H. by apply elem_of_nil in H.
  - destruct (decide (k0 = k)) as [->|Hne].
    + split; [done|]. intros H. exfalso. apply H. apply list_elem_of_here.
    + rewrite IH. unfold Dict.keys. simpl. rewrite not_elem_of_cons.
      split; [intros H; split; [congruence|done]|by intros [_ H]].
Qed.

Lemma get_elem {V} (d : Dict.t V) k v :
  NoDup (Dict.keys d) → (k, v) ∈ d → Dict.get d k = Some v.
Proof.
  induction d as [|[k0 v0] d IH]; simpl; intros Hnd Hin.
  - by apply elem_of_nil in Hin.
  - apply NoDup_cons in Hnd as [Hk0 Hnd].
    apply elem_of_cons in Hin as [[= -> ->]|Hin].
    + by destruct (decide (k0 = k0)).
    + destruct (decide (k0 = k)) as [->|Hne]; [|by apply IH].
      exfalso. apply Hk0. apply list_elem_of_fmap. by exists (k, v).
Qed.

Lemma values_distinct {V} (d : Dict.t V) k k' v :
  NoDup d.*2 → (k, v) ∈ d → (k', v) ∈ d → k = k'.
Proof.
  induction d as [|[k0 v0] d IH]; simpl; intros Hnd H1 H2.
  - by apply elem_of_nil in H1.
  - apply NoDup_cons in Hnd as [Hv0 Hnd].
    apply elem_of_cons in H1 as [H1|H1];
      apply elem_of_cons in H2 as [H2|H2]; simplify_eq; try done.
    + exfalso. apply Hv0. apply list_elem_of_fmap. by exists (k', v0).
    + exfalso. apply Hv0. apply list_elem_of_fmap. by exists (k, v0).
    + by apply IH.
Qed.

Lemma find_timeframe_loop_Some keys d tf k :
  find_timeframe_loop keys d tf = Some k → k ∈ keys ∧ Dict.get d k = Some tf.
Proof.
  induction keys as [|k0 keys IH]; simpl; [done|].
  destruct (decide (Dict.get d k0 = Some tf)) as [Hk|Hk].
  - intros [= <-]. split; [apply list_elem_of_here|done].
  - intros H. destruct (IH H). split; [by apply list_elem_of_further|done].
Qed.

Lemma find_timeframe_loop_None keys d tf :
  find_timeframe_loop keys d tf = None ↔ ∀ k, k ∈ keys → Dict.get d k ≠ Some tf.
Proof.
  induction keys as [|k0 keys IH]; simpl.
  - split; [|done]. intros _ k H. by apply elem_of_nil in H.
  - destruct (decide (Dict.get d k0 = Some tf)) as [Hk|Hk].
    + split; [done|]. intros H. exfalso. apply (H k0); [apply list_elem_of_here|done].
    + rewrite IH. split.
      * intros H k Hin. apply elem_of_cons in Hin as [->|Hin]; [done|by apply H].
      * intros H k Hin. apply H. by apply list_elem_of_further.
Qed.

(** X24. [find_timeframe] looks a timeframe up by its value: the key it
    returns has that value, it returns [None] exactly when no key has it,
    and when the values of the dict are distinct it is the inverse of the
    lookup: the key of a value is found back from the value. Without a
    [timeframes] argument it works on [self.timeframes]. *)
Theorem find_timeframe_inverse self_timeframes timeframe timeframes :
  let d := default self_timeframes timeframes in
  let found := find_timeframe self_timeframes timeframe timeframes in
  (∀ key, found = Some key → Dict.get d key = Some timeframe)
  ∧ (found = None ↔ ∀ key, Dict.get d key ≠ Some timeframe)
  ∧ (NoDup d.*2 → ∀ key, Dict.get d key = Some timeframe → found = Some key).
Proof.
  intros d found.
  assert (H1 : ∀ key, found = Some key → Dict.get d key = Some timeframe).
  { intros key H. by apply find_timeframe_loop_Some in H as [_ H]. }
  assert (H2 : found = None ↔ ∀ key, Dict.get d key ≠ Some timeframe).
  { unfold found, find_timeframe. fold d. rewrite find_timeframe_loop_None. split.
    - intros H key Hk. apply (H key); [|done].
      apply get_Some_elem in Hk. apply list_elem_of_fmap. by exists (key, timeframe).
    - intros H key _. apply H. }
  split; [done|]. split; [done|].
  intros Hnd key Hk.
  destruct found as [key'|] eqn:Hf.
  - f_equal. pose proof (H1 key' eq_refl) as Hk'.
    apply get_Some_elem in Hk, Hk'. by apply (values_distinct d key' key timeframe).
  - exfalso. destruct H2 as [H2 _]. by apply (H2 eq_refl key).
Qed.

Lemma set_fresh {V} (d : Dict.t V) key (value : V) :
  key ∉ Dict.keys d → Dict.set key value d = (d ++ [(key, value)])%list.
Proof.
  induction d as [|[k0 v0] d IH]; simpl; [done|].
  unfold Dict.keys. simpl. rewrite not_elem_of_cons. intros [Hne Hnot].
  destruct (decide (k0 = key)) as [->|_]; [done|]. by rewrite IH.
Qed.

Lemma get_set {V} (d : Dict.t V) key (value : V) k :
  Dict.get (Dict.set key value d) k
  = if decide (key = k) then Some value else Dict.get d k.
Proof.
  induction d as [|[k0 v0] d IH]; simpl.
  - by destruct (decide (key = k)).
  - destruct (decide (k0 = key)) as [->|Hne]; simpl.
    + by destruct (decide (key = k)).
    + rewrite IH. destruct (decide (k0 = k)) as [->|Hne2]; [|done].
      by destruct (decide (key = k)).
Qed.

Lemma keys_set {V} (d : Dict.t V) key (value : V) :
  NoDup (Dict.keys d) → NoDup (Dict.keys (Dict.set key value d)).
Proof.
  unfold Dict.keys. induction d as [|[k0 v0] d IH]; simpl; intros Hnd.
  - apply NoDup_singleton.
  - apply NoDup_cons in Hnd as [Hk0 Hnd].
    destruct (decide (k0 = key)) as [->|Hne]; simpl.
    + by apply NoDup_cons.
    + apply NoDup_cons. split; [|by apply IH].
      intros Hin. apply list_elem_of_fmap in Hin as [[k v] [-> Hin]]. simpl in *.
      assert (Hg : is_Some (Dict.get (Dict.set key value d) k)).
      { destruct (Dict.get (Dict.set key value d) k) eqn:Hg; [by eexists|].
        apply get_None_keys in Hg. exfalso. apply Hg.
        apply list_elem_of_fmap. by exists (k, v). }
      rewrite get_set in Hg. destruct (decide (key = k)) as [->|_]; [done|].
      destruct Hg as [v' Hg]. apply get_Some_elem in Hg.
      apply Hk0. apply list_elem_of_fmap. by exists (k, v').
Qed.

Lemma invert_loop_sound keys d acc :
  NoDup (Dict.keys acc) →
  (∀ v k, Dict.get acc v = Some k → Dict.get d k = Some (PStr v)) →
  NoDup (Dict.keys (invert_loop keys d acc))
  ∧ (∀ v k, Dict.get (invert_loop keys d acc) v = Some k →
            Dict.get d k = Some (PStr v))
  ∧ (∀ v, is_Some (Dict.get acc v) → is_Some (Dict.get (invert_loop keys d acc) v))
  ∧ (∀ k v, k ∈ keys → Dict.get d k = Some (PStr v) →
            is_Some (Dict.get (invert_loop keys d acc) v)).
Proof.
  revert acc. induction keys as [|key keys IH]; intros acc Hnd Hacc; simpl.
  - split; [done|]. split; [done|]. split; [done|].
    intros k v H. by apply elem_of_nil in H.
  - assert (Hskip : Dict.get d key = None ∨
                    (∃ x, Dict.get d key = Some x ∧ ∀ s, x ≠ PStr s) →
      NoDup (Dict.keys (invert_loop keys d acc))
      ∧ (∀ v k, Dict.get (invert_loop keys d acc) v = Some k →
                Dict.get d k = Some (PStr v))
      ∧ (∀ v, is_Some (Dict.get acc v) → is_Some (Dict.get (invert_loop keys d acc) v))
      ∧ (∀ k v, k ∈ key :: keys → Dict.get d k = Some (PStr v) →
                is_Some (Dict.get (invert_loop keys d acc) v))).
    { intros Hno. destruct (IH acc Hnd Hacc) as (H1 & H2 & H3 & H4).
      split; [done|]. split; [done|]. split; [done|].
      intros k v Hin Hk. apply elem_of_cons in Hin as [->|Hin]; [|by apply (H4 k)].
      exfalso. destruct Hno as [Hno|(x & Hx & Hno)]; [congruence|].
      rewrite Hx in Hk. injection Hk as ->. by apply (Hno v). }
    destruct (Dict.get d key) as [[| |value|]|] eqn:Hkey;
      try (apply Hskip; right; eexists; split; [done|done]);
      try (apply Hskip; by left).
    destruct (IH (Dict.set value key acc)) as (H1 & H2 & H3 & H4).
    { by apply keys_set. }
    { intros v k. rewrite get_set. destruct (decide (value = v)) as [->|_].
      - by intros [= <-].
      - apply Hacc. }
    split; [done|]. split; [done|]. split.
    { intros v Hv. apply H3. rewrite get_set.
      by destruct (decide (value = v)). }
    intros k v Hin Hk. apply elem_of_cons in Hin as [->|Hin]; [|by apply (H4 k)].
    apply H3. rewrite get_set. rewrite Hkey in Hk. injection Hk as ->.
    by destruct (decide (v = v)).
Qed.

(** X25. [invert_flat_string_dictionary] gives a dict again (its keys are
    distinct), made of the string values of the argument: every entry
    [value: key] of the result comes from an entry [key: value] of the
    argument, every string value of the argument is a key of the result, and
    values that are not strings are left out. *)
Theorem invert_flat_string_dictionary_sound dict :
  let reversed := invert_flat_string_dictionary dict in
  NoDup (Dict.keys reversed)
  ∧ (∀ value key, Dict.get reversed value = Some key →
                  Dict.get dict key = Some (PStr value))
  ∧ (∀ key value, Dict.get dict key = Some (PStr value) →
                  is_Some (Dict.get reversed value)).
Proof.
  intros reversed.
  destruct (invert_loop_sound (Dict.keys dict) dict []) as (H1 & H2 & _ & H4).
  { apply NoDup_nil_2. }
  { intros v k H. discriminate. }
  split; [done|]. split; [done|].
  intros key value Hk. apply (H4 key); [|done].
  apply get_Some_elem in Hk. apply list_elem_of_fmap. by exists (key, PStr value).
Qed.

Lemma invert_loop_swapped d pre suf :
  NoDup (Dict.keys d) → NoDup d.*2 → d = (pre ++ suf)%list →
  invert_loop (Dict.keys suf) (strings d) (swapped pre) = swapped d.
Proof.
  intros Hk Hv. revert pre. induction suf as [|[k v] suf IH]; intros pre Hd; simpl.
  - by rewrite Hd, app_nil_r.
  - assert (Hin : (k, v) ∈ d).
    { rewrite Hd. apply elem_of_app. right. apply list_elem_of_here. }
    assert (Hget : Dict.get (strings d) k = Some (PStr v)).
    { apply get_elem.
      - unfold Dict.keys, strings. rewrite <- list_fmap_compose.
        by replace (fst ∘ (fun kv : string * string => (kv.1, PStr kv.2)))
          with (fst : string * string → string).
      - apply list_elem_of_fmap. by exists (k, v). }
    rewrite Hget.
    assert (Hfresh : v ∉ Dict.keys (swapped pre)).
    { unfold Dict.keys, swapped. rewrite <- list_fmap_compose.
      intros Hx. apply list_elem_of_fmap in Hx as [[k' v'] [Hx Hx']]. simpl in Hx.
      subst v'. rewrite Hd in Hv. rewrite fmap_app in Hv. simpl in Hv.
      apply NoDup_app in Hv as (_ & Hv & _). apply (Hv v).
      - apply list_elem_of_fmap. by exists (k', v).
      - apply list_elem_of_here. }
    rewrite (set_fresh _ _ _ Hfresh).
    replace (swapped pre ++ [(v, k)])%list with (swapped (pre ++ [(k, v)])%list).
    + apply IH. by rewrite <- app_assoc.
    + unfold swapped. by rewrite fmap_app.
Qed.

Lemma swapped_swapped d : swapped (swapped d) = d.
Proof.
  unfold swapped. induction d as [|[k v] d IH]; [done|].
  rewrite !fmap_cons. simpl. by rewrite IH.
Qed.

(** X26. On a dict of strings whose values are distinct,
    [invert_flat_string_dictionary] swaps keys and values, entry by entry
    and in the same order, and inverting twice gives the dict back. *)
Theorem invert_flat_string_dictionary_round_trip d :
  NoDup (Dict.keys d) → NoDup d.*2 →
  invert_flat_string_dictionary (strings d) = swapped d
  ∧ invert_flat_string_dictionary
      (strings (invert_flat_string_dictionary (strings d))) = d.
Proof.
  intros Hk Hv.
  assert (Hkeys : ∀ x, Dict.keys (strings x) = Dict.keys x).
  { intros x. unfold Dict.keys, strings. rewrite <- list_fmap_compose.
    by replace (fst ∘ (fun kv : string * string => (kv.1, PStr kv.2)))
      with (fst : string * string → string). }
  assert (Hone : ∀ x, NoDup (Dict.keys x) → NoDup x.*2 →
            invert_flat_string_dictionary (strings x) = swapped x).
  { intros x Hx1 Hx2. unfold invert_flat_string_dictionary. rewrite Hkeys.
    by apply (invert_loop_swapped x [] x). }
  split; [by apply Hone|].
  rewrite (Hone d Hk Hv). rewrite Hone.
  - apply swapped_swapped.
  - unfold Dict.keys, swapped. rewrite <- list_fmap_compose.
    by replace (fst ∘ (fun kv : string * string => (kv.2, kv.1)))
      with (snd : string * string → string).
  - unfold swapped. rewrite <- list_fmap_compose.
    by replace (snd ∘ (fun kv : string * string => (kv.2, kv.1)))
      with (fst : string * string → string).
Qed.

Lemma prefix_occurs s1 s2 :
  String.prefix s1 s2 = true ↔ ∃ after, s2 = s1 +:+ after.
Proof.
  revert s2. induction s1 as [|a s1 IH]; intros s2.
  - destruct s2; simpl; (split; [intros _; by eexists|done]).
  - destruct s2 as [|b s2]; simpl.
    + split; [done|]. intros [after H]. discriminate.
    + destruct (Ascii.ascii_dec a b) as [->|Hne].
      * rewrite IH. split; intros [after H]; exists after; [by rewrite H|].
        by injection H.
      * split; [done|]. intros [after H]. injection H as H _. congruence.
Qed.

Lemma index_cons s1 c s2 :
  String.index 0 s1 (String c s2)
  = if String.prefix s1 (String c s2) then Some 0%nat
    else match String.index 0 s1 s2 with
         | Some n => Some (S n)
         | None => None
         end.
Proof. reflexivity. Qed.

Lemma index_occurs s1 s2 : is_Some (String.index 0 s1 s2) ↔ occurs s1 s2.
Proof.
  induction s2 as [|c s2 IH].
  - destruct s1 as [|a s1]; simpl.
    + split; [|by eexists]. intros _. by exists "", "".
    + split; [by intros [? H]|].
      intros (before & after & H). destruct before; discriminate.
  - rewrite index_cons. destruct (String.prefix s1 (String c s2)) eqn:Hp.
    + split; [|by eexists]. intros _.
      apply prefix_occurs in Hp as [after Hafter]. by exists "", after.
    + assert (Hsome : is_Some (match String.index 0 s1 s2 with
                               | Some n => Some (S n)
                               | None => None
                               end) ↔ is_Some (String.index 0 s1 s2)).
      { destruct (String.index 0 s1 s2); split; intros [? H]; try done; by eexists. }
      rewrite Hsome, IH. split.
      * intros (before & after & ->). by exists (String c before), after.
      * intros (before & after & H). destruct before as [|c' before].
        -- exfalso. simpl in H.
           assert (String.prefix s1 (String c s2) = true); [|congruence].
           apply prefix_occurs. by exists after.
        -- simpl in H. injection H as _ H. by exists before, after.
Qed.

Lemma find_occurs s sub : (0 <=? find s sub)%Z = true ↔ occurs sub s.
Proof.
  rewrite <- index_occurs. unfold find.
  destruct (String.index 0 sub s) as [i|].
  - split; [by eexists|]. intros _. apply Z.leb_le. lia.
  - split; [done|]. by intros [? H].
Qed.

Lemma find_broadly_loop_first (broad : Dict.t Class) s k :
  find_broadly_loop (Dict.keys broad) (Some s) = Some k →
  ∃ pre cls post, broad = (pre ++ (k, cls) :: post)%list
    ∧ occurs k s ∧ ∀ k', k' ∈ Dict.keys pre → ¬ occurs k' s.
Proof.
  induction broad as [|[k0 c0] broad IH]; simpl; [done|].
  destruct (0 <=? find s k0)%Z eqn:Hf.
  - intros [= <-]. exists [], c0, broad. split; [done|].
    split; [by apply find_occurs|]. intros k' H. by apply elem_of_nil in H.
  - intros H. destruct (IH H) as (pre & cls & post & -> & Hocc & Hpre).
    exists ((k0, c0) :: pre), cls, post. split; [done|]. split; [done|].
    intros k' Hin. unfold Dict.keys in Hin. simpl in Hin.
    apply elem_of_cons in Hin as [->|Hin]; [|by apply Hpre].
    intros Ho. apply find_occurs in Ho. congruence.
Qed.

Lemma find_broadly_loop_None (keys : list string) s :
  find_broadly_loop keys (Some s) = None ↔ ∀ k, k ∈ keys → ¬ occurs k s.
Proof.
  induction keys as [|k0 keys IH]; simpl.
  - split; [|done]. intros _ k H. by apply elem_of_nil in H.
  - destruct (0 <=? find s k0)%Z eqn:Hf.
    + split; [done|]. intros H. exfalso. apply (H k0); [apply list_elem_of_here|].
      by apply find_occurs.
    + rewrite IH. split.
      * intros H k Hin. apply elem_of_cons in Hin as [->|Hin]; [|by apply H].
        intros Ho. apply find_occurs in Ho. congruence.
      * intros H k Hin. apply H. by apply list_elem_of_further.
Qed.

Lemma find_broadly_loop_no_string (keys : list string) :
  find_broadly_loop keys None = None.
Proof. induction keys; [done|]. by simpl. Qed.

Lemma get_app_notin {V} (pre post : Dict.t V) k v :
  k ∉ Dict.keys pre → Dict.get (pre ++ (k, v) :: post)%list k = Some v.
Proof.
  induction pre as [|[k0 v0] pre IH]; simpl.
  - intros _. by destruct (decide (k = k)).
  - unfold Dict.keys. simpl. rewrite not_elem_of_cons. intros [Hne Hnot].
    destruct (decide (k0 = k)) as [->|_]; [done|]. by apply IH.
Qed.

(** X27. [throw_broadly_matched_exception] goes by the first key, in the
    order of the dict, that occurs somewhere in the string: it raises the
    exception class of that key with the message, also when a later key
    occurs in the string as well; it returns without raising exactly when
    no key occurs in the string, and always when the string is [None]. *)
Theorem throw_broadly_matched_exception_first broad message :
  throw_broadly_matched_exception broad None message = None
  ∧ (∀ s, throw_broadly_matched_exception broad (Some s) message = None
          ↔ ∀ key, key ∈ Dict.keys broad → ¬ occurs key s)
  ∧ (∀ s e, throw_broadly_matched_exception broad (Some s) message = Some e →
       ∃ pre key cls post,
         broad = (pre ++ (key, cls) :: post)%list
         ∧ occurs key s
         ∧ (∀ key', key' ∈ Dict.keys pre → ¬ occurs key' s)
         ∧ e = new cls message).
Proof.
  unfold throw_broadly_matched_exception, find_broadly_matched_key.
  split; [by rewrite find_broadly_loop_no_string|].
  assert (Hfirst : ∀ s k, find_broadly_loop (Dict.keys broad) (Some s) = Some k →
            ∃ pre cls post, broad = (pre ++ (k, cls) :: post)%list
              ∧ occurs k s ∧ (∀ k', k' ∈ Dict.keys pre → ¬ occurs k' s)
              ∧ Dict.get broad k = Some cls).
  { intros s k H.
    destruct (find_broadly_loop_first broad s k H) as (pre & cls & post & -> & Ho & Hp).
    exists pre, cls, post. split; [done|]. split; [done|]. split; [done|].
    apply get_app_notin. intros Hin. by apply (Hp k). }
  split.
  - intros s. rewrite <- find_broadly_loop_None.
    destruct (find_broadly_loop (Dict.keys broad) (Some s)) as [k|] eqn:Hk; [|done].
    destruct (Hfirst s k Hk) as (pre & cls & post & _ & _ & _ & ->). done.
  - intros s e.
    destruct (find_broadly_loop (Dict.keys broad) (Some s)) as [k|] eqn:Hk; [|done].
    destruct (Hfirst s k Hk) as (pre & cls & post & Hb & Ho & Hp & ->).
    intros [= <-]. by exists pre, k, cls, post.
Qed.

End DictUtilities.

(** ** Options and [params] *)

Section OptionsAndParams.

Variable self : Exchange.

(** X28. An option given in [params], under its own name or under
    [default] + its capitalised name, wins over every setting in
    [self.options] and is used up: both spellings are taken out of the
    [params] handed back, the rest of [params] stays. With neither spelling
    in [params], [params] come back as they are and the value is the one
    [handle_option] gives; [handle_option] is the case of empty [params]. *)
Theorem handle_option_and_params_consumes params methodName optionName defaultValue :
  let defaultOptionName := "default" +:+ capitalize optionName in
  let r := handle_option_and_params self params methodName optionName defaultValue in
  (∀ v, params !! optionName = Some v → r.1 = v)
  ∧ (∀ v, params !! optionName = None → params !! defaultOptionName = Some v →
          r.1 = v)
  ∧ (is_Some (params !! optionName) ∨ is_Some (params !! defaultOptionName) →
     r.2 !! optionName = None ∧ r.2 !! defaultOptionName = None
     ∧ ∀ k, k ≠ optionName → k ≠ defaultOptionName → r.2 !! k = params !! k)
  ∧ (params !! optionName = None → params !! defaultOptionName = None →
     r = (handle_option self methodName optionName defaultValue, params))
  ∧ handle_option self methodName optionName defaultValue
    = (handle_option_and_params self ∅ methodName optionName defaultValue).1.
Proof.
  intros defaultOptionName r.
  assert (Homit : ∀ v, safe_value_2_int params optionName defaultOptionName = Some v →
            r = (v, delete optionName (delete defaultOptionName params))).
  { intros v Hv. unfold r, handle_option_and_params. fold defaultOptionName.
    by rewrite Hv. }
  assert (Hnone : ∀ p : gmap string Z,
            p !! optionName = None → p !! defaultOptionName = None →
            handle_option_and_params self p methodName optionName defaultValue
            = (handle_option self methodName optionName defaultValue, p)).
  { intros p H1 H2. unfold handle_option_and_params, handle_option.
    fold defaultOptionName. unfold safe_value_2_int at 1. rewrite H1, H2.
    destruct (options self !! methodName) as [[z|d]|]; simpl;
      try destruct (safe_value_2_int d optionName defaultOptionName); simpl;
      try done;
      destruct (safe_value_2_top (options self) optionName defaultOptionName)
        as [[z'|d']|]; done. }
  split; [|split; [|split; [|split]]].
  - intros v Hv. rewrite (Homit v); [done|]. unfold safe_value_2_int. by rewrite Hv.
  - intros v Hn Hv. rewrite (Homit v); [done|].
    unfold safe_value_2_int. by rewrite Hn.
  - intros Hsome.
    assert (∃ v, safe_value_2_int params optionName defaultOptionName = Some v)
      as [v Hv].
    { unfold safe_value_2_int. destruct (params !! optionName) as [v|]; [by eexists|].
      destruct Hsome as [[? H]|[v H]]; [done|]. by exists v. }
    rewrite (Homit v Hv). simpl. split; [apply lookup_delete_eq|]. split.
    + destruct (decide (optionName = defaultOptionName)) as [<-|Hne].
      * apply lookup_delete_eq.
      * rewrite lookup_delete_ne by done. apply lookup_delete_eq.
    + intros k H1 H2. by rewrite !lookup_delete_ne.
  - intros H1 H2. by apply Hnone.
  - by rewrite Hnone.
Qed.

End OptionsAndParams.

(** ** Subscribing again after a failure *)

Section Resubscribe.

Context {Snapshot Delta : Type}.
Implicit Types (w : World Snapshot Delta).

Lemma watch_registry_ok self reg u mh msg sh sub w :
  registry_ok w → registry_ok (watch self reg u mh msg sh sub w).2.
Proof.
  intros Hok.
  destruct (watch_effect self reg u mh msg sh sub w Hok)
    as (cl0 & cl' & Hcl0 & Hobj & Hurl & Hcl & Hreg & _).
  destruct (client_of_spec u w Hok) as (_ & _ & _ & _ & Hokc & _).
  intros u' c' Hu'. rewrite Hcl in Hu'.
  destruct (Hokc u' c' Hu') as (cl1 & Hcl1 & Hurl1).
  rewrite Hobj. destruct (decide (c' = (client_of u w).1)) as [->|Hne].
  - rewrite lookup_insert_eq. exists cl'. split; [done|].
    destruct (Hokc u _ Hreg) as (cl2 & Hcl2 & Hurl2). congruence.
  - rewrite lookup_insert_ne by done. by exists cl1.
Qed.

(** [client.future] hands out a pending Future or a new one, never one that
    is completed. *)
Lemma client_future_pending_or_new c mh w cl :
  objects w !! c = Some cl →
  fstate w !! (client_future c mh w).1 = Some Pending
  ∨ fstate w !! (client_future c mh w).1 = None.
Proof.
  intros Hc. unfold client_future. rewrite Hc.
  assert (Hfresh : fstate w !! fresh (dom (fstate w)) = None).
  { apply not_elem_of_dom. apply is_fresh. }
  destruct (futures cl !! mh) as [f|]; [|by right].
  destruct (fstate w !! f) as [[| |]|] eqn:Hf; simpl; try by right.
  by left.
Qed.

(** X29. After the send of a subscribe message failed with a
    [ConnectionError], the connection is still the registered one, the key
    is free again and [reject] was called on the Future, which completes it
    if it was pending. The next [watch] call with that key, under the same
    message hash or another, records the key again and registers a callback
    for its own Future and message on the same connection. A Future that
    was rejected stays rejected through that call. *)
Theorem watch_resubscribes_after_send_failure
    self u k mh msg sub mh2 msg2 sub2 w e :
  registry_ok w →
  truthy (subscription_get (client_of u w).1 (Some k) (client_of u w).2) = false →
  truthy msg = true →
  isinstance e ConnectionError = true →
  let c := (client_of u w).1 in
  let r := watch self None u mh msg (Some k) sub w in
  let w' := (after self (mkAfter c r.1 msg (Some k)) (Some e) r.2).1 in
  let r2 := watch self None u mh2 msg2 (Some k) sub2 w' in
  clients w' !! u = Some c
  ∧ subscriptions_of c w' !! Some k = None
  ∧ fstate w' = settle r.1 (Rejected e) (fstate r.2)
  ∧ (fstate r.2 !! r.1 = Some Pending → fstate w' !! r.1 = Some (Rejected e))
  ∧ subscriptions_of c r2.2 !! Some k = Some (or_ sub2 PTrue)
  ∧ callbacks r2.2 = (callbacks w' ++ [mkAfter c r2.1 msg2 (Some k)])%list
  ∧ (fstate w' !! r.1 = Some (Rejected e) →
     fstate r2.2 !! r.1 = Some (Rejected e)).
Proof.
  intros Hok Hnot Hmsg He c r w' r2.
  destruct (watch_new_key self u mh msg k sub w Hok Hnot)
    as (_ & Hc1 & (cl1 & Hcl1 & Hsub1) & Hpend & _).
  fold r c in Hc1, Hcl1, Hpend.
  pose proof (watch_registry_ok self None u mh msg (Some k) sub w Hok) as Hokr.
  fold r in Hokr.
  destruct (after_connection_error_effect self (mkAfter c r.1 msg (Some k)) e r.2
              cl1 _ Hmsg He Hcl1 Hsub1) as (Hcl' & Hobj' & Hfs' & _).
  fold w' in Hcl', Hobj', Hfs'. simpl in Hobj', Hfs'.
  assert (Hrej : fstate w' !! r.1 = Some (Rejected e)).
  { rewrite Hfs'. unfold settle. rewrite Hpend. apply lookup_insert_eq. }
  assert (Hc' : objects w' !! c = Some (set_subscriptions (delete (Some k)) cl1)).
  { by rewrite Hobj', lookup_insert_eq. }
  assert (Hfree : subscriptions_of c w' !! Some k = None).
  { unfold subscriptions_of. rewrite Hc'. simpl. apply lookup_delete_eq. }
  assert (Hreg' : clients w' !! u = Some c) by by rewrite Hcl'.
  assert (Hok' : registry_ok w').
  { intros u' c' Hu'. rewrite Hcl' in Hu'.
    destruct (Hokr u' c' Hu') as (cl2 & Hcl2 & Hurl2).
    rewrite Hobj'. destruct (decide (c' = c)) as [->|Hne].
    - rewrite lookup_insert_eq. eexists. split; [done|]. simpl. congruence.
    - rewrite lookup_insert_ne by done. by exists cl2. }
  assert (Hof : client_of u w' = (c, w')) by by apply client_of_registered.
  assert (Hnot' : truthy (subscription_get (client_of u w').1 (Some k)
                            (client_of u w').2) = false).
  { rewrite Hof. simpl. rewrite subscription_get_of. by rewrite Hfree. }
  destruct (watch_new_key self u mh2 msg2 k sub2 w' Hok' Hnot')
    as (Hcb2 & _ & (cl2 & Hcl2 & Hsub2) & Hpend2 & _).
  fold r2 in Hcb2, Hcl2, Hpend2. rewrite Hof in Hcb2, Hcl2. simpl in Hcb2, Hcl2.
  assert (Hne : r2.1 ≠ r.1).
  { unfold r2. rewrite watch_keyed. rewrite Hof. cbn [fst snd].
    destruct (client_future_pending_or_new c mh2 w' _ Hc') as [H|H];
      intros Heq; rewrite Heq in H; congruence. }
  split; [done|]. split; [done|]. split; [done|]. split; [done|]. split.
  { unfold subscriptions_of. by rewrite Hcl2. }
  split; [done|]. intros _.
  pose proof (watch_fstate_other self None u mh2 msg2 (Some k) sub2 w' r.1 Hok')
    as Hfr. fold r2 in Hfr. rewrite Hfr; [done|]. by intros Heq.
Qed.

End Resubscribe.

(** * Scenarios for the rest of the code *)

Section MoreScenarios.

Import Venue Scenario Cases.

Local Abbreviation mh := "orderbook:BTC/USDT".
Local Abbreviation sym := "BTC/USDT".
Local Abbreviation ws := "wss://venue/ws".
Local Abbreviation key := "ETH/USDT@depth".
Local Abbreviation request := (PStr "{op:subscribe,channel:depth,symbol:ETH/USDT}").
Local Abbreviation connection := (mkClient ws {[ mh := 7%nat ]} ∅ true false).

Lemma world_futures_ok : futures_ok world.
Proof.
  assert (Hobj : ∀ c cl, objects world !! c = Some cl → c = 0%nat ∧ cl = connection).
  { intros c cl H.
    change (({[ 0%nat := connection ]} : gmap nat Client) !! c = Some cl) in H.
    by apply lookup_singleton_Some in H as [<- <-]. }
  assert (Hfut : ∀ m f, futures connection !! m = Some f → m = mh ∧ f = 7%nat).
  { intros m f H.
    change (({[ mh := 7%nat ]} : gmap string nat) !! m = Some f) in H.
    by apply lookup_singleton_Some in H as [<- <-]. }
  split.
  - intros c cl m f Hc Hf. destruct (Hobj c cl Hc) as [-> ->].
    destruct (Hfut m f Hf) as [-> ->]. by eexists.
  - intros c1 cl1 m1 c2 cl2 m2 f H1 H2 H3 H4.
    destruct (Hobj _ _ H1) as [-> ->]. destruct (Hobj _ _ H3) as [-> ->].
    destruct (Hfut _ _ H2) as [-> ->]. destruct (Hfut _ _ H4) as [-> _]. done.
Qed.

(** X1, witness: the REST endpoint times out twice and then answers; the third
    fetch is the one returned. *)
Lemma fetch_rest_order_book_safe_returns_first_witness :
  (fetch_rest_order_book_safe exchange flaky sym world).2
  = inr (Some (snapshot 103))
  ∧ fetches (fetch_rest_order_book_safe exchange flaky sym world).1 = 3%nat.
Proof.
  apply (fetch_rest_order_book_safe_returns_first exchange flaky sym world 2
           [] (snapshot 103)).
  - vm_compute. lia.
  - intros j Hj. exists [], request_timeout.
    destruct j as [|[|j]]; [split; reflexivity..|lia].
  - reflexivity.
Defined.

(** X2, witness: the REST endpoint is down; the third failure is the one
    raised. *)
Lemma fetch_rest_order_book_safe_raises_last_witness :
  (fetch_rest_order_book_safe exchange down sym world).2 = inl not_available
  ∧ fetches (fetch_rest_order_book_safe exchange down sym world).1 = 3%nat.
Proof.
  apply (fetch_rest_order_book_safe_raises_last exchange down sym world
           [] not_available).
  - reflexivity.
  - intros j Hj.
    destruct j as [|[|[|j]]];
      [exists [], request_timeout; split; reflexivity
      |exists [], request_timeout; split; reflexivity
      |exists [], not_available; split; reflexivity
      |vm_compute in Hj; lia].
  - reflexivity.
Defined.

(** X5, witness: a [TypeError] in the venue's [handle_delta] leaves the call at
    the first attempt, and the waiter stays pending. *)
Lemma load_order_book_propagates_witness :
  let stored := mkOrderBook (mkSnap 0 [] []) buffered in
  let w1 := loop_world (attempts faulty 0%nat mh sym 3 1 0 stored world) in
  (∃ gas0, ∀ gas, (gas0 ≤ gas)%nat →
     load_order_book exchange faulty gas 0%nat mh sym world
     = Raised broken_delta w1)
  ∧ fstate w1 !! 7%nat = Some Pending.
Proof.
  intros stored w1.
  destruct (load_order_book_propagates exchange faulty 0%nat mh sym world 0%Z
              stored world broken_delta w1) as (H1 & H2 & _).
  - apply reach_start. reflexivity.
  - vm_compute. reflexivity.
  - reflexivity.
  - split; [exact H1|]. rewrite H2. reflexivity.
Defined.

(** X6, witness: three snapshots beyond the cache, on a connection that is no
    longer registered. *)
Lemma load_order_book_exhausted_unregistered_witness :
  ∃ e w1,
    (∃ gas0, ∀ gas, (gas0 ≤ gas)%nat →
       load_order_book exchange gapped gas 0%nat mh sym orphaned = Raised e w1)
    ∧ isinstance e KeyError = true
    ∧ fstate w1 !! 7%nat
      = Some (Rejected (new ExchangeError
                            "venue nonce is behind cache after 3 tries.")).
Proof.
  assert (Hreach :
    ∃ stored w, reaches exchange gapped 0%nat mh sym orphaned 3 stored w
                ∧ objects w = objects orphaned ∧ fstate w = fstate orphaned
                ∧ clients w = ∅).
  { eexists _, _. split.
    - change 3%Z with (0 + 1 + 1 + 1)%Z.
      eapply reach_behind; [eapply reach_behind; [eapply reach_behind;
        [apply reach_start; reflexivity|..]|..]|..];
        reflexivity.
    - repeat split; reflexivity. }
  destruct Hreach as (stored & w & Hr & Ho & Hf & Hc).
  destruct (load_order_book_exhausted_unregistered exchange gapped 0%nat mh sym
              orphaned 3%Z stored w Hr ltac:(reflexivity))
    as (Hcall & _ & Hwait).
  { rewrite Hc. apply lookup_empty. }
  eexists _, _. split; [exact Hcall|]. split; [reflexivity|].
  apply Hwait.
  - unfold futures_of. rewrite Ho. reflexivity.
  - rewrite Hf. reflexivity.
Defined.

(** X8, witness: a subscription on the connection of the scenario. *)
Lemma watch_keeps_registry_witness :
  let r := watch exchange None ws "orderbook:ETH/USDT" request (Some key) PNone
                 world in
  registry_ok r.2 ∧ clients r.2 !! ws = Some 0%nat.
Proof.
  intros r.
  destruct (watch_keeps_registry exchange None ws "orderbook:ETH/USDT" request
              (Some key) PNone world world_registry_ok) as (H1 & H2 & _).
  split; [exact H1|exact H2].
Defined.

(** X9, witness: a trades watcher and a ticker watcher on one connection. *)
Lemma watch_distinct_futures_witness :
  let r1 := watch exchange None ws "trades:ETH/USDT" PNone None PNone world in
  let r2 := watch exchange None ws "ticker:ETH/USDT" PNone None PNone r1.2 in
  r1.1 ≠ r2.1.
Proof.
  intros r1 r2.
  destruct (watch_distinct_futures exchange None None ws
              "trades:ETH/USDT" PNone None PNone
              "ticker:ETH/USDT" PNone None PNone world
              world_registry_ok world_futures_ok) as (_ & _ & H).
  - discriminate.
  - exact H.
Defined.

(** X10, witness: the server closes the connection of the scenario and the book
    is watched again. *)
Lemma on_close_reconnects_witness :
  let w1 := on_close 0%nat world in
  let r := watch exchange None ws mh PNone None PNone w1 in
  clients w1 !! ws = None
  ∧ clients r.2 !! ws = Some (client_of ws w1).1
  ∧ (client_of ws w1).1 ≠ 0%nat
  ∧ fstate r.2 !! 7%nat = Some Pending
  ∧ fstate r.2 !! r.1 = Some Pending.
Proof.
  intros w1 r.
  destruct (on_close_reconnects exchange ws mh PNone None PNone world 0%nat
              connection world_registry_ok)
    as (H1 & H2 & _ & H4 & _ & H6 & H7 & H8 & _); [reflexivity..|].
  split; [reflexivity|]. split; [exact H4|]. split; [exact H2|].
  split; [|exact H7].
  rewrite H8; [reflexivity|]. intros Heq. rewrite <- Heq in H6. discriminate.
Defined.

(** X11, witness: a late close event for the client that was replaced. *)
Lemma on_close_stale_client_witness :
  let r := watch exchange None ws mh PNone None PNone (on_close 0%nat world) in
  clients r.2 !! ws = Some (client_of ws (on_close 0%nat world)).1
  ∧ (client_of ws (on_close 0%nat world)).1 ≠ 0%nat
  ∧ clients (on_close 0%nat r.2) !! ws = None.
Proof.
  intros r.
  destruct (on_close_stale_client exchange ws mh PNone None PNone world 0%nat
              connection world_registry_ok)
    as (H1 & H2 & H3 & _); [reflexivity..|].
  split; [exact H2|]. split; [exact H1|exact H3].
Defined.

(** X12, witness: the connection of the scenario has no error, so [on_error]
    leaves it registered and [on_close] removes it. *)
Lemma on_error_on_close_unregister_witness :
  on_error 0%nat world = world
  ∧ on_close 0%nat (on_error 0%nat world) = set_clients (delete ws) world.
Proof.
  destruct (on_error_on_close_unregister ws 0%nat connection world
              world_registry_ok) as (H1 & _ & H3 & _); [reflexivity..|].
  split; [exact H1|exact H3].
Defined.

(** X14, witness: a first watcher without a message, a second with one. *)
Lemma watch_without_message_never_sends_witness :
  let r1 := watch exchange None ws "orderbook:ETH/USDT" PNone (Some key) PNone
                  world in
  let w2 := watch_all exchange [(None, "orderbook:ETH/USDT", request, PNone)]
                      ws key r1.2 in
  count is_send (log (fire exchange (fun _ => None) w2)) = 0%nat.
Proof.
  intros r1 w2.
  destruct (watch_without_message_never_sends exchange ws key
              "orderbook:ETH/USDT" PNone PNone
              [(None, "orderbook:ETH/USDT", request, PNone)] world
              (fun _ => None) world_registry_ok) as (_ & H); [reflexivity..|].
  exact H.
Defined.

(** X17, witness: a venue with a testnet; a venue whose live url is one
    string and whose testnet urls are a dict; and a venue whose live urls
    are a dict and whose testnet url is one string. *)
Lemma set_sandbox_mode_round_trip_witness :
  (let sandbox := <["api" := UStr "https://testnet.venue.com"]>
                    (<["apiBackup" := UStr "https://api.venue.com"]> urls) in
   set_sandbox_mode clone exchange true urls = (sandbox, None)
   ∧ set_sandbox_mode clone exchange false sandbox = (urls, None))
  ∧ (let sandbox :=
       <["api" := UDict {[ "public" := "https://testnet.venue.com/public" ]}]>
         (<["apiBackup" := UStr "https://api.venue.com"]> urls_dict_test) in
     set_sandbox_mode clone exchange true urls_dict_test = (sandbox, None)
     ∧ set_sandbox_mode clone exchange false sandbox = (sandbox, Some value_error))
  ∧ set_sandbox_mode clone exchange true urls_dict_api
    = (<["apiBackup" := UDict {[ "public" := "https://api.venue.com/public" ]}]>
         urls_dict_api,
       Some value_error).
Proof.
  split; [|split].
  - destruct (set_sandbox_mode_round_trip clone exchange urls
                (UStr "https://testnet.venue.com") (UStr "https://api.venue.com"))
      as (H1 & _); [intros d; reflexivity|reflexivity..|].
    exact (H1 eq_refl).
  - destruct (set_sandbox_mode_round_trip clone exchange urls_dict_test
                (UDict {[ "public" := "https://testnet.venue.com/public" ]})
                (UStr "https://api.venue.com"))
      as (_ & H2 & _); [intros d; reflexivity|reflexivity..|].
    exact (H2 eq_refl eq_refl).
  - destruct (set_sandbox_mode_round_trip clone exchange urls_dict_api
                (UStr "https://testnet.venue.com")
                (UDict {[ "public" := "https://api.venue.com/public" ]}))
      as (_ & _ & H3); [intros d; reflexivity|reflexivity..|].
    exact (H3 eq_refl eq_refl).
Defined.

(** X18, witness: the sandbox switched on twice. *)
Lemma set_sandbox_mode_twice_witness :
  ∃ once twice,
    set_sandbox_mode clone exchange true urls = (once, None)
    ∧ set_sandbox_mode clone exchange true once = (twice, None)
    ∧ (set_sandbox_mode clone exchange false twice).1 ≠ urls.
Proof.
  destruct (set_sandbox_mode_twice clone exchange urls
              (UStr "https://testnet.venue.com") (UStr "https://api.venue.com"))
    as (H1 & H2 & _ & _ & H5); [intros d; reflexivity|reflexivity..|discriminate|].
  eexists _, _. split; [exact H1|]. split; [exact H2|].
  apply H5. discriminate.
Defined.

(** X19, witness: three more callers while the first load runs. *)
Lemma load_markets_single_flight_witness :
  (load_markets_enter_all [false; true; false]
     (load_markets_enter false fresh_loader).2).1
  = [Some 0%nat; Some 0%nat; Some 0%nat]
  ∧ tasks (load_markets_enter_all [false; true; false]
             (load_markets_enter false fresh_loader).2).2 = 1%nat.
Proof.
  destruct (load_markets_single_flight false [false; true; false] fresh_loader)
    as (_ & H2 & _ & H4); [reflexivity|].
  split; [exact H2|exact H4].
Defined.

(** X20, witness: the venue is not available at the first load. *)
Lemma load_markets_failure_retries_witness :
  let first := load_markets markets_after_failure false fresh_loader in
  first.2 = inl not_available
  ∧ (load_markets markets_after_failure false first.1).2
    = inr ["BTC/USDT"; "ETH/USDT"].
Proof.
  intros first.
  destruct (load_markets_failure_retries markets_after_failure false false
              fresh_loader not_available) as (H1 & _ & _ & H4 & _);
    [reflexivity..|].
  split; [exact H1|exact H4].
Defined.

(** X21, witness: the load that follows a failure succeeds and is kept. *)
Lemma load_markets_cached_witness :
  let first := load_markets markets_after_failure false (mkLoader None false 1) in
  first.2 = inr ["BTC/USDT"; "ETH/USDT"]
  ∧ load_markets markets_after_failure false first.1
    = (first.1, inr ["BTC/USDT"; "ETH/USDT"]).
Proof.
  intros first.
  destruct (load_markets_cached markets_after_failure false
              (mkLoader None false 1) ["BTC/USDT"; "ETH/USDT"])
    as (H1 & H2 & _); [reflexivity..|].
  split; [exact H1|exact H2].
Defined.

(** X22, witness: the first load is cancelled. *)
Lemma load_markets_stuck_witness :
  let outcome := fun _ : nat => inl cancelled : Exc + list string in
  let first := load_markets outcome false fresh_loader in
  first.2 = inl cancelled
  ∧ load_markets outcome true first.1 = (first.1, inl cancelled).
Proof.
  intros outcome first.
  destruct (load_markets_stuck outcome false fresh_loader cancelled)
    as (H1 & _ & _ & H4); [reflexivity..|].
  split; [exact H1|apply H4].
Defined.

(** X23, witness: two callers of the load that fails. *)
Lemma load_markets_late_waiter_witness :
  let a := load_markets_enter false fresh_loader in
  let b := load_markets_enter false a.2 in
  let a' := load_markets_leave (Markets := list string) (inl not_available) b.2 in
  let c := load_markets_enter false a'.1 in
  let b' := load_markets_leave (Markets := list string) (inl not_available) c.2 in
  let d := load_markets_enter false b'.1 in
  c.1 = Some 1%nat ∧ d.1 = Some 2%nat.
Proof.
  intros a b a' c b' d.
  destruct (load_markets_late_waiter markets_after_failure false false false
              false fresh_loader not_available)
    as (_ & _ & H3 & _ & H5 & _); [reflexivity..|].
  split; [exact H3|exact H5].
Defined.

(** X26, witness: network names and currency codes. *)
Lemma invert_flat_string_dictionary_round_trip_witness :
  invert_flat_string_dictionary (strings networks)
  = [("ETH", "ERC20"); ("TRX", "TRC20"); ("BNB", "BEP20")]
  ∧ invert_flat_string_dictionary
      (strings (invert_flat_string_dictionary (strings networks))) = networks.
Proof.
  apply (invert_flat_string_dictionary_round_trip networks).
  - apply (bool_decide_unpack _). vm_compute. exact I.
  - apply (bool_decide_unpack _). vm_compute. exact I.
Defined.

(** X29, witness: the transport closes while the subscribe message is sent,
    and the book is watched again. *)
Lemma watch_resubscribes_after_send_failure_witness :
  let c := (client_of ws world).1 in
  let r := watch exchange None ws "orderbook:ETH/USDT" request (Some key) PNone
                 world in
  let w' := (after exchange (mkAfter c r.1 request (Some key))
                   (Some connection_reset) r.2).1 in
  let r2 := watch exchange None ws "orderbook:ETH/USDT" request (Some key) PNone
                  w' in
  subscriptions_of c w' !! Some key = None
  ∧ fstate w' !! r.1 = Some (Rejected connection_reset)
  ∧ subscriptions_of c r2.2 !! Some key = Some PTrue
  ∧ callbacks r2.2 = (callbacks w' ++ [mkAfter c r2.1 request (Some key)])%list
  ∧ fstate r2.2 !! r.1 = Some (Rejected connection_reset).
Proof.
  intros c r w' r2.
  destruct (watch_resubscribes_after_send_failure exchange ws key
              "orderbook:ETH/USDT" request PNone
              "orderbook:ETH/USDT" request PNone world connection_reset
              world_registry_ok) as (_ & H2 & _ & H4 & H5 & H6 & H7);
    [reflexivity..|].
  split; [exact H2|]. split; [apply H4; reflexivity|]. split; [exact H5|].
  split; [exact H6|]. apply H7, H4. reflexivity.
Defined.

(** C3, counterexample. For the base class itself, on a symbol whose book
    is initiated: with room for 981 nested calls the call makes 982 fetches
    and ends with [RecursionError], which the retry code does not raise and
    [except BaseError] does not catch; and whatever ceiling is fixed, there
    is a recursion limit under which the call makes more fetches. *)
Lemma load_order_book_fetch_bound_counterexample :
  (∃ w', load_order_book_within exchange (base_adapter exchange) 981 0%nat mh sym
           world = Raised recursion_error w'
         ∧ fetches w' = 982%nat
         ∧ isinstance recursion_error BaseError = false)
  ∧ ¬ (∃ ceiling, ∀ depth,
          (fetches (world_of (load_order_book_within exchange
                                (base_adapter exchange) depth 0%nat mh sym world))
           ≤ ceiling)%nat).
Proof.
  assert (Hbook : is_Some (orderbooks world !! sym)) by (eexists; reflexivity).
  assert (Hmax : (0 < handle_option exchange "watchOrderBook" "maxRetries" 3)%Z)
    by reflexivity.
  assert (Hfail : every_fetch_fails (base_adapter exchange : Adapter Snap Dlt) sym).
  { intros n. eexists _, _. split; reflexivity. }
  split.
  - destruct (within_all_fail exchange (base_adapter exchange) 0%nat mh sym 981 world
                Hmax Hbook Hfail) as (w' & Hw & Hfe & _).
    exists w'. split; [exact Hw|]. split; [exact Hfe|reflexivity].
  - intros [ceiling Hc]. specialize (Hc ceiling).
    destruct (within_all_fail exchange (base_adapter exchange) 0%nat mh sym ceiling
                world Hmax Hbook Hfail) as (w' & Hw & Hfe & _).
    rewrite Hw in Hc. simpl in Hc. rewrite Hfe in Hc. simpl in Hc. lia.
Qed.



End MoreScenarios.
